(** * CrystalNet: the forward data flow of [net_models.py]

    A shallow embedding of the network modules of [net_models.py]
    (DoubleConv, Down, Up, OutConv, UNet, ThreeWayUNet, RNet, TNetBackBone,
    TNet, CNet, CrystalNet) together with the tensor operations of the array
    engine they call, and the properties of the forward pass.

    - A tensor is a shape with its row-major data.
    - The scalar type is a parameter ([Scalar]): the rationals give exact
      arithmetic, IEEE binary32 gives the arithmetic of a default tensor.
    - A learned parameter tensor has a shape fixed by the constructor of its
      layer; it is represented by its indexing function.
    - A forward pass that raises (a shape error of the array engine) is
      [None]. *)

From Stdlib Require Import List Arith ZArith Lia Bool Permutation Ring_theory Ring.
From Stdlib Require Import QArith Qcanon.
From Stdlib Require Import Floats.SpecFloat.
Import ListNotations.

Close Scope Qc_scope.
Close Scope Q_scope.
Open Scope nat_scope.

Set Implicit Arguments.

(** ** A small error monad *)

Definition bind {A B : Type} (m : option A) (k : A -> option B) : option B :=
  match m with
  | Some a => k a
  | None => None
  end.

Notation "x <- m ;; k" := (bind m (fun x => k))
  (at level 61, m at next level, right associativity).
Notation "' pat <- m ;; k" := (bind m (fun x => match x with pat => k end))
  (at level 61, pat pattern, m at next level, right associativity).

(** ** Scalars *)

Class Scalar (R : Type) := {
  zero : R;
  add : R -> R -> R;
  mul : R -> R -> R;
  leb : R -> R -> bool;
  ltb : R -> R -> bool;
  (** [ratio n d] is the scalar n/d *)
  ratio : nat -> nat -> R
}.

Section ScalarOps.
Context {R : Type} {SR : Scalar R}.

(** [0 <= x] *)
Definition nonneg (x : R) : Prop := leb zero x = true.

(** nn.ReLU: [x <= 0 ? 0 : x] *)
Definition relu (x : R) : R := if leb x zero then zero else x.

(** nn.LeakyReLU with the default negative_slope 0.01: [x > 0 ? x : x * 0.01] *)
Definition negative_slope : R := ratio 1 100.
Definition leaky_relu (x : R) : R := if ltb zero x then x else mul x negative_slope.

(** one step of the running maximum of a pooling window,
    [(val > max) || isnan(val) ? val : max]; a NaN is the one value that is
    not <= itself *)
Definition smax (a b : R) : R := if ltb a b || negb (leb b b) then b else a.

(** the sum of [f 0 .. f (n-1)], accumulated from zero *)
Definition sum_over (n : nat) (f : nat -> R) : R :=
  fold_left (fun acc i => add acc (f i)) (seq 0 n) zero.
End ScalarOps.

(** ** Tensors *)

Definition numel (s : list nat) : nat := fold_right Nat.mul 1 s.

(** row-major offset of an index in a tensor of shape [s] *)
Fixpoint offset (s ix : list nat) : nat :=
  match s, ix with
  | _ :: s', i :: ix' => i * numel s' + offset s' ix'
  | _, _ => 0
  end.

Fixpoint tab {R : Type} (s : list nat) (f : list nat -> R) : list R :=
  match s with
  | [] => [f []]
  | n :: s' => flat_map (fun i => tab s' (fun ix => f (i :: ix))) (seq 0 n)
  end.

Record tensor (R : Type) := mkT { shape : list nat; data : list R }.
Arguments mkT {R} shape data.

(** parameter tensors of rank 4, 2 and 1, by their indexing functions *)
Definition weight4 (R : Type) : Type := nat -> nat -> nat -> nat -> R.
Definition weight2 (R : Type) : Type := nat -> nat -> R.
Definition weight1 (R : Type) : Type := nat -> R.

Definition shape_eqb (s1 s2 : list nat) : bool :=
  if list_eq_dec Nat.eq_dec s1 s2 then true else false.

Section Tensors.
Context {R : Type} {SR : Scalar R}.

Definition wf (t : tensor R) : Prop := length (data t) = numel (shape t).

Definition get (t : tensor R) (ix : list nat) : R :=
  nth (offset (shape t) ix) (data t) zero.

Definition build (s : list nat) (f : list nat -> R) : tensor R :=
  mkT s (tab s f).

Definition get4 (t : tensor R) (b c y x : nat) : R := get t [b; c; y; x].

(** an index with signed spatial coordinates reads zero outside the map *)
Definition getz (t : tensor R) (H W : nat) (b c : nat) (y x : Z) : R :=
  if ((0 <=? y) && (y <? Z.of_nat H) && (0 <=? x) && (x <? Z.of_nat W))%Z
  then get4 t b c (Z.to_nat y) (Z.to_nat x)
  else zero.

(** [t.shape[i]] and [t.shape[-k]]; an index out of range raises *)
Definition dim (t : tensor R) (i : nat) : option nat := nth_error (shape t) i.
Definition dim_neg (t : tensor R) (k : nat) : option nat :=
  nth_error (rev (shape t)) (k - 1).

(** torch.zeros *)
Definition zeros (s : list nat) : tensor R := build s (fun _ => zero).

Definition tmap (f : R -> R) (t : tensor R) : tensor R :=
  mkT (shape t) (map f (data t)).

Definition map2 (f : R -> R -> R) (l1 l2 : list R) : list R :=
  map (fun p => f (fst p) (snd p)) (combine l1 l2).

(** [a + b] on tensors of one shape.  Operands of different shapes would
    be broadcast by the array engine; that case is outside this model and
    is rejected (the sum in [TNet.forward] never reaches it, see
    [TNet_terms_shape]). *)
Definition tensor_add (a b : tensor R) : option (tensor R) :=
  if shape_eqb (shape a) (shape b)
  then Some (mkT (shape a) (map2 add (data a) (data b)))
  else None.

(** [a * t] for a scalar [a] *)
Definition scale (a : R) (t : tensor R) : tensor R := tmap (mul a) t.

(** [a * t1 + b * t2] *)
Definition lincomb (a : R) (t1 : tensor R) (b : R) (t2 : tensor R)
    : option (tensor R) :=
  tensor_add (scale a t1) (scale b t2).

(** *** Convolutions *)

Definition conv2d_shape (in_channels out_channels kernel_size padding : nat)
    (s : list nat) : option (list nat) :=
  match s with
  | [B; C; H; W] =>
      if (1 <=? in_channels) && (1 <=? out_channels) && (C =? in_channels)
         && (kernel_size <=? H + 2 * padding)
         && (kernel_size <=? W + 2 * padding)
      then Some [B; out_channels; H + 2 * padding - kernel_size + 1;
                 W + 2 * padding - kernel_size + 1]
      else None
  | _ => None
  end.

(** nn.Conv2d(in_channels, out_channels, kernel_size, padding=padding,
    bias=...), stride 1, on a batched map (B, C, H, W).  A kernel larger
    than the padded map raises.  A layer built with a channel count of zero
    has a weight with an empty axis: its forward raises on every batch that
    is not itself empty, and is taken to raise on all. *)
Definition conv2d (in_channels out_channels kernel_size padding : nat)
    (weight : weight4 R) (bias : option (weight1 R)) (x : tensor R) : option (tensor R) :=
  s <- conv2d_shape in_channels out_channels kernel_size padding (shape x) ;;
  match shape x with
  | [_; _; H; W] =>
      Some (build s (fun ix =>
        match ix with
        | [b; o; y; x'] =>
            let acc :=
              sum_over in_channels (fun c =>
                sum_over kernel_size (fun ky =>
                  sum_over kernel_size (fun kx =>
                    mul (weight o c ky kx)
                        (getz x H W b c
                           (Z.of_nat (y + ky) - Z.of_nat padding)
                           (Z.of_nat (x' + kx) - Z.of_nat padding))))) in
            match bias with
            | Some bv => add acc (bv o)
            | None => acc
            end
        | _ => zero
        end))
  | _ => None
  end.

Definition conv_transpose2d_shape (in_channels out_channels : nat)
    (s : list nat) : option (list nat) :=
  match s with
  | [B; C; H; W] =>
      if (1 <=? in_channels) && (1 <=? out_channels) && (C =? in_channels)
         && (1 <=? H) && (1 <=? W)
      then Some [B; out_channels; 2 * H; 2 * W]
      else None
  | _ => None
  end.

(** nn.ConvTranspose2d(in_channels, out_channels, kernel_size=2, stride=2):
    the 2x2 windows do not overlap.  A weight with an empty axis raises, and
    so does an empty map, on every batch that is not itself empty; they are
    taken to raise on all. *)
Definition conv_transpose2d (in_channels out_channels : nat)
    (weight : weight4 R) (bias : weight1 R) (x : tensor R) : option (tensor R) :=
  s <- conv_transpose2d_shape in_channels out_channels (shape x) ;;
  Some (build s (fun ix =>
    match ix with
    | [b; o; y; x'] =>
        add (sum_over in_channels (fun c =>
               mul (get4 x b c (y / 2) (x' / 2))
                   (weight c o (y mod 2) (x' mod 2))))
            (bias o)
    | _ => zero
    end)).

(** *** Pooling, resampling, padding *)

Definition max_pool2d_shape (s : list nat) : option (list nat) :=
  match s with
  | [B; C; H; W] =>
      if (1 <=? C) && (1 <=? H / 2) && (1 <=? W / 2)
      then Some [B; C; H / 2; W / 2]
      else None
  | _ => None
  end.

(** nn.MaxPool2d(2): a map without channels raises, and so does an output
    of size zero; the window is scanned row by row *)
Definition max_pool2d (x : tensor R) : option (tensor R) :=
  s <- max_pool2d_shape (shape x) ;;
  Some (build s (fun ix =>
    match ix with
    | [b; c; y; x'] =>
        smax (smax (smax (get4 x b c (2 * y) (2 * x'))
                         (get4 x b c (2 * y) (2 * x' + 1)))
                   (get4 x b c (2 * y + 1) (2 * x')))
             (get4 x b c (2 * y + 1) (2 * x' + 1))
    | _ => zero
    end)).

Definition upsample_shape (s : list nat) : option (list nat) :=
  match s with
  | [B; C; H; W] =>
      if (1 <=? C) && (1 <=? H) && (1 <=? W)
      then Some [B; C; 2 * H; 2 * W]
      else None
  | _ => None
  end.

(** nn.Upsample(scale_factor=2, mode='bilinear', align_corners=True):
    output row [y] reads the source at [y * (H-1) / (2H-1)]; an empty map,
    or a map without channels, raises *)
Definition upsample_bilinear (x : tensor R) : option (tensor R) :=
  s <- upsample_shape (shape x) ;;
  match shape x with
  | [_; _; H; W] =>
      Some (build s (fun ix =>
        match ix with
        | [b; c; y; x'] =>
            let dh := 2 * H - 1 in
            let dw := 2 * W - 1 in
            let h1 := y * (H - 1) / dh in
            let w1 := x' * (W - 1) / dw in
            let h1p := if h1 <? H - 1 then 1 else 0 in
            let w1p := if w1 <? W - 1 then 1 else 0 in
            let h1lambda := ratio (y * (H - 1) mod dh) dh in
            let h0lambda := ratio (dh - y * (H - 1) mod dh) dh in
            let w1lambda := ratio (x' * (W - 1) mod dw) dw in
            let w0lambda := ratio (dw - x' * (W - 1) mod dw) dw in
            add (mul h0lambda (add (mul w0lambda (get4 x b c h1 w1))
                                   (mul w1lambda (get4 x b c h1 (w1 + w1p)))))
                (mul h1lambda (add (mul w0lambda (get4 x b c (h1 + h1p) w1))
                                   (mul w1lambda (get4 x b c (h1 + h1p) (w1 + w1p)))))
        | _ => zero
        end))
  | _ => None
  end.

Definition pad_shape (left right top bottom : Z) (s : list nat) : option (list nat) :=
  match s with
  | [B; C; H; W] =>
      let H' := (Z.of_nat H + top + bottom)%Z in
      let W' := (Z.of_nat W + left + right)%Z in
      if ((0 <=? H') && (0 <=? W'))%Z
      then Some [B; C; Z.to_nat H'; Z.to_nat W']
      else None
  | _ => None
  end.

(** F.pad(x, [left, right, top, bottom]) with constant 0; a negative
    amount crops *)
Definition pad (left right top bottom : Z) (x : tensor R) : option (tensor R) :=
  s <- pad_shape left right top bottom (shape x) ;;
  match shape x with
  | [_; _; H; W] =>
      Some (build s (fun ix =>
        match ix with
        | [b; c; y; x'] => getz x H W b c (Z.of_nat y - top) (Z.of_nat x' - left)
        | _ => zero
        end))
  | _ => None
  end.

(** *** Concatenation, slicing, axes *)

Definition cat1_shape (s1 s2 : list nat) : option (list nat) :=
  match s1, s2 with
  | [B1; C1; H1; W1], [B2; C2; H2; W2] =>
      if (B1 =? B2) && (H1 =? H2) && (W1 =? W2)
      then Some [B1; C1 + C2; H1; W1]
      else None
  | _, _ => None
  end.

(** torch.cat([a, b], dim=1) on two maps *)
Definition cat1 (a b : tensor R) : option (tensor R) :=
  s <- cat1_shape (shape a) (shape b) ;;
  match shape a with
  | [_; C1; _; _] =>
      Some (build s (fun ix =>
        match ix with
        | [n; c; y; x] => if c <? C1 then get4 a n c y x else get4 b n (c - C1) y x
        | _ => zero
        end))
  | _ => None
  end.

Definition slice_channels_shape (lo hi : nat) (s : list nat) : option (list nat) :=
  match s with
  | [B; C; H; W] => Some [B; Nat.min hi C - lo; H; W]
  | _ => None
  end.

(** [x[:, lo:hi, :, :]]: the bounds of a slice are clamped *)
Definition slice_channels (lo hi : nat) (x : tensor R) : option (tensor R) :=
  s <- slice_channels_shape lo hi (shape x) ;;
  Some (build s (fun ix =>
    match ix with
    | [b; c; y; x'] => get4 x b (lo + c) y x'
    | _ => zero
    end)).

Definition select1_shape (i : nat) (s : list nat) : option (list nat) :=
  match s with
  | [B; G; C; H; W] => if i <? G then Some [B; C; H; W] else None
  | _ => None
  end.

(** [g[:, i, ...]] on a glass tensor (B, G, C, H, W) *)
Definition select1 (g : tensor R) (i : nat) : option (tensor R) :=
  s <- select1_shape i (shape g) ;;
  Some (build s (fun ix =>
    match ix with
    | [b; c; y; x] => get g [b; i; c; y; x]
    | _ => zero
    end)).

(** [g[:, p]] for a list of indices [p] along axis 1 *)
Definition index_select1 (g : tensor R) (p : list nat) : option (tensor R) :=
  match shape g with
  | [B; G; C; H; W] =>
      if forallb (fun j => j <? G) p
      then Some (build [B; length p; C; H; W] (fun ix =>
             match ix with
             | [b; i; c; y; x] => get g [b; nth i p 0; c; y; x]
             | _ => zero
             end))
      else None
  | _ => None
  end.

Definition moveaxis_1_3_shape (s : list nat) : option (list nat) :=
  match s with
  | [B; C; H; W] => Some [B; H; W; C]
  | _ => None
  end.

(** torch.moveaxis(t, 1, 3): (B, C, H, W) to (B, H, W, C) *)
Definition moveaxis_1_3 (t : tensor R) : option (tensor R) :=
  s <- moveaxis_1_3_shape (shape t) ;;
  Some (build s (fun ix =>
    match ix with
    | [b; y; x; c] => get4 t b c y x
    | _ => zero
    end)).

Definition moveaxis_3_1_shape (s : list nat) : option (list nat) :=
  match s with
  | [B; H; W; C] => Some [B; C; H; W]
  | _ => None
  end.

(** torch.moveaxis(t, 3, 1): (B, H, W, C) to (B, C, H, W) *)
Definition moveaxis_3_1 (t : tensor R) : option (tensor R) :=
  s <- moveaxis_3_1_shape (shape t) ;;
  Some (build s (fun ix =>
    match ix with
    | [b; c; y; x] => get4 t b y x c
    | _ => zero
    end)).

Definition linear_shape (in_features out_features : nat) (s : list nat)
    : option (list nat) :=
  match s with
  | [B; H; W; C] => if C =? in_features then Some [B; H; W; out_features] else None
  | _ => None
  end.

(** nn.Linear(in_features, out_features) on the last axis *)
Definition linear (in_features out_features : nat) (weight : weight2 R)
    (bias : weight1 R) (t : tensor R) : option (tensor R) :=
  s <- linear_shape in_features out_features (shape t) ;;
  Some (build s (fun ix =>
    match ix with
    | [b; y; x; o] =>
        add (sum_over in_features (fun c => mul (get4 t b y x c) (weight o c)))
            (bias o)
    | _ => zero
    end)).
End Tensors.

(** ** The modules of [net_models.py]

    Each class is a module: [params] holds the learned parameters of an
    instance, [forward] takes the constructor arguments, the parameters and
    the inputs, and [forward_shape] is the shape the array engine computes
    for [forward] ([None] where it raises). *)

Module DoubleConv.
Section Defs.
Context {R : Type} {SR : Scalar R}.

Record params := mk { conv0_weight : weight4 R; conv2_weight : weight4 R }.

(** [if not mid_channels: mid_channels = out_channels]; 0 is falsy too *)
Definition mid_of (out_channels : nat) (mid_channels : option nat) : nat :=
  match mid_channels with
  | None | Some 0 => out_channels
  | Some m => m
  end.

Definition forward (in_channels out_channels : nat) (mid_channels : option nat)
    (p : params) (x : tensor R) : option (tensor R) :=
  let mid := mid_of out_channels mid_channels in
  x <- conv2d in_channels mid 3 1 (conv0_weight p) None x ;;
  let x := tmap relu x in
  x <- conv2d mid out_channels 3 1 (conv2_weight p) None x ;;
  Some (tmap relu x).

Definition forward_shape (in_channels out_channels : nat)
    (mid_channels : option nat) (s : list nat) : option (list nat) :=
  let mid := mid_of out_channels mid_channels in
  s <- conv2d_shape in_channels mid 3 1 s ;;
  conv2d_shape mid out_channels 3 1 s.
End Defs.
Arguments params R : clear implicits.
End DoubleConv.

Module Down.
Section Defs.
Context {R : Type} {SR : Scalar R}.

Record params := mk { conv : DoubleConv.params R }.

Definition forward (in_channels out_channels : nat) (p : params)
    (x : tensor R) : option (tensor R) :=
  x <- max_pool2d x ;;
  DoubleConv.forward in_channels out_channels None (conv p) x.

Definition forward_shape (in_channels out_channels : nat) (s : list nat)
    : option (list nat) :=
  s <- max_pool2d_shape s ;;
  DoubleConv.forward_shape in_channels out_channels None s.
End Defs.
Arguments params R : clear implicits.
End Down.

Module Up.
Section Defs.
Context {R : Type} {SR : Scalar R}.

(** [up_weight], [up_bias] belong to the ConvTranspose2d and are used
    only when [bilinear] is false *)
Record params := mk {
  up_weight : weight4 R;
  up_bias : weight1 R;
  conv : DoubleConv.params R
}.

(** [self.up] *)
Definition up (in_channels : nat) (bilinear : bool) (p : params)
    (x1 : tensor R) : option (tensor R) :=
  if bilinear then upsample_bilinear x1
  else conv_transpose2d in_channels (in_channels / 2) (up_weight p) (up_bias p) x1.

Definition up_shape (in_channels : nat) (bilinear : bool) (s : list nat)
    : option (list nat) :=
  if bilinear then upsample_shape s
  else conv_transpose2d_shape in_channels (in_channels / 2) s.

(** the amounts [d // 2] and [d - d // 2] given to F.pad for a
    difference [d]; [//] rounds down, as [Z.div] does *)
Definition pad_split (d : Z) : Z * Z := ((d / 2)%Z, (d - d / 2)%Z).

(** lines 60-64: the upsampled [x1] is padded to the size of [x2] *)
Definition pad_to (x1 x2 : tensor R) : option (tensor R) :=
  h2 <- dim x2 2 ;;
  h1 <- dim x1 2 ;;
  let diffY := (Z.of_nat h2 - Z.of_nat h1)%Z in
  w2 <- dim x2 3 ;;
  w1 <- dim x1 3 ;;
  let diffX := (Z.of_nat w2 - Z.of_nat w1)%Z in
  pad (fst (pad_split diffX)) (snd (pad_split diffX))
      (fst (pad_split diffY)) (snd (pad_split diffY)) x1.

Definition pad_to_shape (s1 s2 : list nat) : option (list nat) :=
  h2 <- nth_error s2 2 ;;
  h1 <- nth_error s1 2 ;;
  let diffY := (Z.of_nat h2 - Z.of_nat h1)%Z in
  w2 <- nth_error s2 3 ;;
  w1 <- nth_error s1 3 ;;
  let diffX := (Z.of_nat w2 - Z.of_nat w1)%Z in
  pad_shape (fst (pad_split diffX)) (snd (pad_split diffX))
            (fst (pad_split diffY)) (snd (pad_split diffY)) s1.

(** the [mid_channels] argument the constructor gives its DoubleConv *)
Definition mid (in_channels : nat) (bilinear : bool) : option nat :=
  if bilinear then Some (in_channels / 2) else None.

Definition forward (in_channels out_channels : nat) (bilinear : bool)
    (p : params) (x1 x2 : tensor R) : option (tensor R) :=
  x1 <- up in_channels bilinear p x1 ;;
  x1 <- pad_to x1 x2 ;;
  x <- cat1 x2 x1 ;;
  DoubleConv.forward in_channels out_channels (mid in_channels bilinear) (conv p) x.

Definition forward_shape (in_channels out_channels : nat) (bilinear : bool)
    (s1 s2 : list nat) : option (list nat) :=
  s1 <- up_shape in_channels bilinear s1 ;;
  s1 <- pad_to_shape s1 s2 ;;
  s <- cat1_shape s2 s1 ;;
  DoubleConv.forward_shape in_channels out_channels (mid in_channels bilinear) s.
End Defs.
Arguments params R : clear implicits.
End Up.

Module OutConv.
Section Defs.
Context {R : Type} {SR : Scalar R}.

Record params := mk { weight : weight4 R; bias : weight1 R }.

Definition forward (in_channels out_channels : nat) (p : params)
    (x : tensor R) : option (tensor R) :=
  conv2d in_channels out_channels 1 0 (weight p) (Some (bias p)) x.

Definition forward_shape (in_channels out_channels : nat) (s : list nat)
    : option (list nat) :=
  conv2d_shape in_channels out_channels 1 0 s.
End Defs.
Arguments params R : clear implicits.
End OutConv.

(** [factor = 2 if bilinear else 1] *)
Definition factor (bilinear : bool) : nat := if bilinear then 2 else 1.

Module UNet.
Section Defs.
Context {R : Type} {SR : Scalar R}.

Record params := mk {
  inc : DoubleConv.params R;
  down1 : Down.params R;
  down2 : Down.params R;
  down3 : Down.params R;
  down4 : Down.params R;
  up1 : Up.params R;
  up2 : Up.params R;
  up3 : Up.params R;
  up4 : Up.params R;
  outc : OutConv.params R
}.

Definition forward (n_channels n_classes : nat) (bilinear : bool)
    (p : params) (x : tensor R) : option (tensor R) :=
  x1 <- DoubleConv.forward n_channels 32 None (inc p) x ;;
  x2 <- Down.forward 32 64 (down1 p) x1 ;;
  x3 <- Down.forward 64 128 (down2 p) x2 ;;
  x4 <- Down.forward 128 256 (down3 p) x3 ;;
  x5 <- Down.forward 256 (512 / factor bilinear) (down4 p) x4 ;;
  x <- Up.forward 512 (256 / factor bilinear) bilinear (up1 p) x5 x4 ;;
  x <- Up.forward 256 (128 / factor bilinear) bilinear (up2 p) x x3 ;;
  x <- Up.forward 128 (64 / factor bilinear) bilinear (up3 p) x x2 ;;
  x <- Up.forward 64 32 bilinear (up4 p) x x1 ;;
  OutConv.forward 32 n_classes (outc p) x.

Definition forward_shape (n_channels n_classes : nat) (bilinear : bool)
    (s : list nat) : option (list nat) :=
  s1 <- DoubleConv.forward_shape n_channels 32 None s ;;
  s2 <- Down.forward_shape 32 64 s1 ;;
  s3 <- Down.forward_shape 64 128 s2 ;;
  s4 <- Down.forward_shape 128 256 s3 ;;
  s5 <- Down.forward_shape 256 (512 / factor bilinear) s4 ;;
  s <- Up.forward_shape 512 (256 / factor bilinear) bilinear s5 s4 ;;
  s <- Up.forward_shape 256 (128 / factor bilinear) bilinear s s3 ;;
  s <- Up.forward_shape 128 (64 / factor bilinear) bilinear s s2 ;;
  s <- Up.forward_shape 64 32 bilinear s s1 ;;
  OutConv.forward_shape 32 n_classes s.
End Defs.
Arguments params R : clear implicits.
End UNet.

Module ThreeWayUNet.
Section Defs.
Context {R : Type} {SR : Scalar R}.

Record params := mk {
  inc : DoubleConv.params R;
  down1 : Down.params R;
  down2 : Down.params R;
  down3 : Down.params R;
  down4 : Down.params R;
  up_group_1_0 : Up.params R;
  up_group_1_1 : Up.params R;
  up_group_1_2 : Up.params R;
  up_group_1_3 : Up.params R;
  up_group_1_4 : OutConv.params R;
  up_group_2_0 : Up.params R;
  up_group_2_1 : Up.params R;
  up_group_2_2 : Up.params R;
  up_group_2_3 : Up.params R;
  up_group_2_4 : OutConv.params R;
  up_group_3_0 : Up.params R;
  up_group_3_1 : Up.params R;
  up_group_3_2 : Up.params R;
  up_group_3_3 : Up.params R;
  up_group_3_4 : OutConv.params R
}.

Definition forward (n_channels n_classes : nat) (bilinear : bool)
    (p : params) (x : tensor R) : option (tensor R * tensor R * tensor R) :=
  x1 <- DoubleConv.forward n_channels 32 None (inc p) x ;;
  x2 <- Down.forward 32 64 (down1 p) x1 ;;
  x3 <- Down.forward 64 128 (down2 p) x2 ;;
  x4 <- Down.forward 128 256 (down3 p) x3 ;;
  x5 <- Down.forward 256 (512 / factor bilinear) (down4 p) x4 ;;

  out1 <- Up.forward 512 (256 / factor bilinear) bilinear (up_group_1_0 p) x5 x4 ;;
  out1 <- Up.forward 256 (128 / factor bilinear) bilinear (up_group_1_1 p) out1 x3 ;;
  out1 <- Up.forward 128 (64 / factor bilinear) bilinear (up_group_1_2 p) out1 x2 ;;
  out1 <- Up.forward 64 32 bilinear (up_group_1_3 p) out1 x1 ;;
  out1 <- OutConv.forward 32 3 (up_group_1_4 p) out1 ;;

  out2 <- Up.forward 512 (256 / factor bilinear) bilinear (up_group_2_0 p) x5 x4 ;;
  out2 <- Up.forward 256 (128 / factor bilinear) bilinear (up_group_2_1 p) out2 x3 ;;
  out2 <- Up.forward 128 (64 / factor bilinear) bilinear (up_group_2_2 p) out2 x2 ;;
  out2 <- Up.forward 64 32 bilinear (up_group_2_3 p) out2 x1 ;;
  out2 <- OutConv.forward 32 n_classes (up_group_2_4 p) out2 ;;

  out3 <- Up.forward 512 (256 / factor bilinear) bilinear (up_group_3_0 p) x5 x4 ;;
  out3 <- Up.forward 256 (128 / factor bilinear) bilinear (up_group_3_1 p) out3 x3 ;;
  out3 <- Up.forward 128 (64 / factor bilinear) bilinear (up_group_3_2 p) out3 x2 ;;
  out3 <- Up.forward 64 32 bilinear (up_group_3_3 p) out3 x1 ;;
  out3 <- OutConv.forward 32 2 (up_group_3_4 p) out3 ;;

  (* normal, oi, uv *)
  Some (out1, out2, out3).

(** the shape of one decoder ladder ending in [classes] channels *)
Definition group_shape (classes : nat) (bilinear : bool)
    (s1 s2 s3 s4 s5 : list nat) : option (list nat) :=
  s <- Up.forward_shape 512 (256 / factor bilinear) bilinear s5 s4 ;;
  s <- Up.forward_shape 256 (128 / factor bilinear) bilinear s s3 ;;
  s <- Up.forward_shape 128 (64 / factor bilinear) bilinear s s2 ;;
  s <- Up.forward_shape 64 32 bilinear s s1 ;;
  OutConv.forward_shape 32 classes s.

Definition forward_shape (n_channels n_classes : nat) (bilinear : bool)
    (s : list nat) : option (list nat * list nat * list nat) :=
  s1 <- DoubleConv.forward_shape n_channels 32 None s ;;
  s2 <- Down.forward_shape 32 64 s1 ;;
  s3 <- Down.forward_shape 64 128 s2 ;;
  s4 <- Down.forward_shape 128 256 s3 ;;
  s5 <- Down.forward_shape 256 (512 / factor bilinear) s4 ;;
  o1 <- group_shape 3 bilinear s1 s2 s3 s4 s5 ;;
  o2 <- group_shape n_classes bilinear s1 s2 s3 s4 s5 ;;
  o3 <- group_shape 2 bilinear s1 s2 s3 s4 s5 ;;
  Some (o1, o2, o3).
End Defs.
Arguments params R : clear implicits.
End ThreeWayUNet.

Module RNet.
Section Defs.
Context {R : Type} {SR : Scalar R}.

Record params := mk {
  layer0_weight : weight4 R; layer0_bias : weight1 R;
  layer1_weight : weight4 R; layer1_bias : weight1 R;
  layer2_weight : weight4 R; layer2_bias : weight1 R;
  layer3_weight : weight4 R; layer3_bias : weight1 R
}.

Definition forward (in_channel out_channel : nat) (p : params)
    (x : tensor R) : option (tensor R) :=
  x <- conv2d in_channel 32 5 2 (layer0_weight p) (Some (layer0_bias p)) x ;;
  let x := tmap leaky_relu x in
  x <- conv2d 32 64 3 1 (layer1_weight p) (Some (layer1_bias p)) x ;;
  let x := tmap leaky_relu x in
  x <- conv2d 64 32 3 1 (layer2_weight p) (Some (layer2_bias p)) x ;;
  let x := tmap leaky_relu x in
  x <- conv2d 32 out_channel 1 0 (layer3_weight p) (Some (layer3_bias p)) x ;;
  Some x.

Definition forward_shape (in_channel out_channel : nat) (s : list nat)
    : option (list nat) :=
  s <- conv2d_shape in_channel 32 5 2 s ;;
  s <- conv2d_shape 32 64 3 1 s ;;
  s <- conv2d_shape 64 32 3 1 s ;;
  conv2d_shape 32 out_channel 1 0 s.
End Defs.
Arguments params R : clear implicits.
End RNet.

Module TNetBackBone.
Section Defs.
Context {R : Type} {SR : Scalar R}.

Record params := mk {
  layer1_weight : weight4 R; layer1_bias : weight1 R;
  layer2_weight : weight4 R; layer2_bias : weight1 R;
  layer3_weight : weight4 R; layer3_bias : weight1 R;
  layer4_weight : weight4 R; layer4_bias : weight1 R
}.

Definition forward (in_channel out_channel : nat) (p : params)
    (x : tensor R) : option (tensor R) :=
  x <- conv2d in_channel 64 3 1 (layer1_weight p) (Some (layer1_bias p)) x ;;
  let x := tmap relu x in
  x <- conv2d 64 128 3 1 (layer2_weight p) (Some (layer2_bias p)) x ;;
  let x := tmap relu x in
  x <- conv2d 128 64 3 1 (layer3_weight p) (Some (layer3_bias p)) x ;;
  let x := tmap relu x in
  x <- conv2d 64 out_channel 1 0 (layer4_weight p) (Some (layer4_bias p)) x ;;
  let x := tmap relu x in
  Some x.

Definition forward_shape (in_channel out_channel : nat) (s : list nat)
    : option (list nat) :=
  s <- conv2d_shape in_channel 64 3 1 s ;;
  s <- conv2d_shape 64 128 3 1 s ;;
  s <- conv2d_shape 128 64 3 1 s ;;
  conv2d_shape 64 out_channel 1 0 s.
End Defs.
Arguments params R : clear implicits.
End TNetBackBone.

Module TNet.
Section Defs.
Context {R : Type} {SR : Scalar R}.

Record params := mk {
  tnet_f : TNetBackBone.params R;
  tnet_b : TNetBackBone.params R
}.

(** the default of the constructor argument [hidden] *)
Definition default_hidden : nat := 32.

(** [self.tnet_f(torch.cat([rx, g[:,i,...]], 1))] *)
Definition term (in_channel hidden : nat) (p : params) (g rx : tensor R)
    (i : nat) : option (tensor R) :=
  gi <- select1 g i ;;
  c <- cat1 rx gi ;;
  TNetBackBone.forward in_channel hidden (tnet_f p) c.

(** one turn of the loop, on a [result] that may already have raised *)
Definition step (in_channel hidden : nat) (p : params) (g rx : tensor R)
    (result : option (tensor R)) (i : nat) : option (tensor R) :=
  result <- result ;;
  t <- term in_channel hidden p g rx i ;;
  tensor_add result t.

Definition forward (in_channel hidden : nat) (p : params)
    (g rx : tensor R) : option (tensor R) :=
  num_of_glass <- dim g 1 ;;
  b <- dim g 0 ;;
  h <- dim_neg g 2 ;;
  w <- dim_neg g 1 ;;
  let r_shape := [b; hidden; h; w] in
  let result := zeros r_shape in
  result <- fold_left (step in_channel hidden p g rx)
              (seq 0 num_of_glass) (Some result) ;;
  TNetBackBone.forward hidden 16 (tnet_b p) result.

Definition term_shape (in_channel hidden : nat) (sg srx : list nat) (i : nat)
    : option (list nat) :=
  gi <- select1_shape i sg ;;
  c <- cat1_shape srx gi ;;
  TNetBackBone.forward_shape in_channel hidden c.

Definition step_shape (in_channel hidden : nat) (sg srx : list nat)
    (result : option (list nat)) (i : nat) : option (list nat) :=
  result <- result ;;
  t <- term_shape in_channel hidden sg srx i ;;
  if shape_eqb result t then Some result else None.

Definition forward_shape (in_channel hidden : nat) (sg srx : list nat)
    : option (list nat) :=
  num_of_glass <- nth_error sg 1 ;;
  b <- nth_error sg 0 ;;
  h <- nth_error (rev sg) 1 ;;
  w <- nth_error (rev sg) 0 ;;
  result <- fold_left (step_shape in_channel hidden sg srx)
              (seq 0 num_of_glass) (Some [b; hidden; h; w]) ;;
  TNetBackBone.forward_shape hidden 16 result.
End Defs.
Arguments params R : clear implicits.
End TNet.

(** the helper [fc_layer]: nn.Linear then nn.LeakyReLU *)
Module fc_layer.
Section Defs.
Context {R : Type} {SR : Scalar R}.

Record params := mk { weight : weight2 R; bias : weight1 R }.

Definition forward (in_features out_features : nat) (p : params)
    (t : tensor R) : option (tensor R) :=
  t <- linear in_features out_features (weight p) (bias p) t ;;
  Some (tmap leaky_relu t).
End Defs.
Arguments params R : clear implicits.
End fc_layer.

Module CNet.
Section Defs.
Context {R : Type} {SR : Scalar R}.

(** the constructor builds fc_layer(3, 16), UNet(37, 8), TNet(8 + 17),
    ThreeWayUNet(24, n_oi), RNet(2, 2) and RNet(3, 3); [bilinear] and
    [hidden] keep their defaults *)
Record params := mk {
  inner_pos : fc_layer.params R;
  unet : UNet.params R;
  tnet : TNet.params R;
  r_unet : ThreeWayUNet.params R;
  rnet_uv : RNet.params R;
  rnet_normal : RNet.params R
}.

(** lines 250-259 alone: the three heads as [r_unet] returns them *)
Definition heads (n_oi : nat) (p : params) (x g : tensor R)
    : option (tensor R * tensor R * tensor R) :=
  position <- slice_channels 4 7 x ;;
  position <- moveaxis_1_3 position ;;
  pe <- fc_layer.forward 3 16 (inner_pos p) position ;;
  pe <- moveaxis_3_1 pe ;;
  x <- cat1 x pe ;;
  rx <- UNet.forward 37 8 true (unet p) x ;;
  tx <- TNet.forward (8 + 17) TNet.default_hidden (tnet p) g rx ;;
  rtx <- cat1 rx tx ;;
  ThreeWayUNet.forward 24 n_oi true (r_unet p) rtx.

Definition heads_shape (n_oi : nat) (sx sg : list nat)
    : option (list nat * list nat * list nat) :=
  position <- slice_channels_shape 4 7 sx ;;
  position <- moveaxis_1_3_shape position ;;
  pe <- linear_shape 3 16 position ;;
  pe <- moveaxis_3_1_shape pe ;;
  x <- cat1_shape sx pe ;;
  rx <- UNet.forward_shape 37 8 true x ;;
  tx <- TNet.forward_shape (8 + 17) TNet.default_hidden sg rx ;;
  rtx <- cat1_shape rx tx ;;
  ThreeWayUNet.forward_shape 24 n_oi true rtx.

Definition forward_shape (n_oi : nat) (sx sg : list nat)
    : option (list nat * list nat * list nat) :=
  '(normal, oi, uv) <- heads_shape n_oi sx sg ;;
  uv <- RNet.forward_shape 2 2 uv ;;
  normal <- RNet.forward_shape 3 3 normal ;;
  Some (normal, oi, uv).

Definition forward (n_oi : nat) (p : params) (x g : tensor R)
    : option (tensor R * tensor R * tensor R) :=
  position <- slice_channels 4 7 x ;;
  position <- moveaxis_1_3 position ;;

  pe <- fc_layer.forward 3 16 (inner_pos p) position ;;
  pe <- moveaxis_3_1 pe ;;
  x <- cat1 x pe ;;
  rx <- UNet.forward 37 8 true (unet p) x ;;
  tx <- TNet.forward (8 + 17) TNet.default_hidden (tnet p) g rx ;;
  rtx <- cat1 rx tx ;;
  '(normal, oi, uv) <- ThreeWayUNet.forward 24 n_oi true (r_unet p) rtx ;;
  uv <- RNet.forward 2 2 (rnet_uv p) uv ;;
  normal <- RNet.forward 3 3 (rnet_normal p) normal ;;
  Some (normal, oi, uv).
End Defs.
Arguments params R : clear implicits.
End CNet.

Module CrystalNet.
Section Defs.
Context {R : Type} {SR : Scalar R}.

Record params := mk { cnet : CNet.params R }.

Definition forward (n_oi : nat) (p : params) (x g : tensor R)
    : option (tensor R * tensor R * tensor R) :=
  '(n, o, d) <- CNet.forward n_oi (cnet p) x g ;;
  Some (n, o, d).
End Defs.
Arguments params R : clear implicits.
End CrystalNet.

(** ** Two scalar types *)

(** exact arithmetic: the rationals in canonical form *)
#[export] Instance Scalar_Qc : Scalar Qc := {|
  zero := Q2Qc 0;
  add := Qcplus;
  mul := Qcmult;
  leb := fun a b => Qle_bool a b;
  ltb := fun a b => negb (Qle_bool b a);
  ratio := fun n d => Q2Qc (Z.of_nat n # Pos.of_nat d)
|}.

(** IEEE 754 binary32, the element type of a default tensor: 24 bits of
    precision, exponents below 128, rounding to nearest even *)
Definition f32 : Type := spec_float.
Definition f32_of_Z (z : Z) : f32 := binary_normalize 24 128 z 0 false.

#[export] Instance Scalar_f32 : Scalar f32 := {|
  zero := S754_zero false;
  add := SFadd 24 128;
  mul := SFmul 24 128;
  leb := SFleb;
  ltb := SFltb;
  ratio := fun n d => SFdiv 24 128 (f32_of_Z (Z.of_nat n)) (f32_of_Z (Z.of_nat d))
|}.

(** ** ThreeWayUNet: one encoder, three decoder ladders *)

Section ThreeWayGroups.
Context {R : Type} {SR : Scalar R}.

Definition maps : Type := (tensor R * tensor R * tensor R * tensor R * tensor R)%type.

(** lines 147-151: the encoder feature maps x1..x5 *)
Definition encoder (n_channels : nat) (bilinear : bool)
    (p : ThreeWayUNet.params R) (x : tensor R) : option maps :=
  x1 <- DoubleConv.forward n_channels 32 None (ThreeWayUNet.inc p) x ;;
  x2 <- Down.forward 32 64 (ThreeWayUNet.down1 p) x1 ;;
  x3 <- Down.forward 64 128 (ThreeWayUNet.down2 p) x2 ;;
  x4 <- Down.forward 128 256 (ThreeWayUNet.down3 p) x3 ;;
  x5 <- Down.forward 256 (512 / factor bilinear) (ThreeWayUNet.down4 p) x4 ;;
  Some (x1, x2, x3, x4, x5).

(** one decoder ladder (lines 153-157, 159-163, 165-169), as a function of
    the encoder maps and of its own five parameter sets *)
Definition decoder_group (classes : nat) (bilinear : bool)
    (u0 u1 u2 u3 : Up.params R) (oc : OutConv.params R) (m : maps)
    : option (tensor R) :=
  let '(x1, x2, x3, x4, x5) := m in
  out <- Up.forward 512 (256 / factor bilinear) bilinear u0 x5 x4 ;;
  out <- Up.forward 256 (128 / factor bilinear) bilinear u1 out x3 ;;
  out <- Up.forward 128 (64 / factor bilinear) bilinear u2 out x2 ;;
  out <- Up.forward 64 32 bilinear u3 out x1 ;;
  OutConv.forward 32 classes oc out.

Definition group_1 (bilinear : bool) (p : ThreeWayUNet.params R) : maps -> option (tensor R) :=
  decoder_group 3 bilinear (ThreeWayUNet.up_group_1_0 p) (ThreeWayUNet.up_group_1_1 p)
    (ThreeWayUNet.up_group_1_2 p) (ThreeWayUNet.up_group_1_3 p)
    (ThreeWayUNet.up_group_1_4 p).
Definition group_2 (n_classes : nat) (bilinear : bool) (p : ThreeWayUNet.params R)
    : maps -> option (tensor R) :=
  decoder_group n_classes bilinear (ThreeWayUNet.up_group_2_0 p)
    (ThreeWayUNet.up_group_2_1 p) (ThreeWayUNet.up_group_2_2 p)
    (ThreeWayUNet.up_group_2_3 p) (ThreeWayUNet.up_group_2_4 p).
Definition group_3 (bilinear : bool) (p : ThreeWayUNet.params R) : maps -> option (tensor R) :=
  decoder_group 2 bilinear (ThreeWayUNet.up_group_3_0 p) (ThreeWayUNet.up_group_3_1 p)
    (ThreeWayUNet.up_group_3_2 p) (ThreeWayUNet.up_group_3_3 p)
    (ThreeWayUNet.up_group_3_4 p).

(** two parameter sets with the same encoder, the same group 1, ... *)
Definition same_encoder (p q : ThreeWayUNet.params R) : Prop :=
  ThreeWayUNet.inc p = ThreeWayUNet.inc q
  /\ ThreeWayUNet.down1 p = ThreeWayUNet.down1 q
  /\ ThreeWayUNet.down2 p = ThreeWayUNet.down2 q
  /\ ThreeWayUNet.down3 p = ThreeWayUNet.down3 q
  /\ ThreeWayUNet.down4 p = ThreeWayUNet.down4 q.
Definition same_group_1 (p q : ThreeWayUNet.params R) : Prop :=
  ThreeWayUNet.up_group_1_0 p = ThreeWayUNet.up_group_1_0 q
  /\ ThreeWayUNet.up_group_1_1 p = ThreeWayUNet.up_group_1_1 q
  /\ ThreeWayUNet.up_group_1_2 p = ThreeWayUNet.up_group_1_2 q
  /\ ThreeWayUNet.up_group_1_3 p = ThreeWayUNet.up_group_1_3 q
  /\ ThreeWayUNet.up_group_1_4 p = ThreeWayUNet.up_group_1_4 q.
Definition same_group_2 (p q : ThreeWayUNet.params R) : Prop :=
  ThreeWayUNet.up_group_2_0 p = ThreeWayUNet.up_group_2_0 q
  /\ ThreeWayUNet.up_group_2_1 p = ThreeWayUNet.up_group_2_1 q
  /\ ThreeWayUNet.up_group_2_2 p = ThreeWayUNet.up_group_2_2 q
  /\ ThreeWayUNet.up_group_2_3 p = ThreeWayUNet.up_group_2_3 q
  /\ ThreeWayUNet.up_group_2_4 p = ThreeWayUNet.up_group_2_4 q.
Definition same_group_3 (p q : ThreeWayUNet.params R) : Prop :=
  ThreeWayUNet.up_group_3_0 p = ThreeWayUNet.up_group_3_0 q
  /\ ThreeWayUNet.up_group_3_1 p = ThreeWayUNet.up_group_3_1 q
  /\ ThreeWayUNet.up_group_3_2 p = ThreeWayUNet.up_group_3_2 q
  /\ ThreeWayUNet.up_group_3_3 p = ThreeWayUNet.up_group_3_3 q
  /\ ThreeWayUNet.up_group_3_4 p = ThreeWayUNet.up_group_3_4 q.

Definition out1 (r : tensor R * tensor R * tensor R) : tensor R := fst (fst r).
Definition out2 (r : tensor R * tensor R * tensor R) : tensor R := snd (fst r).
Definition out3 (r : tensor R * tensor R * tensor R) : tensor R := snd r.

Definition shape3 (r : tensor R * tensor R * tensor R) : list nat * list nat * list nat :=
  (shape (out1 r), shape (out2 r), shape (out3 r)).
End ThreeWayGroups.

(** ** Concrete networks and inputs *)

Section ConstantParameters.
Context {R : Type}.
Variable v : R.

(** parameter sets whose every entry is [v] *)
Definition w4_const : weight4 R := fun _ _ _ _ => v.
Definition w2_const : weight2 R := fun _ _ => v.
Definition w1_const : weight1 R := fun _ => v.
Definition DoubleConv_const : DoubleConv.params R := DoubleConv.mk w4_const w4_const.
Definition Down_const : Down.params R := Down.mk DoubleConv_const.
Definition Up_const : Up.params R := Up.mk w4_const w1_const DoubleConv_const.
Definition OutConv_const : OutConv.params R := OutConv.mk w4_const w1_const.
Definition UNet_const : UNet.params R :=
  UNet.mk DoubleConv_const Down_const Down_const Down_const Down_const
    Up_const Up_const Up_const Up_const OutConv_const.
Definition RNet_const : RNet.params R :=
  RNet.mk w4_const w1_const w4_const w1_const w4_const w1_const w4_const w1_const.
Definition TNetBackBone_const : TNetBackBone.params R :=
  TNetBackBone.mk w4_const w1_const w4_const w1_const w4_const w1_const
    w4_const w1_const.
Definition TNet_const : TNet.params R := TNet.mk TNetBackBone_const TNetBackBone_const.
End ConstantParameters.

Section ConstantNetworks.
Context {R : Type}.

(** a ThreeWayUNet whose encoder is [e] everywhere and whose three decoder
    groups are [v1], [v2], [v3] everywhere *)
Definition ThreeWayUNet_const (e v1 v2 v3 : R) : ThreeWayUNet.params R :=
  ThreeWayUNet.mk (DoubleConv_const e) (Down_const e) (Down_const e)
    (Down_const e) (Down_const e)
    (Up_const v1) (Up_const v1) (Up_const v1) (Up_const v1) (OutConv_const v1)
    (Up_const v2) (Up_const v2) (Up_const v2) (Up_const v2) (OutConv_const v2)
    (Up_const v3) (Up_const v3) (Up_const v3) (Up_const v3) (OutConv_const v3).

Definition CNet_const (v : R) : CNet.params R :=
  CNet.mk (fc_layer.mk (w2_const v) (w1_const v)) (UNet_const v) (TNet_const v)
    (ThreeWayUNet_const v v v v) (RNet_const v) (RNet_const v).

Definition CrystalNet_const (v : R) : CrystalNet.params R :=
  CrystalNet.mk (CNet_const v).
End ConstantNetworks.

(** *** A TNet in binary32 that passes one channel through *)

(** a 3x3 kernel bank: output channel 0 is the centre of input channel [c_in] *)
Definition pass3 (c_in : nat) : weight4 f32 :=
  fun o c ky kx =>
    if (o =? 0) && (c =? c_in) && (ky =? 1) && (kx =? 1) then f32_of_Z 1 else zero.

(** a 1x1 kernel bank: output channel 0 is input channel 0 *)
Definition pass1 : weight4 f32 :=
  fun o c _ _ => if (o =? 0) && (c =? 0) then f32_of_Z 1 else zero.

(** [tnet_f] copies channel 8 of its input, the first glass channel behind
    the 8 channels of [rx], to its channel 0; [tnet_b] copies channel 0 *)
Definition tnet_f32 : TNet.params f32 :=
  TNet.mk
    (TNetBackBone.mk (pass3 8) (w1_const zero) (pass3 0) (w1_const zero)
       (pass3 0) (w1_const zero) pass1 (w1_const zero))
    (TNetBackBone.mk (pass3 0) (w1_const zero) (pass3 0) (w1_const zero)
       (pass3 0) (w1_const zero) pass1 (w1_const zero)).

(** three glass slices of one pixel whose first channels are 2^24, 1 and 1 *)
Definition glass_f32 : tensor f32 :=
  build [1; 3; 17; 1; 1] (fun ix =>
    match ix with
    | [_; i; 0; _; _] => nth i [f32_of_Z 16777216; f32_of_Z 1; f32_of_Z 1] zero
    | _ => zero
    end).

Definition rx_f32 : tensor f32 := zeros [1; 8; 1; 1].

(** one glass slice of one pixel whose first channel is a NaN *)
Definition glass_nan_f32 : tensor f32 :=
  build [1; 1; 17; 1; 1] (fun ix =>
    match ix with
    | [_; _; 0; _; _] => S754_nan
    | _ => zero
    end).

(** two glass slices of one pixel whose first channels are 2^24 and 1 *)
Definition glass2_f32 : tensor f32 :=
  build [1; 2; 17; 1; 1] (fun ix =>
    match ix with
    | [_; i; 0; _; _] => nth i [f32_of_Z 16777216; f32_of_Z 1] zero
    | _ => zero
    end).

(** *** Exact scalars *)

Definition Qc_one : Qc := ratio 1 1.
Definition Qc_half : Qc := ratio 1 2.
Definition Qc_minus_one : Qc := Q2Qc (-1 # 1).

(** an OutConv with one input and one output channel, weight 1 and bias 1 *)
Definition outconv_bias_one : OutConv.params Qc := OutConv_const Qc_one.

(** the 1x1 map holding [v] *)
Definition pixel (v : Qc) : tensor Qc := build [1; 1; 1; 1] (fun _ => v).

(** two glass slices of one pixel: the first is 0 everywhere, the second 1 *)
Definition glass_Qc : tensor Qc :=
  build [1; 2; 17; 1; 1] (fun ix =>
    match ix with
    | [_; 0; _; _; _] => zero
    | _ => Qc_one
    end).

(** ** A UNet inside ThreeWayUNet *)

Section UNetOfGroup.
Context {R : Type}.

(** the UNet made of the encoder of a ThreeWayUNet and of one of its groups *)
Definition UNet_of_group_1 (q : ThreeWayUNet.params R) : UNet.params R :=
  UNet.mk (ThreeWayUNet.inc q) (ThreeWayUNet.down1 q) (ThreeWayUNet.down2 q)
    (ThreeWayUNet.down3 q) (ThreeWayUNet.down4 q)
    (ThreeWayUNet.up_group_1_0 q) (ThreeWayUNet.up_group_1_1 q)
    (ThreeWayUNet.up_group_1_2 q) (ThreeWayUNet.up_group_1_3 q)
    (ThreeWayUNet.up_group_1_4 q).
Definition UNet_of_group_2 (q : ThreeWayUNet.params R) : UNet.params R :=
  UNet.mk (ThreeWayUNet.inc q) (ThreeWayUNet.down1 q) (ThreeWayUNet.down2 q)
    (ThreeWayUNet.down3 q) (ThreeWayUNet.down4 q)
    (ThreeWayUNet.up_group_2_0 q) (ThreeWayUNet.up_group_2_1 q)
    (ThreeWayUNet.up_group_2_2 q) (ThreeWayUNet.up_group_2_3 q)
    (ThreeWayUNet.up_group_2_4 q).
Definition UNet_of_group_3 (q : ThreeWayUNet.params R) : UNet.params R :=
  UNet.mk (ThreeWayUNet.inc q) (ThreeWayUNet.down1 q) (ThreeWayUNet.down2 q)
    (ThreeWayUNet.down3 q) (ThreeWayUNet.down4 q)
    (ThreeWayUNet.up_group_3_0 q) (ThreeWayUNet.up_group_3_1 q)
    (ThreeWayUNet.up_group_3_2 q) (ThreeWayUNet.up_group_3_3 q)
    (ThreeWayUNet.up_group_3_4 q).
End UNetOfGroup.

(** ** The input of the first UNet of CNet *)

Section Embedding.
Context {R : Type} {SR : Scalar R}.

(** lines 250-255 of [CNet.forward]: [x] with its positional embedding *)
Definition CNet_embed (p : CNet.params R) (x : tensor R) : option (tensor R) :=
  position <- slice_channels 4 7 x ;;
  position <- moveaxis_1_3 position ;;
  pe <- fc_layer.forward 3 16 (CNet.inner_pos p) position ;;
  pe <- moveaxis_3_1 pe ;;
  cat1 x pe.

(** lines 256-262 of [CNet.forward], from the embedded input on *)
Definition CNet_after_embed (n_oi : nat) (p : CNet.params R) (x g : tensor R)
    : option (tensor R * tensor R * tensor R) :=
  rx <- UNet.forward 37 8 true (CNet.unet p) x ;;
  tx <- TNet.forward (8 + 17) TNet.default_hidden (CNet.tnet p) g rx ;;
  rtx <- cat1 rx tx ;;
  '(normal, oi, uv) <- ThreeWayUNet.forward 24 n_oi true (CNet.r_unet p) rtx ;;
  uv <- RNet.forward 2 2 (CNet.rnet_uv p) uv ;;
  normal <- RNet.forward 3 3 (CNet.rnet_normal p) normal ;;
  Some (normal, oi, uv).
End Embedding.

(** ** Maps of zeros *)

Section AllZero.
Context {R : Type} {SR : Scalar R}.

(** every element of [t] is zero *)
Definition all_zero (t : tensor R) : Prop := Forall (fun v : R => v = zero) (data t).
End AllZero.

(** a 3x3 map that is zero except on its last row and last column *)
Definition border_map : tensor Qc :=
  build [1; 1; 3; 3] (fun ix =>
    match ix with
    | [_; _; 2; _] => Qc_one
    | [_; _; _; 2] => Qc_minus_one
    | _ => zero
    end).

(** ** One element of a batch *)

Section Rows.
Context {R : Type} {SR : Scalar R}.

(** [t] and [t'] are stored tensors of one shape whose batch elements [b],
    [t[b]] and [t'[b]], are equal *)
Definition same_row (b : nat) (t t' : tensor R) : Prop :=
  wf t /\ wf t' /\ shape t = shape t'
  /\ forall ix, Forall2 lt (b :: ix) (shape t) -> get t (b :: ix) = get t' (b :: ix).

Definition same_row3 (b : nat) (r r' : tensor R * tensor R * tensor R) : Prop :=
  same_row b (out1 r) (out1 r') /\ same_row b (out2 r) (out2 r')
  /\ same_row b (out3 r) (out3 r').

(** two runs that both raise, or both return, and then related results *)
Definition both (A : Type) (P : A -> A -> Prop) (m m' : option A) : Prop :=
  match m, m' with
  | Some a, Some a' => P a a'
  | None, None => True
  | _, _ => False
  end.
End Rows.

(** two batches of two inputs that differ in their second element only,
    and a batch of glass tensors with one slice each *)
Definition batch_x : tensor Qc := zeros [2; 21; 16; 16].
Definition batch_x' : tensor Qc :=
  build [2; 21; 16; 16] (fun ix =>
    match ix with
    | 0 :: _ => zero
    | _ => Qc_one
    end).
Definition batch_g : tensor Qc := zeros [2; 1; 17; 16; 16].

(** * Lemmas *)

(** ** Tabulated data *)

Section TabFacts.
Context {R : Type}.

Lemma flat_map_ext_in' (A : Type) (f g : A -> list R) (l : list A) :
  (forall a, In a l -> f a = g a) -> flat_map f l = flat_map g l.
Proof.
  induction l as [|a l IH]; intros E; simpl; [reflexivity|].
  rewrite (E a) by (left; reflexivity).
  rewrite IH; [reflexivity|].
  intros a' Ha'. apply E. right. exact Ha'.
Qed.

Lemma tab_length (s : list nat) (f : list nat -> R) :
  length (tab s f) = numel s.
Proof.
  revert f. induction s as [|n s IH]; intros f; simpl; [reflexivity|].
  rewrite (@flat_map_constant_length _ _ (numel s)).
  - now rewrite length_seq.
  - intros i _. apply IH.
Qed.

Lemma tab_ext (s : list nat) (f g : list nat -> R) :
  (forall ix, Forall2 lt ix s -> f ix = g ix) -> tab s f = tab s g.
Proof.
  revert f g. induction s as [|n s IH]; intros f g E; simpl.
  - rewrite (E []); [reflexivity | constructor].
  - apply flat_map_ext_in'. intros i Hi. apply in_seq in Hi.
    apply IH. intros ix Hix. apply E. constructor; [lia | exact Hix].
Qed.

Lemma offset_lt (s ix : list nat) :
  Forall2 lt ix s -> offset s ix < numel s.
Proof.
  intros F. induction F as [|i n ix s Hi F IH]; simpl; [lia|].
  assert (i * numel s + numel s <= n * numel s) by nia. lia.
Qed.

Lemma nth_flat_map_block (A : Type) (g : A -> list R) (n : nat) (l : list A)
    (i j : nat) (a0 : A) (d : R) :
  (forall a, length (g a) = n) -> i < length l -> j < n ->
  nth (i * n + j) (flat_map g l) d = nth j (g (nth i l a0)) d.
Proof.
  intros Hg. revert i. induction l as [|a l IH]; intros i Hi Hj; simpl in *; [lia|].
  destruct i as [|i].
  - simpl. rewrite app_nth1; [reflexivity | rewrite Hg; exact Hj].
  - rewrite app_nth2 by (rewrite Hg; simpl; lia).
    rewrite Hg. replace (S i * n + j - n) with (i * n + j) by (simpl; lia).
    apply IH; lia.
Qed.

Lemma nth_tab (s ix : list nat) (f : list nat -> R) (d : R) :
  Forall2 lt ix s -> nth (offset s ix) (tab s f) d = f ix.
Proof.
  intros F. revert f.
  induction F as [|i n ix s Hi F IH]; intros f; simpl; [reflexivity|].
  rewrite (@nth_flat_map_block _ _ (numel s) _ _ _ 0).
  - rewrite seq_nth by exact Hi. simpl. apply IH.
  - intros a. apply tab_length.
  - rewrite length_seq. exact Hi.
  - apply offset_lt. exact F.
Qed.
End TabFacts.

Section TensorFacts.
Context {R : Type} {SR : Scalar R}.

Lemma wf_build (s : list nat) (f : list nat -> R) : wf (build s f).
Proof. unfold wf, build; simpl. apply tab_length. Qed.

Lemma get_build (s ix : list nat) (f : list nat -> R) :
  Forall2 lt ix s -> get (build s f) ix = f ix.
Proof. intros F. unfold get, build; simpl. now apply nth_tab. Qed.

Lemma build_ext (s : list nat) (f g : list nat -> R) :
  (forall ix, Forall2 lt ix s -> f ix = g ix) -> build s f = build s g.
Proof. intros E. unfold build. f_equal. now apply tab_ext. Qed.

Lemma shape_eqb_eq (s1 s2 : list nat) : shape_eqb s1 s2 = true <-> s1 = s2.
Proof.
  unfold shape_eqb. destruct (list_eq_dec Nat.eq_dec s1 s2); split; congruence.
Qed.

Lemma shape_eqb_refl (s : list nat) : shape_eqb s s = true.
Proof. now apply shape_eqb_eq. Qed.
End TensorFacts.

(** ** Shapes of the operations

    Whether an operation raises, and the shape of its result, depend on the
    shapes of its arguments alone. *)

Lemma bind_sim (A B SA SB : Type) (pa : A -> SA) (pb : B -> SB)
    (m : option A) (ms : option SA) (k : A -> option B) (ks : SA -> option SB) :
  option_map pa m = ms ->
  (forall a, m = Some a -> option_map pb (k a) = ks (pa a)) ->
  option_map pb (bind m k) = bind ms ks.
Proof.
  intros Hm Hk. subst ms. destruct m as [a|]; simpl; [|reflexivity].
  now apply Hk.
Qed.

Lemma bind_assoc (A B C : Type) (m : option A) (f : A -> option B)
    (g : B -> option C) :
  bind (bind m f) g = bind m (fun a => bind (f a) g).
Proof. destruct m; reflexivity. Qed.

Ltac destruct_shape4 s :=
  destruct s as [|?B [|?C [|?H [|?W [|? ?]]]]]; simpl; try reflexivity.

Section OpShapes.
Context {R : Type} {SR : Scalar R}.
Implicit Types x a b t g : tensor R.

Lemma shape_tmap (f : R -> R) x : shape (tmap f x) = shape x.
Proof. reflexivity. Qed.

Lemma shape_zeros (s : list nat) : shape (zeros (R:=R) s) = s.
Proof. reflexivity. Qed.

Lemma conv2d_sim i o k p w bs x :
  option_map (@shape R) (conv2d i o k p w bs x) = conv2d_shape i o k p (shape x).
Proof.
  unfold conv2d. destruct x as [s d]; simpl. destruct_shape4 s.
  destruct (_ && _); reflexivity.
Qed.

Lemma conv_transpose2d_sim i o w bs x :
  option_map (@shape R) (conv_transpose2d i o w bs x)
  = conv_transpose2d_shape i o (shape x).
Proof.
  unfold conv_transpose2d.
  destruct (conv_transpose2d_shape i o (shape x)); reflexivity.
Qed.

Lemma max_pool2d_sim x :
  option_map (@shape R) (max_pool2d x) = max_pool2d_shape (shape x).
Proof. unfold max_pool2d. destruct (max_pool2d_shape (shape x)); reflexivity. Qed.

Lemma upsample_bilinear_sim x :
  option_map (@shape R) (upsample_bilinear x) = upsample_shape (shape x).
Proof.
  unfold upsample_bilinear. destruct x as [s d]; simpl. destruct_shape4 s.
  destruct (_ && _); reflexivity.
Qed.

Lemma pad_sim l r tp bt x :
  option_map (@shape R) (pad l r tp bt x) = pad_shape l r tp bt (shape x).
Proof.
  unfold pad. destruct x as [s d]; simpl. destruct_shape4 s.
  destruct (_ && _)%bool; reflexivity.
Qed.

Lemma cat1_sim a b :
  option_map (@shape R) (cat1 a b) = cat1_shape (shape a) (shape b).
Proof.
  unfold cat1. destruct a as [s d], b as [s' d']; simpl.
  destruct_shape4 s. destruct_shape4 s'.
  destruct (_ && _); reflexivity.
Qed.

Lemma slice_channels_sim lo hi x :
  option_map (@shape R) (slice_channels lo hi x)
  = slice_channels_shape lo hi (shape x).
Proof.
  unfold slice_channels. destruct (slice_channels_shape lo hi (shape x)); reflexivity.
Qed.

Lemma select1_sim g i :
  option_map (@shape R) (select1 g i) = select1_shape i (shape g).
Proof. unfold select1. destruct (select1_shape i (shape g)); reflexivity. Qed.

Lemma moveaxis_1_3_sim t :
  option_map (@shape R) (moveaxis_1_3 t) = moveaxis_1_3_shape (shape t).
Proof. unfold moveaxis_1_3. destruct (moveaxis_1_3_shape (shape t)); reflexivity. Qed.

Lemma moveaxis_3_1_sim t :
  option_map (@shape R) (moveaxis_3_1 t) = moveaxis_3_1_shape (shape t).
Proof. unfold moveaxis_3_1. destruct (moveaxis_3_1_shape (shape t)); reflexivity. Qed.

Lemma linear_sim i o w bs t :
  option_map (@shape R) (linear i o w bs t) = linear_shape i o (shape t).
Proof. unfold linear. destruct (linear_shape i o (shape t)); reflexivity. Qed.

(** *** Shapes of the modules *)

Lemma DoubleConv_sim i o m p x :
  option_map (@shape R) (DoubleConv.forward i o m p x)
  = DoubleConv.forward_shape i o m (shape x).
Proof.
  unfold DoubleConv.forward, DoubleConv.forward_shape.
  apply bind_sim with (pa := @shape R); [apply conv2d_sim | intros x1 _].
  rewrite <- (shape_tmap relu x1).
  rewrite <- conv2d_sim with (w := DoubleConv.conv2_weight p) (bs := None).
  destruct (conv2d _ _ _ _ _ _ _); reflexivity.
Qed.

Lemma Down_sim i o p x :
  option_map (@shape R) (Down.forward i o p x) = Down.forward_shape i o (shape x).
Proof.
  unfold Down.forward, Down.forward_shape.
  apply bind_sim with (pa := @shape R); [apply max_pool2d_sim | intros x1 _]. apply DoubleConv_sim.
Qed.

Lemma Up_up_sim i bil p x :
  option_map (@shape R) (Up.up i bil p x) = Up.up_shape i bil (shape x).
Proof.
  unfold Up.up, Up.up_shape. destruct bil;
    [apply upsample_bilinear_sim | apply conv_transpose2d_sim].
Qed.

Lemma Up_pad_to_sim x1 x2 :
  option_map (@shape R) (Up.pad_to x1 x2) = Up.pad_to_shape (shape x1) (shape x2).
Proof.
  unfold Up.pad_to, Up.pad_to_shape, dim.
  destruct (nth_error (shape x2) 2); cbn [bind]; [|reflexivity].
  destruct (nth_error (shape x1) 2); cbn [bind]; [|reflexivity].
  destruct (nth_error (shape x2) 3); cbn [bind]; [|reflexivity].
  destruct (nth_error (shape x1) 3); cbn [bind]; [|reflexivity].
  apply pad_sim.
Qed.

Lemma Up_sim i o bil p x1 x2 :
  option_map (@shape R) (Up.forward i o bil p x1 x2)
  = Up.forward_shape i o bil (shape x1) (shape x2).
Proof.
  unfold Up.forward, Up.forward_shape.
  apply bind_sim with (pa := @shape R); [apply Up_up_sim | intros x1' _].
  apply bind_sim with (pa := @shape R); [apply Up_pad_to_sim | intros x1'' _].
  apply bind_sim with (pa := @shape R); [apply cat1_sim | intros x _].
  apply DoubleConv_sim.
Qed.

Lemma OutConv_sim i o p x :
  option_map (@shape R) (OutConv.forward i o p x)
  = OutConv.forward_shape i o (shape x).
Proof. apply conv2d_sim. Qed.

Lemma UNet_sim nc ncl bil p x :
  option_map (@shape R) (UNet.forward nc ncl bil p x)
  = UNet.forward_shape nc ncl bil (shape x).
Proof.
  unfold UNet.forward, UNet.forward_shape.
  apply bind_sim with (pa := @shape R); [apply DoubleConv_sim | intros x1 _].
  do 4 (apply bind_sim with (pa := @shape R); [apply Down_sim | intros ? _]).
  do 4 (apply bind_sim with (pa := @shape R); [apply Up_sim | intros ? _]).
  apply OutConv_sim.
Qed.

Lemma RNet_sim i o p x :
  option_map (@shape R) (RNet.forward i o p x) = RNet.forward_shape i o (shape x).
Proof.
  unfold RNet.forward, RNet.forward_shape.
  do 3 (apply bind_sim with (pa := @shape R); [apply conv2d_sim | intros ? _;
                         rewrite <- (shape_tmap leaky_relu)]).
  rewrite <- conv2d_sim
    with (w := RNet.layer3_weight p) (bs := Some (RNet.layer3_bias p)).
  destruct (conv2d _ _ _ _ _ _ _); reflexivity.
Qed.

Lemma TNetBackBone_sim i o p x :
  option_map (@shape R) (TNetBackBone.forward i o p x)
  = TNetBackBone.forward_shape i o (shape x).
Proof.
  unfold TNetBackBone.forward, TNetBackBone.forward_shape.
  do 3 (apply bind_sim with (pa := @shape R); [apply conv2d_sim | intros ? _;
                         rewrite <- (shape_tmap relu)]).
  rewrite <- conv2d_sim
    with (w := TNetBackBone.layer4_weight p)
         (bs := Some (TNetBackBone.layer4_bias p)).
  destruct (conv2d _ _ _ _ _ _ _); reflexivity.
Qed.

Lemma fc_layer_sim i o p t :
  option_map (@shape R) (fc_layer.forward i o p t) = linear_shape i o (shape t).
Proof.
  unfold fc_layer.forward. rewrite <- linear_sim
    with (w := fc_layer.weight p) (bs := fc_layer.bias p).
  destruct (linear _ _ _ _ _); reflexivity.
Qed.
End OpShapes.

(** ** ThreeWayUNet: the encoder and the three ladders *)

Section ThreeWay.
Context {R : Type} {SR : Scalar R}.

Lemma forward_groups n_channels n_classes bilinear p x :
  ThreeWayUNet.forward n_channels n_classes bilinear p x
  = (m <- encoder n_channels bilinear p x ;;
     o1 <- group_1 bilinear p m ;;
     o2 <- group_2 n_classes bilinear p m ;;
     o3 <- group_3 bilinear p m ;;
     Some (o1, o2, o3)).
Proof.
  unfold ThreeWayUNet.forward, encoder.
  destruct (DoubleConv.forward _ _ _ _ _) as [x1|]; [cbn [bind]|reflexivity].
  destruct (Down.forward 32 _ _ _) as [x2|]; [cbn [bind]|reflexivity].
  destruct (Down.forward 64 _ _ _) as [x3|]; [cbn [bind]|reflexivity].
  destruct (Down.forward 128 _ _ _) as [x4|]; [cbn [bind]|reflexivity].
  destruct (Down.forward 256 _ _ _) as [x5|]; [cbn [bind]|reflexivity].
  unfold group_1, group_2, group_3, decoder_group.
  repeat match goal with
  | |- context [Up.forward ?a ?b ?c ?d ?e ?f] =>
      destruct (Up.forward a b c d e f); cbn [bind]; [|reflexivity]
  | |- context [OutConv.forward ?a ?b ?c ?d] =>
      destruct (OutConv.forward a b c d); cbn [bind]; [|reflexivity]
  end.
  reflexivity.
Qed.

Lemma decoder_group_sim classes bilinear u0 u1 u2 u3 oc x1 x2 x3 x4 x5 :
  option_map (@shape R) (decoder_group classes bilinear u0 u1 u2 u3 oc (x1, x2, x3, x4, x5))
  = ThreeWayUNet.group_shape classes bilinear
      (shape x1) (shape x2) (shape x3) (shape x4) (shape x5).
Proof.
  unfold decoder_group, ThreeWayUNet.group_shape.
  do 4 (apply bind_sim with (pa := @shape R); [apply Up_sim | intros ? _]).
  apply OutConv_sim.
Qed.

(** whether a ladder raises does not depend on its parameters *)
Lemma decoder_group_defined classes bilinear u0 u1 u2 u3 oc u0' u1' u2' u3' oc' m :
  decoder_group classes bilinear u0 u1 u2 u3 oc m = None <->
  decoder_group classes bilinear u0' u1' u2' u3' oc' m = None.
Proof.
  destruct m as [[[[x1 x2] x3] x4] x5].
  pose proof (decoder_group_sim classes bilinear u0 u1 u2 u3 oc x1 x2 x3 x4 x5) as E1.
  pose proof (decoder_group_sim classes bilinear u0' u1' u2' u3' oc' x1 x2 x3 x4 x5) as E2.
  rewrite <- E2 in E1.
  destruct (decoder_group classes bilinear u0 u1 u2 u3 oc _),
           (decoder_group classes bilinear u0' u1' u2' u3' oc' _);
    simpl in E1; split; intros; congruence.
Qed.

Lemma encoder_same n_channels bilinear p q x :
  same_encoder p q -> encoder n_channels bilinear p x = encoder n_channels bilinear q x.
Proof.
  intros (E0 & E1 & E2 & E3 & E4). unfold encoder.
  now rewrite E0, E1, E2, E3, E4.
Qed.

Lemma ThreeWayUNet_sim n_channels n_classes bilinear p x :
  option_map shape3 (ThreeWayUNet.forward n_channels n_classes bilinear p x)
  = ThreeWayUNet.forward_shape n_channels n_classes bilinear (shape x).
Proof.
  rewrite forward_groups. unfold encoder, ThreeWayUNet.forward_shape.
  rewrite bind_assoc.
  apply bind_sim with (pa := @shape R); [apply DoubleConv_sim | intros x1 _].
  rewrite bind_assoc.
  apply bind_sim with (pa := @shape R); [apply Down_sim | intros x2 _].
  rewrite bind_assoc.
  apply bind_sim with (pa := @shape R); [apply Down_sim | intros x3 _].
  rewrite bind_assoc.
  apply bind_sim with (pa := @shape R); [apply Down_sim | intros x4 _].
  rewrite bind_assoc.
  apply bind_sim with (pa := @shape R); [apply Down_sim | intros x5 _].
  cbn [bind].
  apply bind_sim with (pa := @shape R); [apply decoder_group_sim | intros o1 _].
  apply bind_sim with (pa := @shape R); [apply decoder_group_sim | intros o2 _].
  apply bind_sim with (pa := @shape R); [apply decoder_group_sim | intros o3 _].
  reflexivity.
Qed.
End ThreeWay.

(** ** Shapes of TNet and CNet *)

Section NetShapes.
Context {R : Type} {SR : Scalar R}.
Implicit Types x g rx : tensor R.

Lemma tensor_add_sim (a b : tensor R) :
  option_map (@shape R) (tensor_add a b)
  = if shape_eqb (shape a) (shape b) then Some (shape a) else None.
Proof. unfold tensor_add. destruct (shape_eqb _ _); reflexivity. Qed.

Lemma TNet_term_sim i h p g rx k :
  option_map (@shape R) (TNet.term i h p g rx k)
  = TNet.term_shape i h (shape g) (shape rx) k.
Proof.
  unfold TNet.term, TNet.term_shape.
  apply bind_sim with (pa := @shape R); [apply select1_sim | intros gi _].
  apply bind_sim with (pa := @shape R); [apply cat1_sim | intros c _].
  apply TNetBackBone_sim.
Qed.

Lemma TNet_step_sim i h p g rx acc k :
  option_map (@shape R) (TNet.step i h p g rx acc k)
  = TNet.step_shape i h (shape g) (shape rx) (option_map (@shape R) acc) k.
Proof.
  unfold TNet.step, TNet.step_shape.
  destruct acc as [a|]; [cbn [bind option_map]|reflexivity].
  apply bind_sim with (pa := @shape R); [apply TNet_term_sim | intros t _].
  apply tensor_add_sim.
Qed.

Lemma TNet_loop_sim i h p g rx l acc :
  option_map (@shape R) (fold_left (TNet.step i h p g rx) l acc)
  = fold_left (TNet.step_shape i h (shape g) (shape rx)) l (option_map (@shape R) acc).
Proof.
  revert acc. induction l as [|k l IH]; intros acc; [reflexivity|].
  cbn [fold_left]. rewrite IH. now rewrite TNet_step_sim.
Qed.

Lemma TNet_sim i h p g rx :
  option_map (@shape R) (TNet.forward i h p g rx)
  = TNet.forward_shape i h (shape g) (shape rx).
Proof.
  unfold TNet.forward, TNet.forward_shape, dim, dim_neg.
  destruct (nth_error (shape g) 1) as [n|]; [cbn [bind]|reflexivity].
  destruct (nth_error (shape g) 0) as [b|]; [cbn [bind]|reflexivity].
  change (2 - 1) with 1. change (1 - 1) with 0.
  destruct (nth_error (rev (shape g)) 1) as [hh|]; [cbn [bind]|reflexivity].
  destruct (nth_error (rev (shape g)) 0) as [ww|]; [cbn [bind]|reflexivity].
  apply bind_sim with (pa := @shape R); [apply TNet_loop_sim | intros r _].
  apply TNetBackBone_sim.
Qed.

Lemma CNet_heads_sim n_oi p x g :
  option_map shape3 (CNet.heads n_oi p x g)
  = CNet.heads_shape n_oi (shape x) (shape g).
Proof.
  unfold CNet.heads, CNet.heads_shape.
  apply bind_sim with (pa := @shape R); [apply slice_channels_sim | intros ? _].
  apply bind_sim with (pa := @shape R); [apply moveaxis_1_3_sim | intros ? _].
  apply bind_sim with (pa := @shape R); [apply fc_layer_sim | intros ? _].
  apply bind_sim with (pa := @shape R); [apply moveaxis_3_1_sim | intros ? _].
  apply bind_sim with (pa := @shape R); [apply cat1_sim | intros ? _].
  apply bind_sim with (pa := @shape R); [apply UNet_sim | intros rx _].
  apply bind_sim with (pa := @shape R); [apply TNet_sim | intros ? _].
  apply bind_sim with (pa := @shape R); [apply cat1_sim | intros ? _].
  apply ThreeWayUNet_sim.
Qed.

(** [CNet.forward] is its heads followed by the two refinements *)
Lemma CNet_forward_heads n_oi p x g :
  CNet.forward n_oi p x g
  = ('(normal, oi, uv) <- CNet.heads n_oi p x g ;;
     uv <- RNet.forward 2 2 (CNet.rnet_uv p) uv ;;
     normal <- RNet.forward 3 3 (CNet.rnet_normal p) normal ;;
     Some (normal, oi, uv)).
Proof.
  unfold CNet.forward, CNet.heads.
  repeat match goal with
  | |- bind ?m _ = bind (bind ?m _) _ => destruct m; cbn [bind]; [|reflexivity]
  end.
  reflexivity.
Qed.

Lemma CNet_sim n_oi p x g :
  option_map shape3 (CNet.forward n_oi p x g)
  = CNet.forward_shape n_oi (shape x) (shape g).
Proof.
  rewrite CNet_forward_heads. unfold CNet.forward_shape.
  apply bind_sim with (pa := shape3); [apply CNet_heads_sim | intros [[n o] u] _].
  cbn [shape3 out1 out2 out3 fst snd].
  apply bind_sim with (pa := @shape R); [apply RNet_sim | intros u' _].
  apply bind_sim with (pa := @shape R); [apply RNet_sim | intros n' _].
  reflexivity.
Qed.
End NetShapes.

(** ** Shape arithmetic of the reference configuration *)

Lemma half_bounds (a : nat) : 2 * (a / 2) <= a /\ a < 2 * (a / 2) + 2.
Proof.
  pose proof (Nat.div_mod_eq a 2). pose proof (Nat.mod_upper_bound a 2). lia.
Qed.

Ltac halves :=
  repeat match goal with
  | |- context [?a / 2] =>
      lazymatch goal with
      | _ : 2 * (a / 2) <= a /\ _ |- _ => fail
      | _ => pose proof (half_bounds a)
      end
  | _ : context [?a / 2] |- _ =>
      lazymatch goal with
      | _ : 2 * (a / 2) <= a /\ _ |- _ => fail
      | _ => pose proof (half_bounds a)
      end
  end.

Ltac halves4 a :=
  pose proof (half_bounds a); pose proof (half_bounds (a / 2));
  pose proof (half_bounds (a / 2 / 2)); pose proof (half_bounds (a / 2 / 2 / 2)).

Lemma leb_true (a b : nat) : a <= b -> (a <=? b) = true.
Proof. apply Nat.leb_le. Qed.

(** a layer needs a positive number of channels on both sides *)
Lemma conv2d_shape_ok (i o k p b h w : nat) :
  1 <= i -> 1 <= o -> k = 2 * p + 1 -> 1 <= h -> 1 <= w ->
  conv2d_shape i o k p [b; i; h; w] = Some [b; o; h; w].
Proof.
  intros Hi Ho -> Hh Hw. unfold conv2d_shape.
  rewrite Nat.eqb_refl, !leb_true by lia. cbn [andb].
  repeat f_equal; lia.
Qed.

Lemma mid_of_pos (o : nat) (m : option nat) : 1 <= o -> 1 <= DoubleConv.mid_of o m.
Proof. intros Ho. destruct m as [[|m]|]; cbn [DoubleConv.mid_of]; lia. Qed.

Lemma DoubleConv_shape_ok (i o : nat) (m : option nat) (b h w : nat) :
  1 <= i -> 1 <= o -> 1 <= h -> 1 <= w ->
  DoubleConv.forward_shape i o m [b; i; h; w] = Some [b; o; h; w].
Proof.
  intros Hi Ho Hh Hw. unfold DoubleConv.forward_shape.
  pose proof (mid_of_pos m Ho) as Hm.
  rewrite conv2d_shape_ok by (reflexivity || assumption). cbn [bind].
  apply conv2d_shape_ok; (reflexivity || assumption).
Qed.

Lemma Down_shape_ok (i o b h w : nat) :
  1 <= i -> 1 <= o -> 2 <= h -> 2 <= w ->
  Down.forward_shape i o [b; i; h; w] = Some [b; o; h / 2; w / 2].
Proof.
  intros Hi Ho Hh Hw. unfold Down.forward_shape, max_pool2d_shape. halves.
  rewrite !leb_true by lia. cbn [andb bind].
  apply DoubleConv_shape_ok; lia.
Qed.

Lemma cat1_shape_ok (b c1 c2 h w : nat) :
  cat1_shape [b; c1; h; w] [b; c2; h; w] = Some [b; c1 + c2; h; w].
Proof. unfold cat1_shape. now rewrite !Nat.eqb_refl. Qed.

Lemma pad_to_shape_ok (b c h1 w1 s0 s1 h2 w2 : nat) :
  h1 <= h2 -> w1 <= w2 ->
  Up.pad_to_shape [b; c; h1; w1] [s0; s1; h2; w2] = Some [b; c; h2; w2].
Proof.
  intros Hh Hw. unfold Up.pad_to_shape, Up.pad_split, pad_shape.
  cbn [nth_error bind fst snd].
  set (dY := (Z.of_nat h2 - Z.of_nat h1)%Z).
  set (dX := (Z.of_nat w2 - Z.of_nat w1)%Z).
  replace (Z.of_nat h1 + dY / 2 + (dY - dY / 2))%Z with (Z.of_nat h2) by (subst dY; lia).
  replace (Z.of_nat w1 + dX / 2 + (dX - dX / 2))%Z with (Z.of_nat w2) by (subst dX; lia).
  replace (0 <=? Z.of_nat h2)%Z with true by (symmetry; apply Z.leb_le; lia).
  replace (0 <=? Z.of_nat w2)%Z with true by (symmetry; apply Z.leb_le; lia).
  cbn [andb]. now rewrite !Nat2Z.id.
Qed.

(** an Up block in bilinear mode *)
Lemma Up_shape_ok (i o b c1 h1 w1 c2 h2 w2 : nat) :
  c2 + c1 = i -> 1 <= c1 -> 1 <= o ->
  1 <= h1 -> 1 <= w1 -> 2 * h1 <= h2 -> 2 * w1 <= w2 ->
  Up.forward_shape i o true [b; c1; h1; w1] [b; c2; h2; w2] = Some [b; o; h2; w2].
Proof.
  intros Hc Hc1 Ho Hh1 Hw1 Hh Hw.
  unfold Up.forward_shape, Up.up_shape, upsample_shape.
  rewrite !leb_true by lia. cbn [andb bind].
  rewrite pad_to_shape_ok by lia. cbn [bind].
  rewrite cat1_shape_ok. cbn [bind]. rewrite Hc.
  apply DoubleConv_shape_ok; lia.
Qed.

Lemma UNet_shape_ok (n_channels n_classes b h w : nat) :
  1 <= n_channels -> 1 <= n_classes -> 16 <= h -> 16 <= w ->
  UNet.forward_shape n_channels n_classes true [b; n_channels; h; w]
  = Some [b; n_classes; h; w].
Proof.
  intros Hnc Hncl Hh Hw. unfold UNet.forward_shape.
  change (512 / factor true) with 256. change (256 / factor true) with 128.
  change (128 / factor true) with 64. change (64 / factor true) with 32.
  halves4 h. halves4 w.
  rewrite DoubleConv_shape_ok by lia. cbn [bind].
  rewrite Down_shape_ok by lia. cbn [bind].
  rewrite Down_shape_ok by lia. cbn [bind].
  rewrite Down_shape_ok by lia. cbn [bind].
  rewrite Down_shape_ok by lia. cbn [bind].
  rewrite Up_shape_ok by lia. cbn [bind].
  rewrite Up_shape_ok by lia. cbn [bind].
  rewrite Up_shape_ok by lia. cbn [bind].
  rewrite Up_shape_ok by lia. cbn [bind].
  apply conv2d_shape_ok; (reflexivity || lia).
Qed.

Lemma group_shape_ok (classes b h w : nat) :
  1 <= classes -> 16 <= h -> 16 <= w ->
  ThreeWayUNet.group_shape classes true [b; 32; h; w] [b; 64; h / 2; w / 2]
    [b; 128; h / 2 / 2; w / 2 / 2] [b; 256; h / 2 / 2 / 2; w / 2 / 2 / 2]
    [b; 256; h / 2 / 2 / 2 / 2; w / 2 / 2 / 2 / 2]
  = Some [b; classes; h; w].
Proof.
  intros Hcl Hh Hw. unfold ThreeWayUNet.group_shape.
  change (256 / factor true) with 128.
  change (128 / factor true) with 64. change (64 / factor true) with 32.
  halves4 h. halves4 w.
  rewrite Up_shape_ok by lia. cbn [bind].
  rewrite Up_shape_ok by lia. cbn [bind].
  rewrite Up_shape_ok by lia. cbn [bind].
  rewrite Up_shape_ok by lia. cbn [bind].
  apply conv2d_shape_ok; (reflexivity || lia).
Qed.

Lemma ThreeWayUNet_shape_ok (n_channels n_classes b h w : nat) :
  1 <= n_channels -> 1 <= n_classes -> 16 <= h -> 16 <= w ->
  ThreeWayUNet.forward_shape n_channels n_classes true [b; n_channels; h; w]
  = Some ([b; 3; h; w], [b; n_classes; h; w], [b; 2; h; w]).
Proof.
  intros Hnc Hncl Hh Hw. unfold ThreeWayUNet.forward_shape.
  change (512 / factor true) with 256.
  halves4 h. halves4 w.
  rewrite DoubleConv_shape_ok by lia. cbn [bind].
  rewrite Down_shape_ok by lia. cbn [bind].
  rewrite Down_shape_ok by lia. cbn [bind].
  rewrite Down_shape_ok by lia. cbn [bind].
  rewrite Down_shape_ok by lia. cbn [bind].
  rewrite !group_shape_ok by lia. reflexivity.
Qed.

Lemma RNet_shape_ok (i o b h w : nat) :
  1 <= i -> 1 <= o -> 1 <= h -> 1 <= w ->
  RNet.forward_shape i o [b; i; h; w] = Some [b; o; h; w].
Proof.
  intros Hi Ho Hh Hw. unfold RNet.forward_shape.
  rewrite conv2d_shape_ok by lia. cbn [bind].
  rewrite conv2d_shape_ok by lia. cbn [bind].
  rewrite conv2d_shape_ok by lia. cbn [bind].
  apply conv2d_shape_ok; lia.
Qed.

Lemma TNetBackBone_shape_ok (i o b h w : nat) :
  1 <= i -> 1 <= o -> 1 <= h -> 1 <= w ->
  TNetBackBone.forward_shape i o [b; i; h; w] = Some [b; o; h; w].
Proof.
  intros Hi Ho Hh Hw. unfold TNetBackBone.forward_shape.
  rewrite conv2d_shape_ok by lia. cbn [bind].
  rewrite conv2d_shape_ok by lia. cbn [bind].
  rewrite conv2d_shape_ok by lia. cbn [bind].
  apply conv2d_shape_ok; lia.
Qed.

Lemma TNet_term_shape_ok (hidden b G cg crx h w i : nat) :
  1 <= crx + cg -> 1 <= hidden -> 1 <= h -> 1 <= w -> i < G ->
  TNet.term_shape (crx + cg) hidden [b; G; cg; h; w] [b; crx; h; w] i
  = Some [b; hidden; h; w].
Proof.
  intros Hc Hhid Hh Hw Hi. unfold TNet.term_shape, select1_shape.
  replace (i <? G) with true by (symmetry; apply Nat.ltb_lt; exact Hi).
  cbn [bind]. rewrite cat1_shape_ok. cbn [bind].
  now apply TNetBackBone_shape_ok.
Qed.

Lemma TNet_loop_shape_ok (hidden b G cg crx h w : nat) (l : list nat) :
  1 <= crx + cg -> 1 <= hidden -> 1 <= h -> 1 <= w -> Forall (fun i => i < G) l ->
  fold_left (TNet.step_shape (crx + cg) hidden [b; G; cg; h; w] [b; crx; h; w]) l
    (Some [b; hidden; h; w])
  = Some [b; hidden; h; w].
Proof.
  intros Hc Hhid Hh Hw F. induction F as [|i l Hi F IH]; [reflexivity|].
  cbn [fold_left]. unfold TNet.step_shape at 2. cbn [bind].
  rewrite TNet_term_shape_ok by assumption. cbn [bind].
  rewrite shape_eqb_refl. exact IH.
Qed.

Lemma seq_below (G : nat) : Forall (fun i => i < G) (seq 0 G).
Proof. apply Forall_forall. intros i Hi. apply in_seq in Hi. lia. Qed.

Lemma TNet_shape_ok (hidden b G cg crx h w : nat) :
  1 <= crx + cg -> 1 <= hidden -> 1 <= h -> 1 <= w ->
  TNet.forward_shape (crx + cg) hidden [b; G; cg; h; w] [b; crx; h; w]
  = Some [b; 16; h; w].
Proof.
  intros Hc Hhid Hh Hw. unfold TNet.forward_shape. cbn [nth_error rev app bind].
  rewrite TNet_loop_shape_ok by (assumption || apply seq_below). cbn [bind].
  apply TNetBackBone_shape_ok; lia.
Qed.

(** with an empty glass axis neither [rx] nor the glass channels are read *)
Lemma TNet_shape_empty (in_channel hidden b cg h w : nat) (srx : list nat) :
  1 <= hidden -> 1 <= h -> 1 <= w ->
  TNet.forward_shape in_channel hidden [b; 0; cg; h; w] srx = Some [b; 16; h; w].
Proof.
  intros Hhid Hh Hw. unfold TNet.forward_shape.
  cbn [nth_error rev app bind seq fold_left].
  apply TNetBackBone_shape_ok; lia.
Qed.

Lemma CNet_heads_shape_ok (n_oi B G Cg H W : nat) :
  1 <= n_oi -> 16 <= H -> 16 <= W -> G = 0 \/ Cg = 17 ->
  CNet.heads_shape n_oi [B; 21; H; W] [B; G; Cg; H; W]
  = Some ([B; 3; H; W], [B; n_oi; H; W], [B; 2; H; W]).
Proof.
  intros Hn HH HW HG. unfold CNet.heads_shape.
  unfold slice_channels_shape, moveaxis_1_3_shape, linear_shape, moveaxis_3_1_shape.
  change (Nat.min 7 21 - 4) with 3. cbn [bind Nat.eqb].
  rewrite cat1_shape_ok. cbn [bind]. change (21 + 16) with 37.
  rewrite UNet_shape_ok by lia. cbn [bind].
  replace (TNet.forward_shape (8 + 17) TNet.default_hidden [B; G; Cg; H; W] [B; 8; H; W])
    with (Some [B; 16; H; W]).
  2:{ destruct HG as [-> | ->]; symmetry;
      [apply TNet_shape_empty | apply TNet_shape_ok];
      unfold TNet.default_hidden; lia. }
  cbn [bind]. rewrite cat1_shape_ok. cbn [bind]. change (8 + 16) with 24.
  apply ThreeWayUNet_shape_ok; lia.
Qed.

Lemma CNet_shape_ok (n_oi B G Cg H W : nat) :
  1 <= n_oi -> 16 <= H -> 16 <= W -> G = 0 \/ Cg = 17 ->
  CNet.forward_shape n_oi [B; 21; H; W] [B; G; Cg; H; W]
  = Some ([B; 3; H; W], [B; n_oi; H; W], [B; 2; H; W]).
Proof.
  intros Hn HH HW HG. unfold CNet.forward_shape.
  rewrite CNet_heads_shape_ok by assumption. cbn [bind].
  rewrite RNet_shape_ok by lia. cbn [bind].
  rewrite RNet_shape_ok by lia. reflexivity.
Qed.

(** ** The terms of the glass sum have the shape of the accumulator *)

Lemma conv2d_shape_inv (i o k p : nat) (s s' : list nat) :
  conv2d_shape i o k p s = Some s' ->
  exists B H W,
    s = [B; i; H; W] /\ k <= H + 2 * p /\ k <= W + 2 * p
    /\ s' = [B; o; H + 2 * p - k + 1; W + 2 * p - k + 1].
Proof.
  unfold conv2d_shape. destruct s as [|B [|C [|H [|W [|? ?]]]]]; try discriminate.
  destruct (_ && _) eqn:E; [|discriminate].
  intros Es. injection Es as <-.
  apply andb_prop in E as [E EW]. apply andb_prop in E as [E EH].
  apply andb_prop in E as [_ EC].
  apply Nat.eqb_eq in EC. apply Nat.leb_le in EH, EW. subst C.
  exists B, H, W. auto.
Qed.

Lemma conv2d_shape_pos (i o k p : nat) (s s' : list nat) :
  conv2d_shape i o k p s = Some s' -> 1 <= i /\ 1 <= o.
Proof.
  unfold conv2d_shape. destruct s as [|B [|C [|H [|W [|? ?]]]]]; try discriminate.
  destruct (_ && _) eqn:E; [|discriminate]. intros _.
  apply andb_prop in E as [E _]. apply andb_prop in E as [E _].
  apply andb_prop in E as [E _]. apply andb_prop in E as [Ei Eo].
  apply Nat.leb_le in Ei, Eo. auto.
Qed.

Lemma TNetBackBone_shape_inv (i o : nat) (s s' : list nat) :
  TNetBackBone.forward_shape i o s = Some s' ->
  exists B H W, s = [B; i; H; W] /\ s' = [B; o; H; W].
Proof.
  unfold TNetBackBone.forward_shape. intros E.
  destruct (conv2d_shape i 64 3 1 s) as [s1|] eqn:E1; [cbn [bind] in E|discriminate].
  destruct (conv2d_shape 64 128 3 1 s1) as [s2|] eqn:E2; [cbn [bind] in E|discriminate].
  destruct (conv2d_shape 128 64 3 1 s2) as [s3|] eqn:E3; [cbn [bind] in E|discriminate].
  apply conv2d_shape_inv in E1 as (B & H & W & -> & HH & HW & ->).
  apply conv2d_shape_inv in E2 as (B2 & H2 & W2 & Q2 & _ & _ & ->).
  apply conv2d_shape_inv in E3 as (B3 & H3 & W3 & Q3 & _ & _ & ->).
  apply conv2d_shape_inv in E as (B4 & H4 & W4 & Q4 & _ & _ & ->).
  injection Q2 as <- <- <-. injection Q3 as <- <- <-. injection Q4 as <- <- <-.
  exists B, H, W. split; [reflexivity|]. repeat f_equal; lia.
Qed.

(** a TNetBackBone that returns was built with positive channel counts and
    was given a non-empty map *)
Lemma TNetBackBone_shape_inv1 (i o : nat) (s s' : list nat) :
  TNetBackBone.forward_shape i o s = Some s' ->
  exists B H W,
    s = [B; i; H; W] /\ 1 <= i /\ 1 <= o /\ 1 <= H /\ 1 <= W /\ s' = [B; o; H; W].
Proof.
  intros E. pose proof E as E0.
  apply TNetBackBone_shape_inv in E as (B & H & W & -> & ->).
  unfold TNetBackBone.forward_shape in E0.
  destruct (conv2d_shape i 64 3 1 [B; i; H; W]) as [s1|] eqn:E1;
    [cbn [bind] in E0|discriminate].
  destruct (conv2d_shape 64 128 3 1 s1) as [s2|]; [cbn [bind] in E0|discriminate].
  destruct (conv2d_shape 128 64 3 1 s2) as [s3|]; [cbn [bind] in E0|discriminate].
  apply conv2d_shape_pos in E0 as [_ Ho].
  pose proof (conv2d_shape_pos _ _ _ _ _ E1) as [Hi _].
  apply conv2d_shape_inv in E1 as (B1 & H1 & W1 & Q & HH & HW & _).
  injection Q as <- <- <-.
  exists B, H, W. repeat split; lia.
Qed.

Section TermShape.
Context {R : Type} {SR : Scalar R}.

(** Whenever a term of the loop of [TNet.forward] is computed, [g] has five
    axes and the term has the shape [r_shape] of the accumulator: the sum
    [result + term] adds two tensors of one shape. *)
Lemma TNet_terms_shape in_channel hidden p (g rx t : tensor R) (i : nat) :
  TNet.term in_channel hidden p g rx i = Some t ->
  exists B G C H W,
    shape g = [B; G; C; H; W] /\ shape t = [B; hidden; H; W].
Proof.
  intros E. pose proof (TNet_term_sim in_channel hidden p g rx i) as S.
  rewrite E in S. cbn [option_map] in S. symmetry in S.
  unfold TNet.term_shape, select1_shape in S.
  destruct (shape g) as [|B [|G [|C [|H [|W [|? ?]]]]]]; try discriminate.
  destruct (i <? G); [cbn [bind] in S|discriminate].
  unfold cat1_shape in S.
  destruct (shape rx) as [|B1 [|C1 [|H1 [|W1 [|? ?]]]]]; try discriminate.
  destruct ((B1 =? B) && (H1 =? H) && (W1 =? W)) eqn:Eq; [cbn [bind] in S|discriminate].
  apply andb_prop in Eq as [Eq EW]. apply andb_prop in Eq as [EB EH].
  apply Nat.eqb_eq in EB, EH, EW. subst B1 H1 W1.
  apply TNetBackBone_shape_inv in S as (B' & H' & W' & Q & ->).
  injection Q as <- _ <- <-.
  exists B, G, C, H, W. split; reflexivity.
Qed.
End TermShape.

(** ** The sum over the glass axis *)

Lemma map_nth_seq (A : Type) (l : list A) (d : A) :
  map (fun i => nth i l d) (seq 0 (length l)) = l.
Proof.
  induction l as [|a l IH]; [reflexivity|].
  cbn [length seq map nth]. f_equal.
  rewrite <- seq_shift, map_map. exact IH.
Qed.

Lemma fold_left_perm (A B : Type) (f : A -> B -> A) (l l' : list B) :
  (forall a i j, f (f a i) j = f (f a j) i) ->
  Permutation l l' -> forall a, fold_left f l a = fold_left f l' a.
Proof.
  intros C P. induction P as [|i l l' P IH|i j l|l l' l'' P IH P' IH']; intros a.
  - reflexivity.
  - cbn [fold_left]. apply IH.
  - cbn [fold_left]. now rewrite C.
  - now rewrite IH.
Qed.

Section GlassSum.
Context {R : Type} {SR : Scalar R}.
Implicit Types g rx a x y : tensor R.

(** the slice [i] of [g[:, p]] is the slice [p[i]] of [g] *)
Lemma select1_index_select g p g' B G C H W i :
  shape g = [B; G; C; H; W] ->
  index_select1 g p = Some g' ->
  i < length p ->
  select1 g' i = select1 g (nth i p 0).
Proof.
  intros Hs Hsel Hi. unfold index_select1 in Hsel. rewrite Hs in Hsel.
  destruct (forallb _ p) eqn:Hall; [|discriminate].
  injection Hsel as <-.
  assert (Hp : nth i p 0 < G).
  { rewrite forallb_forall in Hall. apply Nat.ltb_lt, Hall, nth_In, Hi. }
  unfold select1. rewrite Hs. cbn [shape build select1_shape].
  replace (i <? length p) with true by (symmetry; now apply Nat.ltb_lt).
  replace (nth i p 0 <? G) with true by (symmetry; now apply Nat.ltb_lt).
  cbn [bind]. f_equal. apply build_ext. intros ix F.
  inversion F as [|b B' ix1 s1 Hb F1]; subst.
  inversion F1 as [|c C' ix2 s2 Hc F2]; subst.
  inversion F2 as [|y H' ix3 s3 Hy F3]; subst.
  inversion F3 as [|x W' ix4 s4 Hx F4]; subst.
  inversion F4; subst.
  rewrite get_build; [reflexivity|].
  repeat constructor; assumption.
Qed.

Lemma shape_index_select g p g' B G C H W :
  shape g = [B; G; C; H; W] ->
  index_select1 g p = Some g' ->
  shape g' = [B; length p; C; H; W].
Proof.
  intros Hs Hsel. unfold index_select1 in Hsel. rewrite Hs in Hsel.
  destruct (forallb _ p); [|discriminate]. now injection Hsel as <-.
Qed.

Lemma TNet_loop_index_select i h w g rx p g' B G C H W (l : list nat) acc :
  shape g = [B; G; C; H; W] ->
  index_select1 g p = Some g' ->
  Forall (fun k => k < length p) l ->
  fold_left (TNet.step i h w g' rx) l acc
  = fold_left (TNet.step i h w g rx) (map (fun k => nth k p 0) l) acc.
Proof.
  intros Hs Hsel F. revert acc.
  induction F as [|k l Hk F IH]; intros acc; [reflexivity|].
  cbn [fold_left map]. rewrite IH. f_equal.
  unfold TNet.step, TNet.term.
  now rewrite (@select1_index_select g p g' B G C H W k Hs Hsel Hk).
Qed.

Section Exact.
(** scalar addition is associative and commutative *)
Hypothesis add_assoc : forall a b c : R, add (add a b) c = add a (add b c).
Hypothesis add_comm : forall a b : R, add a b = add b a.

Lemma map2_add_swap (a x y : list R) :
  map2 add (map2 add a x) y = map2 add (map2 add a y) x.
Proof.
  revert x y. induction a as [|a0 a IH]; intros x y; [reflexivity|].
  destruct x as [|x0 x], y as [|y0 y]; try reflexivity.
  change (add (add a0 x0) y0 :: map2 add (map2 add a x) y
          = add (add a0 y0) x0 :: map2 add (map2 add a y) x).
  rewrite IH. f_equal.
  now rewrite add_assoc, (add_comm x0 y0), <- add_assoc.
Qed.

Lemma tensor_add_swap a x y :
  (r <- tensor_add a x ;; tensor_add r y)
  = (r <- tensor_add a y ;; tensor_add r x).
Proof.
  unfold tensor_add.
  destruct (shape_eqb (shape a) (shape x)) eqn:Ex,
           (shape_eqb (shape a) (shape y)) eqn:Ey;
    cbn [bind shape data]; rewrite ?Ex, ?Ey; try reflexivity.
  now rewrite map2_add_swap.
Qed.

Lemma TNet_step_swap i h w g rx acc j k :
  TNet.step i h w g rx (TNet.step i h w g rx acc j) k
  = TNet.step i h w g rx (TNet.step i h w g rx acc k) j.
Proof.
  unfold TNet.step. destruct acc as [a|]; [cbn [bind]|reflexivity].
  destruct (TNet.term i h w g rx j) as [tj|],
           (TNet.term i h w g rx k) as [tk|]; cbn [bind].
  - apply tensor_add_swap.
  - now destruct (tensor_add a tj).
  - now destruct (tensor_add a tk).
  - reflexivity.
Qed.

Lemma TNet_forward_permuted i h w g rx p g' B G C H W :
  shape g = [B; G; C; H; W] ->
  Permutation p (seq 0 G) ->
  index_select1 g p = Some g' ->
  TNet.forward i h w g' rx = TNet.forward i h w g rx.
Proof.
  intros Hs P Hsel.
  pose proof (@shape_index_select g p g' B G C H W Hs Hsel) as Hs'.
  assert (Hlen : length p = G) by (rewrite (Permutation_length P); apply length_seq).
  unfold TNet.forward, dim, dim_neg. rewrite Hs, Hs', Hlen.
  cbn [nth_error rev app bind Nat.sub].
  f_equal.
  rewrite (@TNet_loop_index_select i h w g rx p g' B G C H W (seq 0 G) _ Hs Hsel)
    by (rewrite Hlen; apply seq_below).
  rewrite <- Hlen at 1. rewrite map_nth_seq.
  apply fold_left_perm; [intros; apply TNet_step_swap | exact P].
Qed.
End Exact.
End GlassSum.

(** ** OutConv as an affine map *)

Lemma nth_map2 (A : Type) (f : A -> A -> A) (l1 l2 : list A) (n : nat) (d : A) :
  n < length l1 -> n < length l2 ->
  nth n (map (fun p => f (fst p) (snd p)) (combine l1 l2)) d = f (nth n l1 d) (nth n l2 d).
Proof.
  revert l2 n. induction l1 as [|a l1 IH]; intros l2 n H1 H2; simpl in *; [lia|].
  destruct l2 as [|b l2]; simpl in *; [lia|].
  destruct n as [|n]; [reflexivity|]. apply IH; lia.
Qed.

Lemma combine_app_eq (A B : Type) (l1 l2 : list A) (m1 m2 : list B) :
  length l1 = length m1 ->
  combine (l1 ++ l2) (m1 ++ m2) = combine l1 m1 ++ combine l2 m2.
Proof.
  revert m1. induction l1 as [|a l1 IH]; intros [|b m1] E; simpl in *;
    try discriminate; [reflexivity|].
  f_equal. apply IH. now injection E.
Qed.

Lemma tab_map2 (A : Type) (f : A -> A -> A) (s : list nat) (g h : list nat -> A) :
  map (fun p => f (fst p) (snd p)) (combine (tab s g) (tab s h))
  = tab s (fun ix => f (g ix) (h ix)).
Proof.
  revert g h. induction s as [|n s IH]; intros g h; [reflexivity|].
  cbn [tab]. induction (seq 0 n) as [|i l IHl]; [reflexivity|].
  cbn [flat_map]. rewrite <- IHl, <- IH.
  rewrite combine_app_eq by (now rewrite !tab_length).
  now rewrite map_app.
Qed.

Lemma tab_map (A : Type) (f : A -> A) (s : list nat) (g : list nat -> A) :
  map f (tab s g) = tab s (fun ix => f (g ix)).
Proof.
  revert g. induction s as [|n s IH]; intros g; [reflexivity|].
  cbn [tab]. induction (seq 0 n) as [|i l IHl]; [reflexivity|].
  cbn [flat_map]. now rewrite map_app, IHl, IH.
Qed.

Section Affine.
Context {R : Type} {SR : Scalar R}.

(** the scalars form a commutative semiring, with [ratio 1 1] as one *)
Hypothesis scalar_semiring : semi_ring_theory zero (ratio 1 1) add mul eq.
Add Ring scalar_ring : scalar_semiring.

Lemma sum_over_1 (f : nat -> R) : sum_over 1 f = f 0.
Proof. unfold sum_over. cbn [seq fold_left]. ring. Qed.

Lemma fold_add_lincomb (a b : R) (f g h : nat -> R) (l : list nat) (F G H : R) :
  (forall c, In c l -> f c = add (mul a (g c)) (mul b (h c))) ->
  F = add (mul a G) (mul b H) ->
  fold_left (fun acc i => add acc (f i)) l F
  = add (mul a (fold_left (fun acc i => add acc (g i)) l G))
        (mul b (fold_left (fun acc i => add acc (h i)) l H)).
Proof.
  revert F G H. induction l as [|c l IH]; intros F G H E E0; cbn [fold_left].
  - exact E0.
  - apply IH.
    + intros c' Hc'. apply E. now right.
    + rewrite E0, (E c) by now left. ring.
Qed.

Lemma sum_over_lincomb (a b : R) (n : nat) (f g h : nat -> R) :
  (forall c, c < n -> f c = add (mul a (g c)) (mul b (h c))) ->
  sum_over n f = add (mul a (sum_over n g)) (mul b (sum_over n h)).
Proof.
  intros E. unfold sum_over. apply fold_add_lincomb.
  - intros c Hc. apply in_seq in Hc. apply E. lia.
  - ring.
Qed.

Lemma get_lincomb (a b : R) (t1 t2 : tensor R) (ix : list nat) :
  wf t1 -> wf t2 -> shape t1 = shape t2 -> Forall2 lt ix (shape t1) ->
  get (mkT (shape t1) (map2 add (map (mul a) (data t1)) (map (mul b) (data t2)))) ix
  = add (mul a (get t1 ix)) (mul b (get t2 ix)).
Proof.
  intros W1 W2 Es F. unfold get. cbn [shape data]. rewrite <- Es.
  pose proof (offset_lt F) as Ho.
  assert (L1 : length (data t1) = numel (shape t1)) by exact W1.
  assert (L2 : length (data t2) = numel (shape t1)) by (rewrite Es; exact W2).
  unfold map2. rewrite nth_map2 by (rewrite length_map; lia).
  replace zero with (mul a zero) at 1 by ring. rewrite map_nth.
  replace zero with (mul b zero) at 2 by ring. rewrite map_nth.
  f_equal; f_equal; ring.
Qed.


Lemma OutConv_affine (i o : nat) (p : OutConv.params R) (a b : R)
    (t1 t2 : tensor R) :
  wf t1 -> wf t2 -> shape t1 = shape t2 ->
  (forall k, OutConv.bias p k = zero) \/ add a b = ratio 1 1 ->
  (t <- lincomb a t1 b t2 ;; OutConv.forward i o p t)
  = (y1 <- OutConv.forward i o p t1 ;;
     y2 <- OutConv.forward i o p t2 ;;
     lincomb a y1 b y2).
Proof.
  intros W1 W2 Es Hab. unfold lincomb, tensor_add, scale, tmap.
  cbn [shape data]. rewrite <- Es, shape_eqb_refl. cbn [bind].
  unfold OutConv.forward, conv2d. cbn [shape]. rewrite <- Es.
  destruct (conv2d_shape i o 1 0 (shape t1)) as [s'|] eqn:Ec; [cbn [bind]|reflexivity].
  destruct (shape t1) as [|B [|C [|H [|W [|? ?]]]]] eqn:Et; try discriminate.
  cbn [bind shape data build]. rewrite shape_eqb_refl.
  unfold build. f_equal. f_equal.
  rewrite !tab_map. unfold map2. rewrite tab_map2.
  apply tab_ext. intros ix F.
  unfold conv2d_shape in Ec.
  destruct ((1 <=? i) && (1 <=? o) && (C =? i)
            && (1 <=? H + 2 * 0) && (1 <=? W + 2 * 0)) eqn:Eg; [|discriminate].
  injection Ec as <-.
  apply andb_prop in Eg as [Eg EW]. apply andb_prop in Eg as [Eg EH].
  apply andb_prop in Eg as [_ EC].
  apply Nat.eqb_eq in EC. apply Nat.leb_le in EH, EW. subst C.
  inversion F as [|n B' ix1 s1 Hn F1]; subst.
  inversion F1 as [|oc o' ix2 s2 Hoc F2]; subst.
  inversion F2 as [|y H' ix3 s3 Hy F3]; subst.
  inversion F3 as [|x W' ix4 s4 Hx F4]; subst.
  inversion F4; subst.
  rewrite (@sum_over_lincomb a b i _
    (fun c => sum_over 1 (fun ky => sum_over 1 (fun kx =>
             mul (OutConv.weight p oc c ky kx)
               (getz t1 H W n c (Z.of_nat (y + ky) - Z.of_nat 0)
                  (Z.of_nat (x + kx) - Z.of_nat 0)))))
    (fun c => sum_over 1 (fun ky => sum_over 1 (fun kx =>
             mul (OutConv.weight p oc c ky kx)
               (getz t2 H W n c (Z.of_nat (y + ky) - Z.of_nat 0)
                  (Z.of_nat (x + kx) - Z.of_nat 0)))))).
  - set (S1 := sum_over i _). set (S2 := sum_over i _).
    destruct Hab as [Hz | Hone].
    + rewrite Hz. ring.
    + transitivity (add (add (mul a S1) (mul b S2))
                        (mul (add a b) (OutConv.bias p oc))); [|ring].
      rewrite Hone. ring.
  - intros c Hc. rewrite !sum_over_1.
    unfold getz.
    replace ((0 <=? Z.of_nat (y + 0) - Z.of_nat 0)
             && (Z.of_nat (y + 0) - Z.of_nat 0 <? Z.of_nat H)
             && (0 <=? Z.of_nat (x + 0) - Z.of_nat 0)
             && (Z.of_nat (x + 0) - Z.of_nat 0 <? Z.of_nat W))%Z with true.
    2:{ symmetry. rewrite !andb_true_iff, !Z.leb_le, !Z.ltb_lt. lia. }
    replace (Z.to_nat (Z.of_nat (y + 0) - Z.of_nat 0)) with y by lia.
    replace (Z.to_nat (Z.of_nat (x + 0) - Z.of_nat 0)) with x by lia.
    unfold get4.
    assert (Fi : Forall2 lt [n; c; y; x] (shape t1)).
    { rewrite Et. repeat constructor; lia. }
    assert (Es0 : shape t1 = shape t2) by (rewrite Et; exact Es).
    pose proof (get_lincomb a b W1 W2 Es0 Fi) as G.
    rewrite Et in G. unfold map2 in G. rewrite G. ring.
Qed.
End Affine.


(** ** The final ReLU of TNetBackBone *)

Section ReluRange.
Context {R : Type} {SR : Scalar R}.

(** a property that every value of ReLU has *)
Variable P : R -> Prop.
Hypothesis relu_P : forall x : R, P (relu x).

Lemma tmap_relu_range (t : tensor R) : Forall P (data (tmap relu t)).
Proof.
  cbn [tmap data]. apply Forall_forall. intros v Hv.
  apply in_map_iff in Hv as (u & <- & _). apply relu_P.
Qed.

Lemma TNetBackBone_range i o p (x y : tensor R) :
  TNetBackBone.forward i o p x = Some y -> Forall P (data y).
Proof.
  unfold TNetBackBone.forward. intros E.
  destruct (conv2d i 64 3 1 _ _ x) as [x1|]; [cbn [bind] in E|discriminate].
  destruct (conv2d 64 128 3 1 _ _ _) as [x2|]; [cbn [bind] in E|discriminate].
  destruct (conv2d 128 64 3 1 _ _ _) as [x3|]; [cbn [bind] in E|discriminate].
  destruct (conv2d 64 o 1 0 _ _ _) as [x4|]; [cbn [bind] in E|discriminate].
  injection E as <-. apply tmap_relu_range.
Qed.

Lemma TNet_range i h p (g rx y : tensor R) :
  TNet.forward i h p g rx = Some y -> Forall P (data y).
Proof.
  unfold TNet.forward. intros E.
  destruct (dim g 1); [cbn [bind] in E|discriminate].
  destruct (dim g 0); [cbn [bind] in E|discriminate].
  destruct (dim_neg g 2); [cbn [bind] in E|discriminate].
  destruct (dim_neg g 1); [cbn [bind] in E|discriminate].
  destruct (fold_left _ _ _) as [r|]; [cbn [bind] in E|discriminate].
  now apply TNetBackBone_range in E.
Qed.
End ReluRange.

Section NonNegative.
Context {R : Type} {SR : Scalar R}.

(** the comparison with zero is reflexive and total *)
Hypothesis leb_zero_refl : leb zero zero = true.
Hypothesis leb_zero_total : forall x : R, leb x zero = false -> leb zero x = true.

Lemma relu_nonneg (x : R) : nonneg (relu x).
Proof.
  unfold nonneg, relu. destruct (leb x zero) eqn:E.
  - exact leb_zero_refl.
  - now apply leb_zero_total.
Qed.
End NonNegative.

Section NonNegativeOrNaN.
Context {R : Type} {SR : Scalar R}.

(** a value that is not <= 0 is >= 0, or it is a NaN, which is not <= itself *)
Hypothesis leb_zero_refl : leb zero zero = true.
Hypothesis leb_zero_cases :
  forall x : R, leb x zero = false -> leb zero x = true \/ leb x x = false.

Lemma relu_nonneg_or_nan (x : R) : nonneg (relu x) \/ leb (relu x) (relu x) = false.
Proof.
  unfold nonneg, relu. destruct (leb x zero) eqn:E.
  - left. exact leb_zero_refl.
  - now apply leb_zero_cases.
Qed.
End NonNegativeOrNaN.

Lemma f32_leb_zero_refl : leb (zero (R := f32)) zero = true.
Proof. reflexivity. Qed.

Lemma f32_leb_zero_cases (x : f32) :
  leb x zero = false -> leb zero x = true \/ leb x x = false.
Proof.
  destruct x as [s|s| |s m e]; cbn [leb zero Scalar_f32]; unfold SFleb, SFcompare.
  - destruct s; discriminate.
  - destruct s; [discriminate | now left].
  - now right.
  - destruct s; [discriminate | now left].
Qed.

(** in binary32 no value of ReLU is below zero; a NaN, which ReLU returns
    unchanged, is neither below zero nor above it *)
Lemma relu_not_negative_f32 (x : f32) : ltb (relu x) zero = false.
Proof.
  unfold relu. cbn [leb ltb zero Scalar_f32].
  destruct (SFleb x (S754_zero false)) eqn:E; [reflexivity|].
  unfold SFleb, SFltb in *.
  destruct (SFcompare x (S754_zero false)) as [[]|]; congruence.
Qed.

Lemma TNet_not_negative_f32 i h p (g rx y : tensor f32) :
  TNet.forward i h p g rx = Some y -> Forall (fun v => ltb v zero = false) (data y).
Proof. apply TNet_range with (P := fun v : f32 => ltb v zero = false). exact relu_not_negative_f32. Qed.

(** ** Results that are defined, with their shapes *)

Section DefinedResults.
Context {R : Type} {SR : Scalar R}.

Lemma sim_some (A S : Type) (pr : A -> S) (m : option A) (s : S) :
  option_map pr m = Some s -> exists a, m = Some a /\ pr a = s.
Proof.
  destruct m as [a|]; [|discriminate]. intros E. injection E as <-. now exists a.
Qed.

Lemma sim_none (A S : Type) (pr : A -> S) (m : option A) :
  option_map pr m = None -> m = None.
Proof. now destruct m. Qed.

Lemma TNetBackBone_defined i o p (x : tensor R) b h w :
  1 <= i -> 1 <= o -> shape x = [b; i; h; w] -> 1 <= h -> 1 <= w ->
  exists y, TNetBackBone.forward i o p x = Some y /\ shape y = [b; o; h; w].
Proof.
  intros Hi Ho Hs Hh Hw. apply sim_some.
  rewrite TNetBackBone_sim, Hs. now apply TNetBackBone_shape_ok.
Qed.

Lemma zeros_all_zero (s : list nat) : Forall (fun v : R => v = zero) (data (zeros s)).
Proof.
  unfold zeros, build. cbn [data]. revert s.
  assert (G : forall (s : list nat) (f : list nat -> R),
            (forall ix, f ix = zero) -> Forall (fun v : R => v = zero) (tab s f)).
  { induction s as [|n s IH]; intros f Hf; cbn [tab].
    - constructor; [apply Hf | constructor].
    - induction (seq 0 n) as [|i l IHl]; cbn [flat_map]; [constructor|].
      apply Forall_app. split; [|exact IHl]. apply IH. intros ix. apply Hf. }
  intros s. now apply G.
Qed.

(** an empty glass axis: the loop does not run *)
Lemma TNet_forward_empty i h p (g rx : tensor R) B Cg H W :
  shape g = [B; 0; Cg; H; W] ->
  TNet.forward i h p g rx
  = TNetBackBone.forward h 16 (TNet.tnet_b p) (zeros [B; h; H; W]).
Proof.
  intros Hs. unfold TNet.forward, dim, dim_neg. rewrite Hs. reflexivity.
Qed.

Lemma CNet_defined n_oi p (x g : tensor R) B G Cg H W :
  1 <= n_oi -> shape x = [B; 21; H; W] -> shape g = [B; G; Cg; H; W] ->
  G = 0 \/ Cg = 17 -> 16 <= H -> 16 <= W ->
  exists normal oi uv,
    CNet.forward n_oi p x g = Some (normal, oi, uv)
    /\ shape normal = [B; 3; H; W]
    /\ shape oi = [B; n_oi; H; W]
    /\ shape uv = [B; 2; H; W].
Proof.
  intros Hn Hx Hg HG HH HW.
  pose proof (CNet_sim n_oi p x g) as E.
  rewrite Hx, Hg, CNet_shape_ok in E by assumption.
  apply sim_some in E as ([[n o] u] & E & Es).
  exists n, o, u. unfold shape3, out1, out2, out3 in Es. cbn [fst snd] in Es.
  injection Es as E1 E2 E3. auto.
Qed.

Lemma TNet_defined hidden p (g rx : tensor R) B G C crx H W :
  1 <= crx + C -> 1 <= hidden ->
  shape g = [B; G; C; H; W] -> shape rx = [B; crx; H; W] -> 1 <= H -> 1 <= W ->
  exists y, TNet.forward (crx + C) hidden p g rx = Some y /\ shape y = [B; 16; H; W].
Proof.
  intros Hc Hhid Hg Hrx HH HW. apply sim_some.
  rewrite TNet_sim, Hg, Hrx. now apply TNet_shape_ok.
Qed.

Lemma ThreeWayUNet_defined n_channels n_classes p (x : tensor R) B H W :
  1 <= n_channels -> 1 <= n_classes ->
  shape x = [B; n_channels; H; W] -> 16 <= H -> 16 <= W ->
  exists o1 o2 o3,
    ThreeWayUNet.forward n_channels n_classes true p x = Some (o1, o2, o3)
    /\ shape o1 = [B; 3; H; W]
    /\ shape o2 = [B; n_classes; H; W]
    /\ shape o3 = [B; 2; H; W].
Proof.
  intros Hnc Hncl Hx HH HW.
  pose proof (ThreeWayUNet_sim n_channels n_classes true p x) as E.
  rewrite Hx, ThreeWayUNet_shape_ok in E by assumption.
  apply sim_some in E as ([[o1 o2] o3] & E & Es).
  exists o1, o2, o3. unfold shape3, out1, out2, out3 in Es. cbn [fst snd] in Es.
  injection Es as E1 E2 E3. auto.
Qed.

Lemma CNet_heads_defined n_oi p (x g : tensor R) B G Cg H W :
  1 <= n_oi -> shape x = [B; 21; H; W] -> shape g = [B; G; Cg; H; W] ->
  G = 0 \/ Cg = 17 -> 16 <= H -> 16 <= W ->
  exists normal0 oi uv0,
    CNet.heads n_oi p x g = Some (normal0, oi, uv0)
    /\ shape normal0 = [B; 3; H; W]
    /\ shape oi = [B; n_oi; H; W]
    /\ shape uv0 = [B; 2; H; W].
Proof.
  intros Hn Hx Hg HG HH HW.
  pose proof (CNet_heads_sim n_oi p x g) as E.
  rewrite Hx, Hg, CNet_heads_shape_ok in E by assumption.
  apply sim_some in E as ([[n o] u] & E & Es).
  exists n, o, u. unfold shape3, out1, out2, out3 in Es. cbn [fst snd] in Es.
  injection Es as E1 E2 E3. auto.
Qed.

Lemma CrystalNet_unfold n_oi p (x g : tensor R) :
  CrystalNet.forward n_oi p x g = CNet.forward n_oi (CrystalNet.cnet p) x g.
Proof.
  unfold CrystalNet.forward.
  now destruct (CNet.forward n_oi (CrystalNet.cnet p) x g) as [[[n o] d]|].
Qed.
End DefinedResults.

(** ** The padding of Up *)

Section UpPad.
Context {R : Type} {SR : Scalar R}.

Lemma pad_to_spec (x1 x2 : tensor R) B C H1 W1 B2 C2 H2 W2 :
  shape x1 = [B; C; H1; W1] -> shape x2 = [B2; C2; H2; W2] ->
  H1 <= H2 -> W1 <= W2 ->
  exists t,
    Up.pad_to x1 x2 = Some t
    /\ shape t = [B; C; H2; W2]
    /\ forall b c y x, b < B -> c < C -> y < H2 -> x < W2 ->
         get4 t b c y x
         = if ((H2 - H1) / 2 <=? y) && (y <? (H2 - H1) / 2 + H1)
              && ((W2 - W1) / 2 <=? x) && (x <? (W2 - W1) / 2 + W1)
           then get4 x1 b c (y - (H2 - H1) / 2) (x - (W2 - W1) / 2)
           else zero.
Proof.
  intros Hs1 Hs2 HH HW.
  pose proof (Up_pad_to_sim x1 x2) as E.
  rewrite Hs1, Hs2, pad_to_shape_ok in E by assumption.
  apply sim_some in E as (t & Et & Est). exists t. split; [exact Et|]. split; [exact Est|].
  intros b c y x Hb Hc Hy Hx.
  unfold Up.pad_to, dim in Et. rewrite Hs1, Hs2 in Et. cbn [nth_error bind] in Et.
  unfold pad in Et. rewrite Hs1 in Et.
  destruct (pad_shape _ _ _ _ _) as [s|]; [cbn [bind] in Et|discriminate].
  injection Et as <-. cbn [shape build] in Est. subst s.
  unfold get4 at 1. rewrite get_build by (repeat constructor; assumption).
  unfold Up.pad_split, getz. cbn [fst snd].
  assert (EY : ((Z.of_nat H2 - Z.of_nat H1) / 2 = Z.of_nat ((H2 - H1) / 2))%Z).
  { rewrite Nat2Z.inj_div, Nat2Z.inj_sub by exact HH. reflexivity. }
  assert (EX : ((Z.of_nat W2 - Z.of_nat W1) / 2 = Z.of_nat ((W2 - W1) / 2))%Z).
  { rewrite Nat2Z.inj_div, Nat2Z.inj_sub by exact HW. reflexivity. }
  rewrite EY, EX.
  set (ly := (H2 - H1) / 2). set (lx := (W2 - W1) / 2).
  destruct ((ly <=? y) && (y <? ly + H1) && (lx <=? x) && (x <? lx + W1)) eqn:Ein.
  - rewrite !andb_true_iff, !Nat.leb_le, !Nat.ltb_lt in Ein.
    replace ((0 <=? Z.of_nat y - Z.of_nat ly)
             && (Z.of_nat y - Z.of_nat ly <? Z.of_nat H1)
             && (0 <=? Z.of_nat x - Z.of_nat lx)
             && (Z.of_nat x - Z.of_nat lx <? Z.of_nat W1))%Z with true.
    2:{ symmetry. rewrite !andb_true_iff, !Z.leb_le, !Z.ltb_lt. lia. }
    f_equal; lia.
  - replace ((0 <=? Z.of_nat y - Z.of_nat ly)
             && (Z.of_nat y - Z.of_nat ly <? Z.of_nat H1)
             && (0 <=? Z.of_nat x - Z.of_nat lx)
             && (Z.of_nat x - Z.of_nat lx <? Z.of_nat W1))%Z with false; [reflexivity|].
    symmetry. apply not_true_is_false. intros T. apply not_true_iff_false in Ein.
    apply Ein. rewrite !andb_true_iff, !Z.leb_le, !Z.ltb_lt in T.
    rewrite !andb_true_iff, !Nat.leb_le, !Nat.ltb_lt. lia.
Qed.
End UpPad.

(** ** Final projections without activation *)

Lemma tab_Forall (A : Type) (P : A -> Prop) (s : list nat) (f : list nat -> A) :
  (forall ix, Forall2 lt ix s -> P (f ix)) -> Forall P (tab s f).
Proof.
  revert f. induction s as [|n s IH]; intros f Hf; cbn [tab].
  - constructor; [apply Hf; constructor | constructor].
  - assert (G : forall l, (forall i, In i l -> i < n) ->
                Forall P (flat_map (fun i => tab s (fun ix => f (i :: ix))) l)).
    { induction l as [|i l IHl]; intros Hl; cbn [flat_map]; [constructor|].
      apply Forall_app. split.
      - apply IH. intros ix Hix. apply Hf. constructor; [|exact Hix].
        apply Hl. now left.
      - apply IHl. intros j Hj. apply Hl. now right. }
    apply G. intros i Hi. apply in_seq in Hi. lia.
Qed.

Section NoActivation.
Context {R : Type} {SR : Scalar R}.
Hypothesis scalar_semiring : semi_ring_theory zero (ratio 1 1) add mul eq.
Add Ring scalar_ring_na : scalar_semiring.

Lemma sum_over_zero (n : nat) (f : nat -> R) :
  (forall c, f c = zero) -> sum_over n f = zero.
Proof.
  intros Hf. unfold sum_over. induction (seq 0 n) as [|c l IH] using rev_ind.
  - reflexivity.
  - rewrite fold_left_app. cbn [fold_left]. rewrite IH, Hf. ring.
Qed.

(** a convolution whose weights are zero returns its bias everywhere *)
Lemma conv2d_zero_weight i o k p (w : weight4 R) (bs : weight1 R) (m : R)
    (x y : tensor R) :
  (forall oc c ky kx, w oc c ky kx = zero) ->
  (forall oc, bs oc = m) ->
  conv2d i o k p w (Some bs) x = Some y ->
  Forall (fun v => v = m) (data y).
Proof.
  intros Hw Hb E. unfold conv2d in E.
  destruct (conv2d_shape i o k p (shape x)) as [s|] eqn:Es; [cbn [bind] in E|discriminate].
  apply conv2d_shape_inv in Es as (B & H & W & Ex & _ & _ & ->).
  rewrite Ex in E. injection E as <-. cbn [build data].
  apply tab_Forall. intros ix F.
  inversion F as [|b0 B' ix1 s1 _ F1]; subst.
  inversion F1 as [|o0 o' ix2 s2 _ F2]; subst.
  inversion F2 as [|y0 H' ix3 s3 _ F3]; subst.
  inversion F3 as [|x0 W' ix4 s4 _ F4]; subst.
  inversion F4; subst.
  rewrite Hb, sum_over_zero; [ring|].
  intros c. apply sum_over_zero. intros ky. apply sum_over_zero. intros kx.
  rewrite Hw. ring.
Qed.

(** RNet ends in a bare convolution: with zero last weights its output is
    the last bias everywhere *)
Lemma RNet_last_bias i o p (x y : tensor R) (m : R) :
  (forall oc c ky kx, RNet.layer3_weight p oc c ky kx = zero) ->
  (forall oc, RNet.layer3_bias p oc = m) ->
  RNet.forward i o p x = Some y ->
  Forall (fun v => v = m) (data y).
Proof.
  intros Hw Hb E. unfold RNet.forward in E.
  destruct (conv2d i 32 5 2 _ _ x) as [x1|]; [cbn [bind] in E|discriminate].
  destruct (conv2d 32 64 3 1 _ _ _) as [x2|]; [cbn [bind] in E|discriminate].
  destruct (conv2d 64 32 3 1 _ _ _) as [x3|]; [cbn [bind] in E|discriminate].
  destruct (conv2d 32 o 1 0 _ _ _) as [x4|] eqn:E4; [cbn [bind] in E|discriminate].
  injection E as <-. eapply conv2d_zero_weight; eassumption.
Qed.

(** UNet ends in OutConv, a bare convolution *)
Lemma UNet_last_bias nc ncl bil p (x y : tensor R) (m : R) :
  (forall oc c ky kx, OutConv.weight (UNet.outc p) oc c ky kx = zero) ->
  (forall oc, OutConv.bias (UNet.outc p) oc = m) ->
  UNet.forward nc ncl bil p x = Some y ->
  Forall (fun v => v = m) (data y).
Proof.
  intros Hw Hb E. unfold UNet.forward in E.
  repeat match type of E with
  | bind ?c _ = Some _ => destruct c; [cbn [bind] in E|discriminate]
  end.
  unfold OutConv.forward in E. eapply conv2d_zero_weight; eassumption.
Qed.
End NoActivation.

Section DefinedMore.
Context {R : Type} {SR : Scalar R}.

Lemma RNet_defined i o p (x : tensor R) b h w :
  1 <= i -> 1 <= o -> shape x = [b; i; h; w] -> 1 <= h -> 1 <= w ->
  exists y, RNet.forward i o p x = Some y /\ shape y = [b; o; h; w].
Proof.
  intros Hi Ho Hs Hh Hw. apply sim_some. rewrite RNet_sim, Hs. now apply RNet_shape_ok.
Qed.

Lemma UNet_defined nc ncl p (x : tensor R) b h w :
  1 <= nc -> 1 <= ncl -> shape x = [b; nc; h; w] -> 16 <= h -> 16 <= w ->
  exists y, UNet.forward nc ncl true p x = Some y /\ shape y = [b; ncl; h; w].
Proof.
  intros Hnc Hncl Hs Hh Hw. apply sim_some. rewrite UNet_sim, Hs. now apply UNet_shape_ok.
Qed.
End DefinedMore.

(** ** Laws of the exact scalars *)

Lemma Qc_semiring : semi_ring_theory (zero (R := Qc)) (ratio 1 1) add mul eq.
Proof.
  constructor; cbn [zero add mul ratio Scalar_Qc]; intros.
  - apply Qcplus_0_l.
  - apply Qcplus_comm.
  - apply Qcplus_assoc.
  - apply Qcmult_1_l.
  - apply Qcmult_0_l.
  - apply Qcmult_comm.
  - apply Qcmult_assoc.
  - apply Qcmult_plus_distr_l.
Qed.

Lemma Qc_leb_zero_refl : leb (zero (R := Qc)) zero = true.
Proof. reflexivity. Qed.

Lemma Qc_leb_zero_total (x : Qc) : leb x zero = false -> leb zero x = true.
Proof.
  cbn [leb zero Scalar_Qc]. intros E. apply Qle_bool_iff.
  apply Qlt_le_weak, Qnot_le_lt. intros L. apply Qle_bool_iff in L. congruence.
Qed.

Lemma Qc_add_assoc (a b c : Qc) : add (add a b) c = add a (add b c).
Proof. symmetry. apply Qcplus_assoc. Qed.

Lemma Qc_add_comm (a b : Qc) : add a b = add b a.
Proof. apply Qcplus_comm. Qed.

(** * The properties of the forward pass *)

(** C1, as amended.  When scalar addition is associative and commutative
    (exact arithmetic), [TNet.forward] does not depend on the order of the
    glass slices: for a glass tensor [g] of shape (B, G, C, H, W) and a
    permutation [p] of the indices [0, G), the permuted tensor [g[:, p]]
    exists and gives exactly the result of [g], for every conditioning map
    and every parameter set; an error on one side is an error on the other,
    and on a non-empty map with a matching conditioning map, for a TNet
    built with positive channel counts, there is none. *)
Theorem TNet_forward_permutation_exact
    (R : Type) (SR : Scalar R)
    (add_assoc : forall a b c : R, add (add a b) c = add a (add b c))
    (add_comm : forall a b : R, add a b = add b a)
    (in_channel hidden : nat) (w : TNet.params R) (g rx : tensor R)
    (p : list nat) (B G C H W : nat) :
  shape g = [B; G; C; H; W] ->
  Permutation p (seq 0 G) ->
  (exists g',
     index_select1 g p = Some g'
     /\ TNet.forward in_channel hidden w g' rx = TNet.forward in_channel hidden w g rx)
  /\ (forall crx, shape rx = [B; crx; H; W] -> in_channel = crx + C ->
       1 <= in_channel -> 1 <= hidden -> 1 <= H -> 1 <= W ->
       exists y, TNet.forward in_channel hidden w g rx = Some y
                 /\ shape y = [B; 16; H; W]).
Proof.
  intros Hs P. split.
  2:{ intros crx Hrx -> Hc Hhid HH HW. now apply TNet_defined with (G := G). }
  assert (Hall : forallb (fun j => j <? G) p = true).
  { apply forallb_forall. intros j Hj. apply Nat.ltb_lt.
    apply (Permutation_in _ P), in_seq in Hj. lia. }
  assert (Hsel : exists g', index_select1 g p = Some g').
  { unfold index_select1. rewrite Hs, Hall. eauto. }
  destruct Hsel as (g' & Hsel). exists g'. split; [exact Hsel|].
  exact (@TNet_forward_permuted R SR add_assoc add_comm in_channel hidden w g rx p g'
           B G C H W Hs P Hsel).
Qed.

Lemma TNet_forward_permutation_exact_witness :
  shape glass_Qc = [1; 2; 17; 1; 1]
  /\ Permutation [1; 0] (seq 0 2)
  /\ exists g',
       index_select1 glass_Qc [1; 0] = Some g'
       /\ get g' [0; 0; 0; 0; 0] <> get glass_Qc [0; 0; 0; 0; 0]
       /\ TNet.forward 25 32 (TNet_const Qc_one) g' (zeros [1; 8; 1; 1])
          = TNet.forward 25 32 (TNet_const Qc_one) glass_Qc (zeros [1; 8; 1; 1]).
Proof.
  split; [reflexivity|]. split; [apply perm_swap|].
  destruct (@TNet_forward_permutation_exact Qc Scalar_Qc Qc_add_assoc Qc_add_comm
              25 32 (TNet_const Qc_one) glass_Qc (zeros [1; 8; 1; 1])
              [1; 0] 1 2 17 1 1 eq_refl (perm_swap 0 1 [])) as ((g' & Hsel & E) & _).
  exists g'. split; [exact Hsel|]. split; [|exact E].
  assert (V : option_map (fun t => this (get t [0; 0; 0; 0; 0]))
                (index_select1 glass_Qc [1; 0]) = Some (1 # 1)%Q)
    by (vm_compute; reflexivity).
  rewrite Hsel in V. cbn [option_map] in V. injection V as V.
  intros Q. rewrite Q in V. vm_compute in V. discriminate V.
Defined.

(** C1, as stated, fails in binary32.  With glass slices 2^24, 1, 1 and the
    permutation [1; 2; 0] the sum is taken as (1 + 1) + 2^24 = 2^24 + 2
    instead of (2^24 + 1) + 1 = 2^24: the two outputs differ. *)
Lemma TNet_forward_order_f32 :
  shape glass_f32 = [1; 3; 17; 1; 1]
  /\ Permutation [1; 2; 0] (seq 0 3)
  /\ exists g',
       index_select1 glass_f32 [1; 2; 0] = Some g'
       /\ option_map (fun y => get4 y 0 0 0 0) (TNet.forward 25 32 tnet_f32 glass_f32 rx_f32)
          = Some (f32_of_Z 16777216)
       /\ option_map (fun y => get4 y 0 0 0 0) (TNet.forward 25 32 tnet_f32 g' rx_f32)
          = Some (f32_of_Z 16777218)
       /\ TNet.forward 25 32 tnet_f32 g' rx_f32
          <> TNet.forward 25 32 tnet_f32 glass_f32 rx_f32.
Proof.
  split; [reflexivity|]. split.
  { apply Permutation_sym. apply perm_trans with [1; 0; 2].
    - apply perm_swap.
    - apply perm_skip. apply perm_swap. }
  eexists. split; [reflexivity|].
  assert (E1 : option_map (fun y => get4 y 0 0 0 0)
                 (TNet.forward 25 32 tnet_f32 glass_f32 rx_f32)
               = Some (f32_of_Z 16777216)) by (vm_compute; reflexivity).
  split; [exact E1|].
  match goal with |- ?P /\ _ => assert (E2 : P) by (vm_compute; reflexivity) end.
  split; [exact E2|].
  intros E. rewrite E, E1 in E2. discriminate E2.
Qed.

(** C2, as amended.  OutConv is an affine map, a 1x1 channel projection
    plus its bias: over a commutative semiring of scalars, for inputs [t1],
    [t2] of one shape, OutConv(a t1 + b t2) = a OutConv(t1) + b OutConv(t2)
    holds when the bias is zero or when a + b = 1; on a non-empty map with
    [in_channels] channels both sides are defined, for an OutConv built
    with positive channel counts. *)
Theorem OutConv_affine_combination
    (R : Type) (SR : Scalar R)
    (scalar_semiring : semi_ring_theory zero (ratio 1 1) add mul eq)
    (in_channels out_channels : nat) (p : OutConv.params R) (a b : R)
    (t1 t2 : tensor R) :
  wf t1 -> wf t2 -> shape t1 = shape t2 ->
  (forall k, OutConv.bias p k = zero) \/ add a b = ratio 1 1 ->
  (t <- lincomb a t1 b t2 ;; OutConv.forward in_channels out_channels p t)
  = (y1 <- OutConv.forward in_channels out_channels p t1 ;;
     y2 <- OutConv.forward in_channels out_channels p t2 ;;
     lincomb a y1 b y2)
  /\ forall B H W, 1 <= in_channels -> 1 <= out_channels ->
       shape t1 = [B; in_channels; H; W] -> 1 <= H -> 1 <= W ->
       exists y,
         (t <- lincomb a t1 b t2 ;; OutConv.forward in_channels out_channels p t)
         = Some y
         /\ shape y = [B; out_channels; H; W].
Proof.
  intros W1 W2 Es Hab.
  pose proof (OutConv_affine scalar_semiring in_channels out_channels p a b
                W1 W2 Es Hab) as E.
  split; [exact E|].
  intros B H W Hi Ho Hs HH HW. rewrite E.
  assert (D : forall t : tensor R, shape t = [B; in_channels; H; W] ->
              exists y, OutConv.forward in_channels out_channels p t = Some y
                        /\ shape y = [B; out_channels; H; W]).
  { intros t Ht. apply sim_some. rewrite OutConv_sim, Ht.
    apply conv2d_shape_ok; (reflexivity || assumption). }
  destruct (D t1 Hs) as (y1 & -> & S1).
  destruct (D t2 (eq_trans (eq_sym Es) Hs)) as (y2 & -> & S2).
  cbn [bind]. unfold lincomb, tensor_add, scale. cbn [shape tmap].
  rewrite S1, S2, shape_eqb_refl. eexists. split; reflexivity.
Qed.

Lemma OutConv_affine_combination_witness :
  wf (pixel Qc_one) /\ wf (pixel zero)
  /\ shape (pixel Qc_one) = shape (pixel zero)
  /\ add Qc_half Qc_half = ratio 1 1
  /\ (t <- lincomb Qc_half (pixel Qc_one) Qc_half (pixel zero) ;;
      OutConv.forward 1 1 outconv_bias_one t)
     = (y1 <- OutConv.forward 1 1 outconv_bias_one (pixel Qc_one) ;;
        y2 <- OutConv.forward 1 1 outconv_bias_one (pixel zero) ;;
        lincomb Qc_half y1 Qc_half y2).
Proof.
  assert (Hh : add Qc_half Qc_half = ratio 1 1) by (apply Qc_is_canon; reflexivity).
  split; [reflexivity|]. split; [reflexivity|]. split; [reflexivity|].
  split; [exact Hh|].
  apply (@OutConv_affine_combination Qc Scalar_Qc Qc_semiring 1 1 outconv_bias_one
           Qc_half Qc_half (pixel Qc_one) (pixel zero)).
  - reflexivity.
  - reflexivity.
  - reflexivity.
  - right. exact Hh.
Defined.

(** C2, as stated, fails: with weight 1 and bias 1, a = b = 1 and
    t1 = t2 = the pixel 1, OutConv(a t1 + b t2) = 3 and
    a OutConv(t1) + b OutConv(t2) = 4, in exact arithmetic. *)
Lemma OutConv_not_linear :
  option_map (fun y => this (get4 y 0 0 0 0))
    (t <- lincomb Qc_one (pixel Qc_one) Qc_one (pixel Qc_one) ;;
     OutConv.forward 1 1 outconv_bias_one t)
  = Some (3 # 1)%Q
  /\ option_map (fun y => this (get4 y 0 0 0 0))
       (y1 <- OutConv.forward 1 1 outconv_bias_one (pixel Qc_one) ;;
        y2 <- OutConv.forward 1 1 outconv_bias_one (pixel Qc_one) ;;
        lincomb Qc_one y1 Qc_one y2)
     = Some (4 # 1)%Q
  /\ (t <- lincomb Qc_one (pixel Qc_one) Qc_one (pixel Qc_one) ;;
      OutConv.forward 1 1 outconv_bias_one t)
     <> (y1 <- OutConv.forward 1 1 outconv_bias_one (pixel Qc_one) ;;
         y2 <- OutConv.forward 1 1 outconv_bias_one (pixel Qc_one) ;;
         lincomb Qc_one y1 Qc_one y2).
Proof.
  match goal with |- ?P /\ _ => assert (E1 : P) by (vm_compute; reflexivity) end.
  split; [exact E1|].
  match goal with |- ?P /\ _ => assert (E2 : P) by (vm_compute; reflexivity) end.
  split; [exact E2|].
  intros E. rewrite E, E2 in E1. discriminate E1.
Qed.

(** C3, as amended.  For a CrystalNet built with n_oi >= 1, an input [x] of
    shape (B, 21, H, W) and a glass tensor [g] of shape (B, G, Cg, H, W) with
    H, W >= 16, and Cg = 17 unless the glass axis is empty,
    [CrystalNet.forward] returns a triple (normal, oi, uv) of shapes
    (B, 3, H, W), (B, n_oi, H, W), (B, 2, H, W); as a function of parameters
    and inputs the result is determined. *)
Theorem CrystalNet_forward_shapes
    (R : Type) (SR : Scalar R) (n_oi : nat) (p : CrystalNet.params R)
    (x g : tensor R) (B G Cg H W : nat) :
  1 <= n_oi ->
  shape x = [B; 21; H; W] ->
  shape g = [B; G; Cg; H; W] ->
  G = 0 \/ Cg = 17 ->
  16 <= H -> 16 <= W ->
  exists normal oi uv,
    CrystalNet.forward n_oi p x g = Some (normal, oi, uv)
    /\ shape normal = [B; 3; H; W]
    /\ shape oi = [B; n_oi; H; W]
    /\ shape uv = [B; 2; H; W].
Proof.
  intros Hn Hx Hg HG HH HW. rewrite CrystalNet_unfold.
  now apply CNet_defined with (G := G) (Cg := Cg).
Qed.

Lemma CrystalNet_forward_shapes_witness :
  1 <= 5
  /\ shape (zeros (R := Qc) [2; 21; 16; 16]) = [2; 21; 16; 16]
  /\ shape (zeros (R := Qc) [2; 3; 17; 16; 16]) = [2; 3; 17; 16; 16]
  /\ (3 = 0 \/ 17 = 17) /\ 16 <= 16
  /\ exists normal oi uv,
       CrystalNet.forward 5 (CrystalNet_const Qc_one)
         (zeros [2; 21; 16; 16]) (zeros [2; 3; 17; 16; 16])
       = Some (normal, oi, uv)
       /\ shape normal = [2; 3; 16; 16]
       /\ shape oi = [2; 5; 16; 16]
       /\ shape uv = [2; 2; 16; 16].
Proof.
  split; [lia|].
  split; [reflexivity|]. split; [reflexivity|]. split; [right; reflexivity|].
  split; [lia|].
  apply (@CrystalNet_forward_shapes Qc Scalar_Qc 5 (CrystalNet_const Qc_one)
           (zeros [2; 21; 16; 16]) (zeros [2; 3; 17; 16; 16]) 2 3 17 16 16).
  - lia.
  - reflexivity.
  - reflexivity.
  - right. reflexivity.
  - lia.
  - lia.
Defined.

(** C3, as stated, fails.  On an 8x8 input the fourth max-pool of the UNet
    would produce an empty map and the forward pass raises; on a 16x16 input
    with 5 glass channels instead of 17 the first convolution of [tnet_f]
    raises; and a CrystalNet built with n_oi = 0 raises in the convolution
    of its oi head, whose weight has no output channel. *)
Lemma CrystalNet_forward_raises :
  CrystalNet.forward 5 (CrystalNet_const Qc_one)
    (zeros [2; 21; 8; 8]) (zeros [2; 3; 17; 8; 8]) = None
  /\ CrystalNet.forward 5 (CrystalNet_const Qc_one)
       (zeros [2; 21; 16; 16]) (zeros [2; 3; 5; 16; 16]) = None
  /\ CrystalNet.forward 0 (CrystalNet_const Qc_one)
       (zeros [2; 21; 16; 16]) (zeros [2; 3; 17; 16; 16]) = None.
Proof.
  repeat split; rewrite CrystalNet_unfold; apply (sim_none shape3);
    rewrite CNet_sim; vm_compute; reflexivity.
Qed.

(** C4, as amended.  With an empty glass axis, G = 0, [TNet.forward] is
    [tnet_b] applied to the all-zero accumulator of shape (B, hidden, H, W),
    whatever the conditioning map: the loop body never runs.  For a TNet
    built with [hidden] >= 1 this is a result, of shape (B, 16, H, W),
    exactly when the map is non-empty (H, W >= 1); on an empty map the first
    convolution of [tnet_b] raises. *)
Theorem TNet_no_glass_is_tnet_b_of_zeros
    (R : Type) (SR : Scalar R) (in_channel hidden : nat) (p : TNet.params R)
    (g rx : tensor R) (B Cg H W : nat) :
  shape g = [B; 0; Cg; H; W] ->
  TNet.forward in_channel hidden p g rx
  = TNetBackBone.forward hidden 16 (TNet.tnet_b p) (zeros [B; hidden; H; W])
  /\ shape (zeros (R := R) [B; hidden; H; W]) = [B; hidden; H; W]
  /\ Forall (fun v : R => v = zero) (data (zeros [B; hidden; H; W]))
  /\ (1 <= hidden ->
      ((exists y, TNet.forward in_channel hidden p g rx = Some y)
       <-> (1 <= H /\ 1 <= W)))
  /\ (forall y, TNet.forward in_channel hidden p g rx = Some y ->
        shape y = [B; 16; H; W]).
Proof.
  intros Hs. rewrite (TNet_forward_empty in_channel hidden p g rx Hs).
  split; [reflexivity|]. split; [reflexivity|]. split; [apply zeros_all_zero|].
  assert (I : forall y,
            TNetBackBone.forward hidden 16 (TNet.tnet_b p) (zeros [B; hidden; H; W])
            = Some y ->
            (1 <= H /\ 1 <= W) /\ shape y = [B; 16; H; W]).
  { intros y E.
    pose proof (TNetBackBone_sim hidden 16 (TNet.tnet_b p) (zeros [B; hidden; H; W])) as S.
    rewrite E in S. cbn [option_map] in S. symmetry in S. rewrite shape_zeros in S.
    apply TNetBackBone_shape_inv1 in S as (B' & H' & W' & Q & _ & _ & HH & HW & Sy).
    injection Q as <- <- <-. auto. }
  split; [intros Hh; split|].
  - intros (y & E). apply (I y E).
  - intros (HH & HW).
    destruct (@TNetBackBone_defined R SR hidden 16 (TNet.tnet_b p)
                (zeros [B; hidden; H; W]) B H W Hh) as (y & E & _);
      [lia | reflexivity | exact HH | exact HW |].
    now exists y.
  - intros y E. apply (I y E).
Qed.

Lemma TNet_no_glass_is_tnet_b_of_zeros_witness :
  shape (zeros (R := Qc) [2; 0; 17; 4; 4]) = [2; 0; 17; 4; 4]
  /\ TNet.forward 25 32 (TNet_const Qc_one) (zeros [2; 0; 17; 4; 4]) (zeros [2; 8; 4; 4])
     = TNetBackBone.forward 32 16 (TNet.tnet_b (TNet_const Qc_one)) (zeros [2; 32; 4; 4])
  /\ exists y,
       TNet.forward 25 32 (TNet_const Qc_one) (zeros [2; 0; 17; 4; 4]) (zeros [2; 8; 4; 4])
       = Some y
       /\ shape y = [2; 16; 4; 4].
Proof.
  split; [reflexivity|].
  destruct (@TNet_no_glass_is_tnet_b_of_zeros Qc Scalar_Qc 25 32 (TNet_const Qc_one)
              (zeros [2; 0; 17; 4; 4]) (zeros [2; 8; 4; 4]) 2 17 4 4 eq_refl)
    as (E & _ & _ & D & Sy).
  split; [exact E|].
  destruct D as (_ & D); [lia|].
  destruct D as (y & Ey); [split; lia|].
  exists y. split; [exact Ey | exact (Sy y Ey)].
Defined.

(** C4, as stated, fails: with an empty glass axis the call still raises on
    an empty map (here H = 0: the padded map, 2 x 6, is smaller than the 3x3
    kernel of [tnet_b]) and, on a batch of two, for a TNet built with
    hidden = 0 (the first convolution of [tnet_b] has no input channel). *)
Lemma TNet_no_glass_raises :
  TNet.forward 25 32 (TNet_const Qc_one) (zeros [2; 0; 17; 0; 4]) (zeros [2; 8; 0; 4])
  = None
  /\ TNet.forward 25 0 (TNet_const Qc_one) (zeros [2; 0; 17; 4; 4]) (zeros [2; 8; 4; 4])
     = None.
Proof.
  split; apply (sim_none (@shape Qc)); rewrite TNet_sim; vm_compute; reflexivity.
Qed.

(** C5.  [Up.forward] upsamples, pads, concatenates and convolves.  The
    upsampled [x1], of spatial size H1 x W1, is
    padded for a skip [x2] of size H2 >= H1, W2 >= W1 with dY // 2 rows of
    zeros on the low side and dY - dY // 2 on the high side, dY = H2 - H1
    (and dX // 2, dX - dX // 2 columns, dX = W2 - W1): the padded map has
    the spatial size of [x2], holds [x1] at offset (dY // 2, dX // 2) and
    zero elsewhere, and is concatenated behind [x2] along the channels.
    For sizes 7 and 8 the difference is 1 and the pad is (0, 1). *)
Theorem Up_pad_low_high
    (R : Type) (SR : Scalar R) (x1 x2 : tensor R)
    (B C H1 W1 C2 H2 W2 : nat) :
  shape x1 = [B; C; H1; W1] ->
  shape x2 = [B; C2; H2; W2] ->
  H1 <= H2 -> W1 <= W2 ->
  (forall in_channels out_channels bilinear p (x0 : tensor R),
     Up.forward in_channels out_channels bilinear p x0 x2
     = (u <- Up.up in_channels bilinear p x0 ;;
        t <- Up.pad_to u x2 ;;
        xc <- cat1 x2 t ;;
        DoubleConv.forward in_channels out_channels (Up.mid in_channels bilinear)
          (Up.conv p) xc))
  /\ Up.pad_split (Z.of_nat H2 - Z.of_nat H1)
  = (Z.of_nat ((H2 - H1) / 2), Z.of_nat ((H2 - H1) - (H2 - H1) / 2))
  /\ Up.pad_split (Z.of_nat W2 - Z.of_nat W1)
     = (Z.of_nat ((W2 - W1) / 2), Z.of_nat ((W2 - W1) - (W2 - W1) / 2))
  /\ (exists t,
        Up.pad_to x1 x2 = Some t
        /\ shape t = [B; C; H2; W2]
        /\ (forall b c y x, b < B -> c < C -> y < H2 -> x < W2 ->
              get4 t b c y x
              = if ((H2 - H1) / 2 <=? y) && (y <? (H2 - H1) / 2 + H1)
                   && ((W2 - W1) / 2 <=? x) && (x <? (W2 - W1) / 2 + W1)
                then get4 x1 b c (y - (H2 - H1) / 2) (x - (W2 - W1) / 2)
                else zero)
        /\ exists xc, cat1 x2 t = Some xc /\ shape xc = [B; C2 + C; H2; W2])
  /\ Up.pad_split (Z.of_nat 8 - Z.of_nat 7) = (0%Z, 1%Z).
Proof.
  intros Hs1 Hs2 HH HW.
  assert (P : forall a b, a <= b ->
              Up.pad_split (Z.of_nat b - Z.of_nat a)
              = (Z.of_nat ((b - a) / 2), Z.of_nat ((b - a) - (b - a) / 2))).
  { intros a b Hab. unfold Up.pad_split.
    rewrite <- Nat2Z.inj_sub by exact Hab. set (d := b - a).
    assert (E : (Z.of_nat d / 2 = Z.of_nat (d / 2))%Z)
      by (rewrite Nat2Z.inj_div; reflexivity).
    rewrite E. f_equal. pose proof (half_bounds d). lia. }
  split; [reflexivity|].
  split; [now apply P|]. split; [now apply P|]. split; [|reflexivity].
  destruct (pad_to_spec x1 x2 Hs1 Hs2 HH HW) as (t & Et & Est & Ev).
  exists t. repeat split; try assumption.
  apply sim_some. rewrite cat1_sim, Hs2, Est. apply cat1_shape_ok.
Qed.

Lemma Up_pad_low_high_witness :
  shape (zeros (R := Qc) [1; 1; 7; 7]) = [1; 1; 7; 7]
  /\ shape (zeros (R := Qc) [1; 1; 8; 8]) = [1; 1; 8; 8]
  /\ 7 <= 8
  /\ exists t,
       Up.pad_to (zeros (R := Qc) [1; 1; 7; 7]) (zeros [1; 1; 8; 8]) = Some t
       /\ shape t = [1; 1; 8; 8].
Proof.
  split; [reflexivity|]. split; [reflexivity|]. split; [lia|].
  destruct (@Up_pad_low_high Qc Scalar_Qc (zeros [1; 1; 7; 7]) (zeros [1; 1; 8; 8])
              1 1 7 7 1 8 8 eq_refl eq_refl) as (_ & _ & _ & (t & Et & Est & _) & _);
    [lia | lia |].
  exists t. split; assumption.
Defined.

(** C6.  In [ThreeWayUNet.forward] every output is computed by its own
    decoder ladder from the shared encoder maps x1..x5; for two parameter
    sets with the same encoder, the output of a group is the same whenever
    the parameters of that group are the same, whatever the parameters of
    the other two groups.  In bilinear mode, for a network built with
    positive channel counts, the three outputs exist for every input of at
    least 16x16 with [n_channels] channels. *)
Theorem ThreeWayUNet_group_isolation
    (R : Type) (SR : Scalar R) (n_channels n_classes : nat) (bilinear : bool)
    (p q : ThreeWayUNet.params R) (x : tensor R) :
  same_encoder p q ->
  ThreeWayUNet.forward n_channels n_classes bilinear p x
  = (m <- encoder n_channels bilinear p x ;;
     o1 <- group_1 bilinear p m ;;
     o2 <- group_2 n_classes bilinear p m ;;
     o3 <- group_3 bilinear p m ;;
     Some (o1, o2, o3))
  /\ (same_group_1 p q ->
      option_map out1 (ThreeWayUNet.forward n_channels n_classes bilinear p x)
      = option_map out1 (ThreeWayUNet.forward n_channels n_classes bilinear q x))
  /\ (same_group_2 p q ->
      option_map out2 (ThreeWayUNet.forward n_channels n_classes bilinear p x)
      = option_map out2 (ThreeWayUNet.forward n_channels n_classes bilinear q x))
  /\ (same_group_3 p q ->
      option_map out3 (ThreeWayUNet.forward n_channels n_classes bilinear p x)
      = option_map out3 (ThreeWayUNet.forward n_channels n_classes bilinear q x))
  /\ (forall B H W, bilinear = true -> 1 <= n_channels -> 1 <= n_classes ->
       shape x = [B; n_channels; H; W] -> 16 <= H -> 16 <= W ->
       exists o1 o2 o3,
         ThreeWayUNet.forward n_channels n_classes bilinear p x = Some (o1, o2, o3)).
Proof.
  intros He. split; [apply forward_groups|].
  assert (Dd : forall B H W, bilinear = true -> 1 <= n_channels -> 1 <= n_classes ->
               shape x = [B; n_channels; H; W] -> 16 <= H -> 16 <= W ->
               exists o1 o2 o3,
                 ThreeWayUNet.forward n_channels n_classes bilinear p x
                 = Some (o1, o2, o3)).
  { intros B H W -> Hnc Hncl Hx HH HW.
    destruct (@ThreeWayUNet_defined R SR n_channels n_classes p x B H W
                Hnc Hncl Hx HH HW)
      as (o1 & o2 & o3 & E & _).
    now exists o1, o2, o3. }
  cut ((same_group_1 p q ->
        option_map out1 (ThreeWayUNet.forward n_channels n_classes bilinear p x)
        = option_map out1 (ThreeWayUNet.forward n_channels n_classes bilinear q x))
       /\ (same_group_2 p q ->
           option_map out2 (ThreeWayUNet.forward n_channels n_classes bilinear p x)
           = option_map out2 (ThreeWayUNet.forward n_channels n_classes bilinear q x))
       /\ (same_group_3 p q ->
           option_map out3 (ThreeWayUNet.forward n_channels n_classes bilinear p x)
           = option_map out3 (ThreeWayUNet.forward n_channels n_classes bilinear q x))).
  { intros (I1 & I2 & I3). auto. }
  clear Dd.
  rewrite !forward_groups, (encoder_same n_channels bilinear x He).
  destruct (encoder n_channels bilinear q x) as [m|]; [cbn [bind]|auto].
  pose proof (decoder_group_defined 3 bilinear
    (ThreeWayUNet.up_group_1_0 p) (ThreeWayUNet.up_group_1_1 p)
    (ThreeWayUNet.up_group_1_2 p) (ThreeWayUNet.up_group_1_3 p)
    (ThreeWayUNet.up_group_1_4 p)
    (ThreeWayUNet.up_group_1_0 q) (ThreeWayUNet.up_group_1_1 q)
    (ThreeWayUNet.up_group_1_2 q) (ThreeWayUNet.up_group_1_3 q)
    (ThreeWayUNet.up_group_1_4 q) m) as D1.
  pose proof (decoder_group_defined n_classes bilinear
    (ThreeWayUNet.up_group_2_0 p) (ThreeWayUNet.up_group_2_1 p)
    (ThreeWayUNet.up_group_2_2 p) (ThreeWayUNet.up_group_2_3 p)
    (ThreeWayUNet.up_group_2_4 p)
    (ThreeWayUNet.up_group_2_0 q) (ThreeWayUNet.up_group_2_1 q)
    (ThreeWayUNet.up_group_2_2 q) (ThreeWayUNet.up_group_2_3 q)
    (ThreeWayUNet.up_group_2_4 q) m) as D2.
  pose proof (decoder_group_defined 2 bilinear
    (ThreeWayUNet.up_group_3_0 p) (ThreeWayUNet.up_group_3_1 p)
    (ThreeWayUNet.up_group_3_2 p) (ThreeWayUNet.up_group_3_3 p)
    (ThreeWayUNet.up_group_3_4 p)
    (ThreeWayUNet.up_group_3_0 q) (ThreeWayUNet.up_group_3_1 q)
    (ThreeWayUNet.up_group_3_2 q) (ThreeWayUNet.up_group_3_3 q)
    (ThreeWayUNet.up_group_3_4 q) m) as D3.
  fold (group_1 bilinear p m) in D1. fold (group_1 bilinear q m) in D1.
  fold (group_2 n_classes bilinear p m) in D2. fold (group_2 n_classes bilinear q m) in D2.
  fold (group_3 bilinear p m) in D3. fold (group_3 bilinear q m) in D3.
  repeat split.
  - intros (E0 & E1 & E2 & E3 & E4).
    assert (E : group_1 bilinear p m = group_1 bilinear q m)
      by (unfold group_1; now rewrite E0, E1, E2, E3, E4).
    rewrite E in *.
    destruct (group_1 bilinear q m), (group_2 n_classes bilinear p m),
             (group_2 n_classes bilinear q m), (group_3 bilinear p m),
             (group_3 bilinear q m); cbn; try reflexivity;
      exfalso; intuition congruence.
  - intros (E0 & E1 & E2 & E3 & E4).
    assert (E : group_2 n_classes bilinear p m = group_2 n_classes bilinear q m)
      by (unfold group_2; now rewrite E0, E1, E2, E3, E4).
    rewrite E in *.
    destruct (group_1 bilinear p m), (group_1 bilinear q m),
             (group_2 n_classes bilinear q m), (group_3 bilinear p m),
             (group_3 bilinear q m); cbn; try reflexivity;
      exfalso; intuition congruence.
  - intros (E0 & E1 & E2 & E3 & E4).
    assert (E : group_3 bilinear p m = group_3 bilinear q m)
      by (unfold group_3; now rewrite E0, E1, E2, E3, E4).
    rewrite E in *.
    destruct (group_1 bilinear p m), (group_1 bilinear q m),
             (group_2 n_classes bilinear p m), (group_2 n_classes bilinear q m),
             (group_3 bilinear q m); cbn; try reflexivity;
      exfalso; intuition congruence.
Qed.

Lemma ThreeWayUNet_group_isolation_witness :
  same_encoder (ThreeWayUNet_const Qc_one Qc_one Qc_one Qc_one)
               (ThreeWayUNet_const Qc_one Qc_one Qc_half Qc_one)
  /\ option_map out1
       (ThreeWayUNet.forward 24 5 true
          (ThreeWayUNet_const Qc_one Qc_one Qc_one Qc_one) (zeros [1; 24; 16; 16]))
     = option_map out1
         (ThreeWayUNet.forward 24 5 true
            (ThreeWayUNet_const Qc_one Qc_one Qc_half Qc_one) (zeros [1; 24; 16; 16]))
  /\ option_map out3
       (ThreeWayUNet.forward 24 5 true
          (ThreeWayUNet_const Qc_one Qc_one Qc_one Qc_one) (zeros [1; 24; 16; 16]))
     = option_map out3
         (ThreeWayUNet.forward 24 5 true
            (ThreeWayUNet_const Qc_one Qc_one Qc_half Qc_one) (zeros [1; 24; 16; 16])).
Proof.
  assert (He : same_encoder (ThreeWayUNet_const Qc_one Qc_one Qc_one Qc_one)
                            (ThreeWayUNet_const Qc_one Qc_one Qc_half Qc_one))
    by (repeat split; reflexivity).
  split; [exact He|].
  destruct (@ThreeWayUNet_group_isolation Qc Scalar_Qc 24 5 true
              (ThreeWayUNet_const Qc_one Qc_one Qc_one Qc_one)
              (ThreeWayUNet_const Qc_one Qc_one Qc_half Qc_one)
              (zeros [1; 24; 16; 16]) He) as (_ & I1 & _ & I3 & _).
  split; [apply I1 | apply I3]; repeat split; reflexivity.
Defined.

(** C7.  [CNet.forward] returns (normal, oi, uv) in this order, where
    (normal0, oi, uv0) are the three heads of [r_unet] (lines 250-259):
    uv is [rnet_uv], the RNet built with 2 and 2 channels, applied to uv0,
    normal is [rnet_normal], the RNet built with 3 and 3 channels, applied to
    normal0, and oi is the head of [r_unet] itself.  For n_oi >= 1, on
    inputs of the reference shapes, at least 16x16, all of these exist. *)
Theorem CNet_refines_normal_and_uv
    (R : Type) (SR : Scalar R) (n_oi : nat) (p : CNet.params R) (x g : tensor R) :
  CNet.forward n_oi p x g
  = match CNet.heads n_oi p x g with
    | Some (normal0, oi, uv0) =>
        match RNet.forward 2 2 (CNet.rnet_uv p) uv0,
              RNet.forward 3 3 (CNet.rnet_normal p) normal0 with
        | Some uv, Some normal => Some (normal, oi, uv)
        | _, _ => None
        end
    | None => None
    end
  /\ (forall B G Cg H W,
        1 <= n_oi ->
        shape x = [B; 21; H; W] -> shape g = [B; G; Cg; H; W] ->
        G = 0 \/ Cg = 17 -> 16 <= H -> 16 <= W ->
        exists normal0 oi uv0 normal uv,
          CNet.heads n_oi p x g = Some (normal0, oi, uv0)
          /\ shape normal0 = [B; 3; H; W] /\ shape uv0 = [B; 2; H; W]
          /\ RNet.forward 2 2 (CNet.rnet_uv p) uv0 = Some uv
          /\ RNet.forward 3 3 (CNet.rnet_normal p) normal0 = Some normal
          /\ CNet.forward n_oi p x g = Some (normal, oi, uv)).
Proof.
  assert (E : CNet.forward n_oi p x g
              = match CNet.heads n_oi p x g with
                | Some (normal0, oi, uv0) =>
                    match RNet.forward 2 2 (CNet.rnet_uv p) uv0,
                          RNet.forward 3 3 (CNet.rnet_normal p) normal0 with
                    | Some uv, Some normal => Some (normal, oi, uv)
                    | _, _ => None
                    end
                | None => None
                end).
  { rewrite CNet_forward_heads.
    destruct (CNet.heads n_oi p x g) as [[[normal0 oi] uv0]|]; [cbn [bind]|reflexivity].
    destruct (RNet.forward 2 2 (CNet.rnet_uv p) uv0); [cbn [bind]|reflexivity].
    now destruct (RNet.forward 3 3 (CNet.rnet_normal p) normal0). }
  split; [exact E|].
  intros B G Cg H W Hn Hx Hg HG HH HW.
  destruct (@CNet_heads_defined R SR n_oi p x g B G Cg H W Hn Hx Hg HG HH HW)
    as (normal0 & oi & uv0 & Eh & Sn & _ & Su).
  assert (H1 : 1 <= H) by lia. assert (W1 : 1 <= W) by lia.
  assert (P2 : 1 <= 2) by lia. assert (P3 : 1 <= 3) by lia.
  destruct (@RNet_defined R SR 2 2 (CNet.rnet_uv p) uv0 B H W P2 P2 Su H1 W1)
    as (uv & Eu & _).
  destruct (@RNet_defined R SR 3 3 (CNet.rnet_normal p) normal0 B H W P3 P3 Sn H1 W1)
    as (normal & En & _).
  exists normal0, oi, uv0, normal, uv.
  rewrite E, Eh, Eu, En. auto 10.
Qed.

(** C8.  [CrystalNet.forward] returns the triple of its [cnet], unchanged;
    it raises exactly when [cnet] does. *)
Theorem CrystalNet_is_CNet
    (R : Type) (SR : Scalar R) (n_oi : nat) (p : CrystalNet.params R)
    (x g : tensor R) :
  CrystalNet.forward n_oi p x g = CNet.forward n_oi (CrystalNet.cnet p) x g.
Proof. apply CrystalNet_unfold. Qed.

(** C9, as amended.  The last step of TNetBackBone, and so of TNet, whose
    last step is [tnet_b], is a ReLU, [x <= 0 ? 0 : x]: every element of
    their output is >= 0 or is a NaN (a value that is not <= itself, which
    the ReLU returns unchanged); this holds in binary32 and in exact
    arithmetic alike.  For scalars without NaN every element is >= 0.  A
    TNetBackBone built with positive channel counts returns such an output
    on every non-empty map with [in_channel] channels.  RNet and UNet end in
    a convolution without activation: over a commutative semiring, with
    zero weights and a negative bias [m] in that last convolution every
    element of their output is [m], which is not >= 0. *)
Theorem TNet_output_nonnegative
    (R : Type) (SR : Scalar R)
    (leb_zero_refl : leb (zero (R := R)) zero = true)
    (leb_zero_cases :
       forall x : R, leb x zero = false -> leb zero x = true \/ leb x x = false) :
  (forall in_channel out_channel p (x : tensor R),
     match TNetBackBone.forward in_channel out_channel p x with
     | Some y => Forall (fun v => nonneg v \/ leb v v = false) (data y)
     | None => True
     end)
  /\ (forall in_channel hidden p (g rx : tensor R),
        match TNet.forward in_channel hidden p g rx with
        | Some y => Forall (fun v => nonneg v \/ leb v v = false) (data y)
        | None => True
        end)
  /\ ((forall v : R, leb v v = true) ->
      (forall in_channel out_channel p (x : tensor R),
         match TNetBackBone.forward in_channel out_channel p x with
         | Some y => Forall nonneg (data y)
         | None => True
         end)
      /\ (forall in_channel hidden p (g rx : tensor R),
            match TNet.forward in_channel hidden p g rx with
            | Some y => Forall nonneg (data y)
            | None => True
            end))
  /\ (forall in_channel out_channel p (x : tensor R) b h w,
        1 <= in_channel -> 1 <= out_channel ->
        shape x = [b; in_channel; h; w] -> 1 <= h -> 1 <= w ->
        exists y, TNetBackBone.forward in_channel out_channel p x = Some y
                  /\ shape y = [b; out_channel; h; w]
                  /\ Forall (fun v => nonneg v \/ leb v v = false) (data y))
  /\ (semi_ring_theory (zero (R := R)) (ratio 1 1) add mul eq ->
      forall m : R, leb zero m = false ->
      (forall in_channel out_channel p (x : tensor R) b h w,
         1 <= in_channel -> 1 <= out_channel ->
         shape x = [b; in_channel; h; w] -> 1 <= h -> 1 <= w ->
         (forall oc c ky kx, RNet.layer3_weight p oc c ky kx = zero) ->
         (forall oc, RNet.layer3_bias p oc = m) ->
         exists y, RNet.forward in_channel out_channel p x = Some y
                   /\ shape y = [b; out_channel; h; w]
                   /\ Forall (fun v => ~ nonneg v) (data y))
      /\ (forall n_channels n_classes p (x : tensor R) b h w,
            1 <= n_channels -> 1 <= n_classes ->
            shape x = [b; n_channels; h; w] -> 16 <= h -> 16 <= w ->
            (forall oc c ky kx, OutConv.weight (UNet.outc p) oc c ky kx = zero) ->
            (forall oc, OutConv.bias (UNet.outc p) oc = m) ->
            exists y, UNet.forward n_channels n_classes true p x = Some y
                      /\ shape y = [b; n_classes; h; w]
                      /\ Forall (fun v => ~ nonneg v) (data y))).
Proof.
  pose proof (relu_nonneg_or_nan leb_zero_refl leb_zero_cases) as RP.
  assert (BB : forall i o p (x y : tensor R),
            TNetBackBone.forward i o p x = Some y ->
            Forall (fun v => nonneg v \/ leb v v = false) (data y)).
  { intros i o p x y E.
    exact (@TNetBackBone_range R SR (fun v => nonneg v \/ leb v v = false) RP i o p x y E). }
  assert (TT : forall i h p (g rx y : tensor R),
            TNet.forward i h p g rx = Some y ->
            Forall (fun v => nonneg v \/ leb v v = false) (data y)).
  { intros i h p g rx y E.
    exact (@TNet_range R SR (fun v => nonneg v \/ leb v v = false) RP i h p g rx y E). }
  split; [|split; [|split; [|split]]].
  - intros i o p x. destruct (TNetBackBone.forward i o p x) as [y|] eqn:E; [|exact I].
    exact (BB i o p x y E).
  - intros i h p g rx. destruct (TNet.forward i h p g rx) as [y|] eqn:E; [|exact I].
    exact (TT i h p g rx y E).
  - intros NoNaN.
    assert (Num : forall l : list R,
              Forall (fun v => nonneg v \/ leb v v = false) l -> Forall nonneg l).
    { intros l F. apply Forall_forall. intros v Hv. rewrite Forall_forall in F.
      destruct (F v Hv) as [N | N]; [exact N|]. rewrite NoNaN in N. discriminate N. }
    split.
    + intros i o p x. destruct (TNetBackBone.forward i o p x) as [y|] eqn:E; [|exact I].
      apply Num. exact (BB i o p x y E).
    + intros i h p g rx. destruct (TNet.forward i h p g rx) as [y|] eqn:E; [|exact I].
      apply Num. exact (TT i h p g rx y E).
  - intros i o p x b h w Hi Ho Hs Hh Hw.
    destruct (@TNetBackBone_defined R SR i o p x b h w Hi Ho Hs Hh Hw) as (y & E & Es).
    exists y. split; [exact E|]. split; [exact Es|]. exact (BB i o p x y E).
  - intros scalar_semiring m m_negative.
    assert (Neg : forall l : list R,
              Forall (fun v => v = m) l -> Forall (fun v => ~ nonneg v) l).
    { intros l F. apply Forall_forall. intros v Hv.
      rewrite Forall_forall in F. rewrite (F v Hv). unfold nonneg. congruence. }
    split.
    + intros i o p x b h w Hi Ho Hs Hh Hw Hwz Hbm.
      destruct (@RNet_defined R SR i o p x b h w Hi Ho Hs Hh Hw) as (y & E & Es).
      exists y. split; [exact E|]. split; [exact Es|].
      apply Neg. exact (@RNet_last_bias R SR scalar_semiring i o p x y m Hwz Hbm E).
    + intros nc ncl p x b h w Hnc Hncl Hs Hh Hw Hwz Hbm.
      destruct (@UNet_defined R SR nc ncl p x b h w Hnc Hncl Hs Hh Hw) as (y & E & Es).
      exists y. split; [exact E|]. split; [exact Es|].
      apply Neg. exact (@UNet_last_bias R SR scalar_semiring nc ncl true p x y m Hwz Hbm E).
Qed.

Lemma TNet_output_nonnegative_witness :
  leb (zero (R := f32)) zero = true
  /\ (forall x : f32, leb x zero = false -> leb zero x = true \/ leb x x = false)
  /\ (exists y,
        TNetBackBone.forward 25 32 (TNet.tnet_f tnet_f32) (zeros [1; 25; 2; 2]) = Some y
        /\ shape y = [1; 32; 2; 2]
        /\ Forall (fun v => nonneg v \/ leb v v = false) (data y))
  /\ match TNet.forward 25 32 tnet_f32 glass_nan_f32 rx_f32 with
     | Some y => Forall (fun v => nonneg v \/ leb v v = false) (data y)
     | None => True
     end.
Proof.
  split; [exact f32_leb_zero_refl|]. split; [exact f32_leb_zero_cases|].
  destruct (@TNet_output_nonnegative f32 Scalar_f32 f32_leb_zero_refl f32_leb_zero_cases)
    as (_ & T & _ & D & _).
  split.
  - apply (D 25 32 (TNet.tnet_f tnet_f32) (zeros [1; 25; 2; 2]) 1 2 2);
      [lia | lia | reflexivity | lia | lia].
  - apply T.
Defined.

(** C9, as stated, fails in binary32: a NaN in the glass tensor passes the
    convolutions and every ReLU, so the output of TNet holds a NaN, which is
    not >= 0. *)
Lemma TNet_output_nan_f32 :
  option_map (fun y => get4 y 0 0 0 0) (TNet.forward 25 32 tnet_f32 glass_nan_f32 rx_f32)
  = Some S754_nan
  /\ nonneg (R := f32) S754_nan = (false = true)
  /\ match TNet.forward 25 32 tnet_f32 glass_nan_f32 rx_f32 with
     | Some y => ~ Forall nonneg (data y)
     | None => False
     end.
Proof.
  assert (E : option_map (fun y => get4 y 0 0 0 0)
                (TNet.forward 25 32 tnet_f32 glass_nan_f32 rx_f32)
              = Some S754_nan) by (vm_compute; reflexivity).
  split; [exact E|]. split; [reflexivity|].
  destruct (TNet.forward 25 32 tnet_f32 glass_nan_f32 rx_f32) as [y|] eqn:Ey;
    [|discriminate E].
  cbn [option_map] in E. injection E as E.
  intros F. rewrite Forall_forall in F. unfold get4, get in E.
  destruct (nth_in_or_default (offset (shape y) [0; 0; 0; 0]) (data y) zero) as [I | D].
  - rewrite E in I. specialize (F _ I). discriminate F.
  - rewrite E in D. discriminate D.
Qed.




(** * Further properties of the modules *)

(** ** Which inputs the blocks accept *)

Lemma DoubleConv_shape_inv (i o : nat) (m : option nat) (s s' : list nat) :
  DoubleConv.forward_shape i o m s = Some s' ->
  exists B H W,
    s = [B; i; H; W] /\ 1 <= i /\ 1 <= o /\ 1 <= H /\ 1 <= W /\ s' = [B; o; H; W].
Proof.
  unfold DoubleConv.forward_shape. intros E.
  destruct (conv2d_shape i (DoubleConv.mid_of o m) 3 1 s) as [s1|] eqn:E1;
    [cbn [bind] in E|discriminate].
  pose proof E1 as P1. apply conv2d_shape_pos in P1 as [Hi _].
  pose proof E as P2. apply conv2d_shape_pos in P2 as [_ Ho].
  apply conv2d_shape_inv in E1 as (B & H & W & -> & HH & HW & ->).
  apply conv2d_shape_inv in E as (B2 & H2 & W2 & Q & _ & _ & ->).
  injection Q as <- <- <-.
  exists B, H, W. repeat split; try lia. repeat f_equal; lia.
Qed.

Lemma max_pool2d_shape_inv (s s' : list nat) :
  max_pool2d_shape s = Some s' ->
  exists B C H W,
    s = [B; C; H; W] /\ 1 <= C /\ 2 <= H /\ 2 <= W /\ s' = [B; C; H / 2; W / 2].
Proof.
  unfold max_pool2d_shape. destruct s as [|B [|C [|H [|W [|? ?]]]]]; try discriminate.
  destruct ((1 <=? C) && (1 <=? H / 2) && (1 <=? W / 2)) eqn:E; [|discriminate].
  intros Q. injection Q as <-.
  apply andb_prop in E as [E EW]. apply andb_prop in E as [EC EH].
  apply Nat.leb_le in EC, EH, EW.
  pose proof (half_bounds H). pose proof (half_bounds W).
  exists B, C, H, W. repeat split; lia.
Qed.

Lemma Down_shape_inv (i o : nat) (s s' : list nat) :
  Down.forward_shape i o s = Some s' ->
  exists B H W,
    s = [B; i; H; W] /\ 1 <= i /\ 1 <= o /\ 2 <= H /\ 2 <= W
    /\ s' = [B; o; H / 2; W / 2].
Proof.
  unfold Down.forward_shape. intros E.
  destruct (max_pool2d_shape s) as [s1|] eqn:E1; [cbn [bind] in E|discriminate].
  apply max_pool2d_shape_inv in E1 as (B & C & H & W & -> & _ & HH & HW & ->).
  apply DoubleConv_shape_inv in E as (B2 & H2 & W2 & Q & Hi & Ho & _ & _ & ->).
  injection Q as <- <- <- <-.
  exists B, H, W. auto 10.
Qed.

Lemma pad_to_shape_any (b c h1 w1 s0 s1 h2 w2 : nat) :
  Up.pad_to_shape [b; c; h1; w1] [s0; s1; h2; w2] = Some [b; c; h2; w2].
Proof.
  unfold Up.pad_to_shape, Up.pad_split, pad_shape.
  cbn [nth_error bind fst snd].
  set (dY := (Z.of_nat h2 - Z.of_nat h1)%Z).
  set (dX := (Z.of_nat w2 - Z.of_nat w1)%Z).
  replace (Z.of_nat h1 + dY / 2 + (dY - dY / 2))%Z with (Z.of_nat h2) by (subst dY; lia).
  replace (Z.of_nat w1 + dX / 2 + (dX - dX / 2))%Z with (Z.of_nat w2) by (subst dX; lia).
  replace (0 <=? Z.of_nat h2)%Z with true by (symmetry; apply Z.leb_le; lia).
  replace (0 <=? Z.of_nat w2)%Z with true by (symmetry; apply Z.leb_le; lia).
  cbn [andb]. now rewrite !Nat2Z.inj_iff || now rewrite !Nat2Z.id.
Qed.

(** an Up block in transposed-convolution mode: the transposed convolution
    needs a non-empty map and [in_channels // 2 >= 1] *)
Lemma Up_shape_ok_transposed (i o b h1 w1 c2 h2 w2 : nat) :
  c2 + i / 2 = i -> 2 <= i -> 1 <= o -> 1 <= h1 -> 1 <= w1 -> 1 <= h2 -> 1 <= w2 ->
  Up.forward_shape i o false [b; i; h1; w1] [b; c2; h2; w2] = Some [b; o; h2; w2].
Proof.
  intros Hc Hi Ho Hh1 Hw1 Hh2 Hw2.
  unfold Up.forward_shape, Up.up_shape, conv_transpose2d_shape.
  pose proof (half_bounds i).
  rewrite Nat.eqb_refl, !leb_true by lia. cbn [andb bind].
  rewrite pad_to_shape_any. cbn [bind].
  rewrite cat1_shape_ok. cbn [bind]. rewrite Hc.
  apply DoubleConv_shape_ok; lia.
Qed.

Lemma UNet_shape_ok_transposed (n_channels n_classes b h w : nat) :
  1 <= n_channels -> 1 <= n_classes -> 16 <= h -> 16 <= w ->
  UNet.forward_shape n_channels n_classes false [b; n_channels; h; w]
  = Some [b; n_classes; h; w].
Proof.
  intros Hnc Hncl Hh Hw. unfold UNet.forward_shape.
  change (512 / factor false) with 512. change (256 / factor false) with 256.
  change (128 / factor false) with 128. change (64 / factor false) with 64.
  halves4 h. halves4 w.
  rewrite DoubleConv_shape_ok by lia. cbn [bind].
  rewrite Down_shape_ok by lia. cbn [bind].
  rewrite Down_shape_ok by lia. cbn [bind].
  rewrite Down_shape_ok by lia. cbn [bind].
  rewrite Down_shape_ok by lia. cbn [bind].
  rewrite Up_shape_ok_transposed by (reflexivity || lia). cbn [bind].
  rewrite Up_shape_ok_transposed by (reflexivity || lia). cbn [bind].
  rewrite Up_shape_ok_transposed by (reflexivity || lia). cbn [bind].
  rewrite Up_shape_ok_transposed by (reflexivity || lia). cbn [bind].
  apply conv2d_shape_ok; (reflexivity || lia).
Qed.

Lemma UNet_shape_ok_any (n_channels n_classes : nat) (bilinear : bool) (b h w : nat) :
  1 <= n_channels -> 1 <= n_classes -> 16 <= h -> 16 <= w ->
  UNet.forward_shape n_channels n_classes bilinear [b; n_channels; h; w]
  = Some [b; n_classes; h; w].
Proof.
  destruct bilinear; [apply UNet_shape_ok | apply UNet_shape_ok_transposed].
Qed.

(** the last convolution of a UNet needs an output channel *)
Lemma UNet_shape_classes (n_channels n_classes : nat) (bilinear : bool) (s s' : list nat) :
  UNet.forward_shape n_channels n_classes bilinear s = Some s' -> 1 <= n_classes.
Proof.
  unfold UNet.forward_shape. intros E.
  repeat match type of E with
  | bind ?c _ = Some _ => destruct c; [cbn [bind] in E|discriminate]
  end.
  unfold OutConv.forward_shape in E. now apply conv2d_shape_pos in E.
Qed.

(** four poolings need a map of at least 16 x 16 *)
Lemma UNet_shape_inv (n_channels n_classes : nat) (bilinear : bool) (s s' : list nat) :
  UNet.forward_shape n_channels n_classes bilinear s = Some s' ->
  exists B H W, s = [B; n_channels; H; W] /\ 1 <= n_channels /\ 1 <= n_classes
                /\ 16 <= H /\ 16 <= W /\ s' = [B; n_classes; H; W].
Proof.
  intros E. pose proof E as E0. pose proof (UNet_shape_classes _ _ _ _ E) as Hncl.
  unfold UNet.forward_shape in E.
  destruct (DoubleConv.forward_shape n_channels 32 None s) as [s1|] eqn:E1;
    [cbn [bind] in E|discriminate].
  destruct (Down.forward_shape 32 64 s1) as [s2|] eqn:E2; [cbn [bind] in E|discriminate].
  destruct (Down.forward_shape 64 128 s2) as [s3|] eqn:E3; [cbn [bind] in E|discriminate].
  destruct (Down.forward_shape 128 256 s3) as [s4|] eqn:E4; [cbn [bind] in E|discriminate].
  destruct (Down.forward_shape 256 (512 / factor bilinear) s4) as [s5|] eqn:E5;
    [cbn [bind] in E|discriminate].
  clear E.
  apply DoubleConv_shape_inv in E1 as (B & H & W & -> & Hnc & _ & _ & _ & ->).
  apply Down_shape_inv in E2 as (B2 & H2 & W2 & Q2 & _ & _ & _ & _ & ->).
  injection Q2 as <- <- <-.
  apply Down_shape_inv in E3 as (B3 & H3 & W3 & Q3 & _ & _ & _ & _ & ->).
  injection Q3 as <- <- <-.
  apply Down_shape_inv in E4 as (B4 & H4 & W4 & Q4 & _ & _ & _ & _ & ->).
  injection Q4 as <- <- <-.
  apply Down_shape_inv in E5 as (B5 & H5 & W5 & Q5 & _ & _ & HH & HW & ->).
  injection Q5 as <- <- <-.
  change (2 <= H / 2 / 2 / 2) in HH. change (2 <= W / 2 / 2 / 2) in HW.
  halves4 H. halves4 W.
  assert (H16 : 16 <= H) by lia. assert (W16 : 16 <= W) by lia.
  exists B, H, W. repeat split; try assumption.
  rewrite UNet_shape_ok_any in E0 by assumption. now injection E0.
Qed.

Section BlockContracts.
Context {R : Type} {SR : Scalar R}.

Lemma Down_defined i o p (x : tensor R) B H W :
  1 <= i -> 1 <= o -> shape x = [B; i; H; W] -> 2 <= H -> 2 <= W ->
  exists y, Down.forward i o p x = Some y /\ shape y = [B; o; H / 2; W / 2].
Proof.
  intros Hi Ho Hs HH HW. apply sim_some. rewrite Down_sim, Hs. now apply Down_shape_ok.
Qed.

Lemma sim_some_inv (A S : Type) (pr : A -> S) (m : option A) (ms : option S) (a : A) :
  option_map pr m = ms -> m = Some a -> ms = Some (pr a).
Proof. intros <- ->. reflexivity. Qed.
End BlockContracts.

(** X1.  The padding step of [Up.forward] (lines 60-64) always returns a map
    of the spatial size of the skip [x2], whatever the two sizes are.  When
    the upsampled [x1] is the larger one the differences are negative and
    F.pad crops: as [//] rounds down, (H1 - H2 + 1) // 2 rows are cut on the
    low side and the rest on the high side (likewise for columns). *)
Theorem Up_pad_to_crops_or_pads
    (R : Type) (SR : Scalar R) (x1 x2 : tensor R)
    (B C H1 W1 B2 C2 H2 W2 : nat) :
  shape x1 = [B; C; H1; W1] ->
  shape x2 = [B2; C2; H2; W2] ->
  exists t,
    Up.pad_to x1 x2 = Some t
    /\ shape t = [B; C; H2; W2]
    /\ (forall b c y x, b < B -> c < C -> y < H2 -> x < W2 ->
          get4 t b c y x
          = getz x1 H1 W1 b c
              (Z.of_nat y - (Z.of_nat H2 - Z.of_nat H1) / 2)
              (Z.of_nat x - (Z.of_nat W2 - Z.of_nat W1) / 2))
    /\ (H2 <= H1 -> W2 <= W1 ->
        forall b c y x, b < B -> c < C -> y < H2 -> x < W2 ->
          get4 t b c y x
          = get4 x1 b c (y + (H1 - H2 + 1) / 2) (x + (W1 - W2 + 1) / 2)).
Proof.
  intros Hs1 Hs2.
  pose proof (Up_pad_to_sim x1 x2) as E.
  rewrite Hs1, Hs2, pad_to_shape_any in E.
  apply sim_some in E as (t & Et & Est). exists t. split; [exact Et|]. split; [exact Est|].
  assert (V : forall b c y x, b < B -> c < C -> y < H2 -> x < W2 ->
            get4 t b c y x
            = getz x1 H1 W1 b c
                (Z.of_nat y - (Z.of_nat H2 - Z.of_nat H1) / 2)
                (Z.of_nat x - (Z.of_nat W2 - Z.of_nat W1) / 2)).
  { intros b c y x Hb Hc Hy Hx.
    unfold Up.pad_to, dim in Et. rewrite Hs1, Hs2 in Et. cbn [nth_error bind] in Et.
    unfold pad in Et. rewrite Hs1 in Et.
    destruct (pad_shape _ _ _ _ _) as [s|]; [cbn [bind] in Et|discriminate].
    injection Et as <-. cbn [shape build] in Est. subst s.
    unfold get4 at 1. rewrite get_build by (repeat constructor; assumption).
    reflexivity. }
  split; [exact V|].
  intros HH HW b c y x Hb Hc Hy Hx. rewrite V by assumption.
  assert (D : forall a d : nat, d <= a ->
            ((Z.of_nat d - Z.of_nat a) / 2 = - Z.of_nat ((a - d + 1) / 2))%Z).
  { intros a d Hda.
    pose proof (half_bounds (a - d + 1)) as Hb2.
    assert (Hq : ((Z.of_nat d - Z.of_nat a)
                  = 2 * (- Z.of_nat ((a - d + 1) / 2))
                    + (2 * Z.of_nat ((a - d + 1) / 2) - Z.of_nat (a - d)))%Z) by lia.
    symmetry. apply (Z.div_unique_pos _ 2 _
      (2 * Z.of_nat ((a - d + 1) / 2) - Z.of_nat (a - d))%Z); lia. }
  rewrite (D H1 H2 HH), (D W1 W2 HW).
  set (ky := (H1 - H2 + 1) / 2). set (kx := (W1 - W2 + 1) / 2).
  pose proof (half_bounds (H1 - H2 + 1)). pose proof (half_bounds (W1 - W2 + 1)).
  fold ky in H. fold kx in H0.
  unfold getz.
  replace ((0 <=? Z.of_nat y - - Z.of_nat ky)
           && (Z.of_nat y - - Z.of_nat ky <? Z.of_nat H1)
           && (0 <=? Z.of_nat x - - Z.of_nat kx)
           && (Z.of_nat x - - Z.of_nat kx <? Z.of_nat W1))%Z with true.
  2:{ symmetry. rewrite !andb_true_iff, !Z.leb_le, !Z.ltb_lt. lia. }
  f_equal; lia.
Qed.

Lemma Up_pad_to_crops_or_pads_witness :
  shape (zeros (R := Qc) [1; 2; 9; 9]) = [1; 2; 9; 9]
  /\ shape (zeros (R := Qc) [1; 3; 8; 8]) = [1; 3; 8; 8]
  /\ exists t,
       Up.pad_to (zeros (R := Qc) [1; 2; 9; 9]) (zeros [1; 3; 8; 8]) = Some t
       /\ shape t = [1; 2; 8; 8].
Proof.
  split; [reflexivity|]. split; [reflexivity|].
  destruct (@Up_pad_to_crops_or_pads Qc Scalar_Qc (zeros [1; 2; 9; 9]) (zeros [1; 3; 8; 8])
              1 2 9 9 1 3 8 8 eq_refl eq_refl) as (t & Et & Est & _).
  exists t. split; assumption.
Defined.

(** X2.  For a Down block built with positive channel counts and a batched
    map (B, C, H, W), [Down.forward] returns a result exactly when C is
    [in_channels] and the map has at least 2 x 2 pixels (MaxPool2d raises on
    an output of size zero); the result has [out_channels] channels and both
    spatial sizes halved, rounding down. *)
Theorem Down_halves_or_raises
    (R : Type) (SR : Scalar R) (in_channels out_channels : nat)
    (p : Down.params R) (x : tensor R) (B C H W : nat) :
  1 <= in_channels -> 1 <= out_channels ->
  shape x = [B; C; H; W] ->
  ((exists y, Down.forward in_channels out_channels p x = Some y)
   <-> (C = in_channels /\ 2 <= H /\ 2 <= W))
  /\ (forall y, Down.forward in_channels out_channels p x = Some y ->
        shape y = [B; out_channels; H / 2; W / 2]).
Proof.
  intros Hi Ho Hs.
  assert (I : forall y, Down.forward in_channels out_channels p x = Some y ->
              (C = in_channels /\ 2 <= H /\ 2 <= W)
              /\ shape y = [B; out_channels; H / 2; W / 2]).
  { intros y E.
    pose proof (sim_some_inv (@shape R) (Down_sim in_channels out_channels p x) E) as Es.
    apply Down_shape_inv in Es as (B' & H' & W' & Hx & _ & _ & HH & HW & Hy).
    rewrite Hs in Hx. injection Hx as -> -> -> ->. auto. }
  split; [split|].
  - intros (y & E). apply (I y E).
  - intros (-> & HH & HW).
    destruct (@Down_defined R SR in_channels out_channels p x B H W Hi Ho Hs HH HW)
      as (y & E & _).
    now exists y.
  - intros y E. apply (I y E).
Qed.

Lemma Down_halves_or_raises_witness :
  1 <= 3 /\ 1 <= 8
  /\ shape (zeros (R := Qc) [1; 3; 5; 4]) = [1; 3; 5; 4]
  /\ exists y,
       Down.forward 3 8 (Down_const Qc_one) (zeros [1; 3; 5; 4]) = Some y
       /\ shape y = [1; 8; 2; 2].
Proof.
  split; [lia|]. split; [lia|]. split; [reflexivity|].
  destruct (@Down_halves_or_raises Qc Scalar_Qc 3 8 (Down_const Qc_one)
              (zeros [1; 3; 5; 4]) 1 3 5 4) as ((_ & D) & Hy);
    [lia | lia | reflexivity |].
  destruct D as (y & E); [repeat split; lia|].
  exists y. split; [exact E | exact (Hy y E)].
Defined.

(** X3.  An Up block undoes the halving of a Down block, for blocks built
    with positive channel counts: for a map [x] of at least 2 x 2 pixels,
    odd sizes included, [Down.forward] gives a map of size H // 2 x W // 2
    and [Up.forward] on it, with [x] as the skip, gives a map of the size
    H x W of [x] again; in bilinear mode the Up block is built for the
    channels of both maps together, in transposed mode for those of the
    coarse map (at least 2, so that its transposed convolution has an output
    channel), half of which replace the skip's share. *)
Theorem Up_after_Down_restores_size
    (R : Type) (SR : Scalar R) (c c' in_channels out_channels : nat) (bilinear : bool)
    (dp : Down.params R) (up : Up.params R) (x : tensor R) (B H W : nat) :
  1 <= c -> 1 <= c' -> 1 <= out_channels ->
  shape x = [B; c; H; W] -> 2 <= H -> 2 <= W ->
  (bilinear = true /\ in_channels = c + c')
  \/ (bilinear = false /\ in_channels = c' /\ c + c' / 2 = c' /\ 2 <= c') ->
  exists d u,
    Down.forward c c' dp x = Some d
    /\ shape d = [B; c'; H / 2; W / 2]
    /\ Up.forward in_channels out_channels bilinear up d x = Some u
    /\ shape u = [B; out_channels; H; W].
Proof.
  intros Hc Hc' Ho Hs HH HW Hmode.
  destruct (@Down_defined R SR c c' dp x B H W Hc Hc' Hs HH HW) as (d & Ed & Esd).
  exists d.
  assert (U : exists u, Up.forward in_channels out_channels bilinear up d x = Some u
                        /\ shape u = [B; out_channels; H; W]).
  { apply sim_some. rewrite Up_sim, Hs, Esd.
    pose proof (half_bounds H). pose proof (half_bounds W).
    destruct Hmode as [(-> & ->) | (-> & -> & Hcc & H2)].
    - apply Up_shape_ok; lia.
    - apply Up_shape_ok_transposed; lia. }
  destruct U as (u & Eu & Esu). exists u. auto.
Qed.

Lemma Up_after_Down_restores_size_witness :
  1 <= 32 /\ 1 <= 64
  /\ shape (zeros (R := Qc) [1; 32; 17; 9]) = [1; 32; 17; 9]
  /\ 2 <= 17 /\ 2 <= 9
  /\ exists d u,
       Down.forward 32 64 (Down_const Qc_one) (zeros [1; 32; 17; 9]) = Some d
       /\ shape d = [1; 64; 8; 4]
       /\ Up.forward 96 32 true (Up_const Qc_one) d (zeros [1; 32; 17; 9]) = Some u
       /\ shape u = [1; 32; 17; 9].
Proof.
  split; [lia|]. split; [lia|].
  split; [reflexivity|]. split; [lia|]. split; [lia|].
  apply (@Up_after_Down_restores_size Qc Scalar_Qc 32 64 96 32 true
           (Down_const Qc_one) (Up_const Qc_one) (zeros [1; 32; 17; 9]) 1 17 9);
    [lia | lia | lia | reflexivity | lia | lia | left; split; reflexivity].
Defined.

(** X4.  For a UNet built with positive channel counts and a batched map
    (B, C, H, W), [UNet.forward], in bilinear and in transposed-convolution
    mode alike, returns a result exactly when C is [n_channels] and the map
    has at least 16 x 16 pixels: four poolings leave one pixel of a side of
    16.  The result has [n_classes] channels and the spatial size of the
    input, whether the sizes are powers of two or not. *)
Theorem UNet_needs_16_by_16
    (R : Type) (SR : Scalar R) (n_channels n_classes : nat) (bilinear : bool)
    (p : UNet.params R) (x : tensor R) (B C H W : nat) :
  1 <= n_channels -> 1 <= n_classes ->
  shape x = [B; C; H; W] ->
  ((exists y, UNet.forward n_channels n_classes bilinear p x = Some y)
   <-> (C = n_channels /\ 16 <= H /\ 16 <= W))
  /\ (forall y, UNet.forward n_channels n_classes bilinear p x = Some y ->
        shape y = [B; n_classes; H; W]).
Proof.
  intros Hnc Hncl Hs.
  assert (I : forall y, UNet.forward n_channels n_classes bilinear p x = Some y ->
              (C = n_channels /\ 16 <= H /\ 16 <= W)
              /\ shape y = [B; n_classes; H; W]).
  { intros y E.
    pose proof (sim_some_inv (@shape R) (UNet_sim n_channels n_classes bilinear p x) E)
      as Es.
    apply UNet_shape_inv in Es as (B' & H' & W' & Hx & _ & _ & HH & HW & Hy).
    rewrite Hs in Hx. injection Hx as -> -> -> ->. auto. }
  split; [split|].
  - intros (y & E). apply (I y E).
  - intros (-> & HH & HW).
    assert (D : exists y, UNet.forward n_channels n_classes bilinear p x = Some y
                          /\ shape y = [B; n_classes; H; W]).
    { apply sim_some. rewrite UNet_sim, Hs. now apply UNet_shape_ok_any. }
    destruct D as (y & E & _). now exists y.
  - intros y E. apply (I y E).
Qed.

Lemma UNet_needs_16_by_16_witness :
  1 <= 3 /\ 1 <= 2
  /\ shape (zeros (R := Qc) [1; 3; 17; 16]) = [1; 3; 17; 16]
  /\ exists y,
       UNet.forward 3 2 false (UNet_const Qc_one) (zeros [1; 3; 17; 16]) = Some y
       /\ shape y = [1; 2; 17; 16].
Proof.
  split; [lia|]. split; [lia|]. split; [reflexivity|].
  destruct (@UNet_needs_16_by_16 Qc Scalar_Qc 3 2 false (UNet_const Qc_one)
              (zeros [1; 3; 17; 16]) 1 3 17 16) as ((_ & D) & Hy);
    [lia | lia | reflexivity |].
  destruct D as (y & E); [repeat split; lia|].
  exists y. split; [exact E | exact (Hy y E)].
Defined.

(** ** The heads of ThreeWayUNet as UNets *)

(** whether a convolution raises does not depend on the number of its
    output channels, as long as there is one *)
Lemma conv2d_shape_channels (i o o' k p : nat) (s : list nat) :
  1 <= o -> 1 <= o' ->
  conv2d_shape i o k p s = None <-> conv2d_shape i o' k p s = None.
Proof.
  intros Ho Ho'. unfold conv2d_shape.
  destruct s as [|B [|C [|H [|W [|? ?]]]]]; try tauto.
  rewrite (leb_true Ho), (leb_true Ho').
  destruct (_ && _); split; intros; congruence.
Qed.

Lemma group_shape_classes (c c' : nat) (bilinear : bool) (s1 s2 s3 s4 s5 : list nat) :
  1 <= c -> 1 <= c' ->
  ThreeWayUNet.group_shape c bilinear s1 s2 s3 s4 s5 = None
  <-> ThreeWayUNet.group_shape c' bilinear s1 s2 s3 s4 s5 = None.
Proof.
  intros Hc Hc'. unfold ThreeWayUNet.group_shape.
  destruct (Up.forward_shape 512 _ _ s5 s4) as [t1|]; [cbn [bind]|tauto].
  destruct (Up.forward_shape 256 _ _ t1 s3) as [t2|]; [cbn [bind]|tauto].
  destruct (Up.forward_shape 128 _ _ t2 s2) as [t3|]; [cbn [bind]|tauto].
  destruct (Up.forward_shape 64 _ _ t3 s1) as [t4|]; [cbn [bind]|tauto].
  now apply conv2d_shape_channels.
Qed.

Section HeadsAsUNets.
Context {R : Type} {SR : Scalar R}.

(** whether a ladder raises depends neither on its parameters nor on the
    number of its output channels, as long as there is one *)
Lemma decoder_group_defined_any c c' bilinear u0 u1 u2 u3 oc u0' u1' u2' u3' oc'
    (m : @maps R) :
  1 <= c -> 1 <= c' ->
  decoder_group c bilinear u0 u1 u2 u3 oc m = None <->
  decoder_group c' bilinear u0' u1' u2' u3' oc' m = None.
Proof.
  intros Hc Hc'. destruct m as [[[[x1 x2] x3] x4] x5].
  pose proof (decoder_group_sim c bilinear u0 u1 u2 u3 oc x1 x2 x3 x4 x5) as E1.
  pose proof (decoder_group_sim c' bilinear u0' u1' u2' u3' oc' x1 x2 x3 x4 x5) as E2.
  pose proof (group_shape_classes bilinear (shape x1) (shape x2) (shape x3)
                (shape x4) (shape x5) Hc Hc') as G.
  destruct (decoder_group c bilinear u0 u1 u2 u3 oc _),
           (decoder_group c' bilinear u0' u1' u2' u3' oc' _);
    cbn [option_map] in E1, E2; rewrite <- E1, <- E2 in G;
    split; intros Q; try discriminate Q; try reflexivity.
  - destruct G as [_ G]. discriminate (G eq_refl).
  - destruct G as [G _]. discriminate (G eq_refl).
Qed.

Lemma UNet_as_encoder_and_group n_channels n_classes bilinear (p : UNet.params R) x :
  UNet.forward n_channels n_classes bilinear p x
  = (x1 <- DoubleConv.forward n_channels 32 None (UNet.inc p) x ;;
     x2 <- Down.forward 32 64 (UNet.down1 p) x1 ;;
     x3 <- Down.forward 64 128 (UNet.down2 p) x2 ;;
     x4 <- Down.forward 128 256 (UNet.down3 p) x3 ;;
     x5 <- Down.forward 256 (512 / factor bilinear) (UNet.down4 p) x4 ;;
     decoder_group n_classes bilinear (UNet.up1 p) (UNet.up2 p) (UNet.up3 p)
       (UNet.up4 p) (UNet.outc p) (x1, x2, x3, x4, x5)).
Proof. reflexivity. Qed.

Lemma pick_first (a b c : option (tensor R)) :
  (a = None <-> b = None) -> (a = None <-> c = None) ->
  option_map (@out1 R) (o1 <- a ;; o2 <- b ;; o3 <- c ;; Some (o1, o2, o3)) = a.
Proof.
  intros Hb Hc. destruct a, b, c; cbn; try reflexivity; exfalso;
    try (destruct Hb as [Hb1 Hb2]; (discriminate (Hb1 eq_refl) || discriminate (Hb2 eq_refl)));
    try (destruct Hc as [Hc1 Hc2]; (discriminate (Hc1 eq_refl) || discriminate (Hc2 eq_refl))).
Qed.

Lemma pick_second (a b c : option (tensor R)) :
  (b = None <-> a = None) -> (b = None <-> c = None) ->
  option_map (@out2 R) (o1 <- a ;; o2 <- b ;; o3 <- c ;; Some (o1, o2, o3)) = b.
Proof.
  intros Ha Hc. destruct a, b, c; cbn; try reflexivity; exfalso;
    try (destruct Ha as [Ha1 Ha2]; (discriminate (Ha1 eq_refl) || discriminate (Ha2 eq_refl)));
    try (destruct Hc as [Hc1 Hc2]; (discriminate (Hc1 eq_refl) || discriminate (Hc2 eq_refl))).
Qed.

Lemma pick_third (a b c : option (tensor R)) :
  (c = None <-> a = None) -> (c = None <-> b = None) ->
  option_map (@out3 R) (o1 <- a ;; o2 <- b ;; o3 <- c ;; Some (o1, o2, o3)) = c.
Proof.
  intros Ha Hb. destruct a, b, c; cbn; try reflexivity; exfalso;
    try (destruct Ha as [Ha1 Ha2]; (discriminate (Ha1 eq_refl) || discriminate (Ha2 eq_refl)));
    try (destruct Hb as [Hb1 Hb2]; (discriminate (Hb1 eq_refl) || discriminate (Hb2 eq_refl))).
Qed.
End HeadsAsUNets.

(** X5.  For n_classes >= 1, each head of [ThreeWayUNet.forward] is the
    output of a UNet: the UNet whose encoder is the shared encoder and whose
    decoder is that group, with 3, [n_classes] and 2 classes for the heads
    normal, oi and uv; the ThreeWayUNet raises exactly when these UNets
    do. *)
Theorem ThreeWayUNet_heads_are_UNets
    (R : Type) (SR : Scalar R) (n_channels n_classes : nat) (bilinear : bool)
    (q : ThreeWayUNet.params R) (x : tensor R) :
  1 <= n_classes ->
  option_map out1 (ThreeWayUNet.forward n_channels n_classes bilinear q x)
  = UNet.forward n_channels 3 bilinear (UNet_of_group_1 q) x
  /\ option_map out2 (ThreeWayUNet.forward n_channels n_classes bilinear q x)
     = UNet.forward n_channels n_classes bilinear (UNet_of_group_2 q) x
  /\ option_map out3 (ThreeWayUNet.forward n_channels n_classes bilinear q x)
     = UNet.forward n_channels 2 bilinear (UNet_of_group_3 q) x.
Proof.
  intros Hncl.
  rewrite forward_groups, !UNet_as_encoder_and_group.
  unfold encoder, UNet_of_group_1, UNet_of_group_2, UNet_of_group_3.
  cbn [UNet.inc UNet.down1 UNet.down2 UNet.down3 UNet.down4
       UNet.up1 UNet.up2 UNet.up3 UNet.up4 UNet.outc].
  destruct (DoubleConv.forward _ _ _ _ _) as [x1|]; [cbn [bind]|auto].
  destruct (Down.forward 32 _ _ _) as [x2|]; [cbn [bind]|auto].
  destruct (Down.forward 64 _ _ _) as [x3|]; [cbn [bind]|auto].
  destruct (Down.forward 128 _ _ _) as [x4|]; [cbn [bind]|auto].
  destruct (Down.forward 256 _ _ _) as [x5|]; [cbn [bind]|auto].
  unfold group_1, group_2, group_3.
  assert (P3 : 1 <= 3) by lia. assert (P2 : 1 <= 2) by lia.
  split; [|split].
  - apply pick_first; now apply decoder_group_defined_any.
  - apply pick_second; now apply decoder_group_defined_any.
  - apply pick_third; now apply decoder_group_defined_any.
Qed.

Lemma ThreeWayUNet_heads_are_UNets_witness :
  1 <= 5
  /\ option_map out2
       (ThreeWayUNet.forward 24 5 true (ThreeWayUNet_const Qc_one Qc_one Qc_half Qc_one)
          (zeros [1; 24; 16; 16]))
     = UNet.forward 24 5 true
         (UNet_of_group_2 (ThreeWayUNet_const Qc_one Qc_one Qc_half Qc_one))
         (zeros [1; 24; 16; 16])
  /\ exists y,
       UNet.forward 24 5 true
         (UNet_of_group_2 (ThreeWayUNet_const Qc_one Qc_one Qc_half Qc_one))
         (zeros [1; 24; 16; 16]) = Some y
       /\ shape y = [1; 5; 16; 16].
Proof.
  split; [lia|].
  destruct (@ThreeWayUNet_heads_are_UNets Qc Scalar_Qc 24 5 true
              (ThreeWayUNet_const Qc_one Qc_one Qc_half Qc_one) (zeros [1; 24; 16; 16]))
    as (_ & E2 & _); [lia|].
  split; [exact E2|].
  apply UNet_defined; [lia | lia | reflexivity | lia | lia].
Defined.

(** ** Which inputs RNet, TNet and CNet accept *)

Lemma RNet_shape_inv (i o : nat) (s s' : list nat) :
  RNet.forward_shape i o s = Some s' ->
  exists B H W, s = [B; i; H; W] /\ 1 <= i /\ 1 <= o /\ 1 <= H /\ 1 <= W
               /\ s' = [B; o; H; W].
Proof.
  unfold RNet.forward_shape. intros E.
  destruct (conv2d_shape i 32 5 2 s) as [s1|] eqn:E1; [cbn [bind] in E|discriminate].
  destruct (conv2d_shape 32 64 3 1 s1) as [s2|] eqn:E2; [cbn [bind] in E|discriminate].
  destruct (conv2d_shape 64 32 3 1 s2) as [s3|] eqn:E3; [cbn [bind] in E|discriminate].
  pose proof (conv2d_shape_pos _ _ _ _ _ E1) as [Hi _].
  pose proof (conv2d_shape_pos _ _ _ _ _ E) as [_ Ho].
  apply conv2d_shape_inv in E1 as (B & H & W & -> & HH & HW & ->).
  apply conv2d_shape_inv in E2 as (B2 & H2 & W2 & Q2 & _ & _ & ->).
  apply conv2d_shape_inv in E3 as (B3 & H3 & W3 & Q3 & _ & _ & ->).
  apply conv2d_shape_inv in E as (B4 & H4 & W4 & Q4 & _ & _ & ->).
  injection Q2 as <- <- <-. injection Q3 as <- <- <-. injection Q4 as <- <- <-.
  exists B, H, W. repeat split; try lia. repeat f_equal; lia.
Qed.

Lemma fold_step_shape_none i h sg srx (l : list nat) :
  fold_left (TNet.step_shape i h sg srx) l None = None.
Proof. induction l as [|k l IH]; [reflexivity | exact IH]. Qed.

(** with at least one glass slice the first term is computed *)
Lemma TNet_shape_inv (in_channel hidden B G C H W : nat) (srx s' : list nat) :
  1 <= G ->
  TNet.forward_shape in_channel hidden [B; G; C; H; W] srx = Some s' ->
  exists crx, srx = [B; crx; H; W] /\ crx + C = in_channel
             /\ 1 <= in_channel /\ 1 <= hidden /\ 1 <= H /\ 1 <= W.
Proof.
  intros HG E. unfold TNet.forward_shape in E. cbn [nth_error rev app bind] in E.
  destruct G as [|G']; [lia|]. cbn [seq fold_left] in E.
  destruct (TNet.step_shape in_channel hidden [B; S G'; C; H; W] srx
              (Some [B; hidden; H; W]) 0) as [r|] eqn:Es.
  2:{ rewrite fold_step_shape_none in E. discriminate. }
  clear E. unfold TNet.step_shape in Es. cbn [bind] in Es.
  destruct (TNet.term_shape in_channel hidden [B; S G'; C; H; W] srx 0) as [t|] eqn:Et;
    [|discriminate].
  clear Es. unfold TNet.term_shape, select1_shape in Et.
  cbn [Nat.ltb Nat.leb bind] in Et.
  unfold cat1_shape in Et.
  destruct srx as [|B1 [|C1 [|H1 [|W1 [|? ?]]]]]; try discriminate.
  destruct ((B1 =? B) && (H1 =? H) && (W1 =? W)) eqn:Eq; [cbn [bind] in Et|discriminate].
  apply andb_prop in Eq as [Eq EW]. apply andb_prop in Eq as [EB EH].
  apply Nat.eqb_eq in EB, EH, EW. subst B1 H1 W1.
  apply TNetBackBone_shape_inv1 in Et as (B' & H' & W' & Q & Hi & Hh & HH & HW & _).
  injection Q as <- Hc <- <-.
  exists C1. auto 10.
Qed.

(** X6.  For positive channel counts and a batched map (B, C, H, W),
    [RNet.forward] returns a result exactly when C is [in_channel] and the
    map is non-empty; the result has [out_channel] channels and the spatial
    size of the input. *)
Theorem RNet_keeps_size
    (R : Type) (SR : Scalar R) (in_channel out_channel : nat)
    (p : RNet.params R) (x : tensor R) (B C H W : nat) :
  1 <= in_channel -> 1 <= out_channel ->
  shape x = [B; C; H; W] ->
  ((exists y, RNet.forward in_channel out_channel p x = Some y)
   <-> (C = in_channel /\ 1 <= H /\ 1 <= W))
  /\ (forall y, RNet.forward in_channel out_channel p x = Some y ->
        shape y = [B; out_channel; H; W]).
Proof.
  intros Hi Ho Hs.
  assert (I : forall y, RNet.forward in_channel out_channel p x = Some y ->
              (C = in_channel /\ 1 <= H /\ 1 <= W)
              /\ shape y = [B; out_channel; H; W]).
  { intros y E.
    pose proof (sim_some_inv (@shape R) (RNet_sim in_channel out_channel p x) E) as Es.
    apply RNet_shape_inv in Es as (B' & H' & W' & Hx & _ & _ & HH & HW & Hy).
    rewrite Hs in Hx. injection Hx as -> -> -> ->. auto. }
  split; [split|].
  - intros (y & E). apply (I y E).
  - intros (-> & HH & HW).
    destruct (@RNet_defined R SR in_channel out_channel p x B H W Hi Ho Hs HH HW)
      as (y & E & _).
    now exists y.
  - intros y E. apply (I y E).
Qed.

Lemma RNet_keeps_size_witness :
  1 <= 3 /\ 1 <= 3
  /\ shape (zeros (R := Qc) [2; 3; 1; 5]) = [2; 3; 1; 5]
  /\ exists y,
       RNet.forward 3 3 (RNet_const Qc_one) (zeros [2; 3; 1; 5]) = Some y
       /\ shape y = [2; 3; 1; 5].
Proof.
  split; [lia|]. split; [lia|]. split; [reflexivity|].
  destruct (@RNet_keeps_size Qc Scalar_Qc 3 3 (RNet_const Qc_one)
              (zeros [2; 3; 1; 5]) 2 3 1 5) as ((_ & D) & Hy); [lia | lia | reflexivity |].
  destruct D as (y & E); [repeat split; lia|].
  exists y. split; [exact E | exact (Hy y E)].
Defined.

(** X7.  With at least one glass slice [TNet.forward] reads its conditioning
    map: for positive [in_channel] and [hidden], [g] of shape (B, G, C, H, W)
    with G >= 1 and a batched map [rx], it returns a result exactly when [rx]
    has the batch and spatial sizes of [g], the map is non-empty, and the
    channels of [rx] and of a slice together are [in_channel]; the result
    has shape (B, 16, H, W) whatever [hidden] is. *)
Theorem TNet_needs_matching_rx
    (R : Type) (SR : Scalar R) (in_channel hidden : nat) (p : TNet.params R)
    (g rx : tensor R) (B G C H W Brx Crx Hrx Wrx : nat) :
  1 <= in_channel -> 1 <= hidden ->
  shape g = [B; G; C; H; W] -> 1 <= G -> shape rx = [Brx; Crx; Hrx; Wrx] ->
  ((exists y, TNet.forward in_channel hidden p g rx = Some y)
   <-> (Brx = B /\ Hrx = H /\ Wrx = W /\ Crx + C = in_channel
        /\ 1 <= H /\ 1 <= W))
  /\ (forall y, TNet.forward in_channel hidden p g rx = Some y ->
        shape y = [B; 16; H; W]).
Proof.
  intros Hi Hh Hg HG Hr.
  assert (I : forall y, TNet.forward in_channel hidden p g rx = Some y ->
              (Brx = B /\ Hrx = H /\ Wrx = W /\ Crx + C = in_channel
               /\ 1 <= H /\ 1 <= W)
              /\ shape y = [B; 16; H; W]).
  { intros y E.
    pose proof (sim_some_inv (@shape R) (TNet_sim in_channel hidden p g rx) E) as Es.
    rewrite Hg in Es. pose proof Es as Es0.
    apply TNet_shape_inv in Es as (crx & Hrx' & Hc & _ & _ & HH & HW); [|exact HG].
    rewrite Hrx', <- Hc, TNet_shape_ok in Es0 by (assumption || lia).
    rewrite Hr in Hrx'. injection Hrx' as -> -> -> ->.
    split; [auto 10 | now injection Es0]. }
  split; [split|].
  - intros (y & E). apply (I y E).
  - intros (-> & -> & -> & <- & HH & HW).
    destruct (@TNet_defined R SR hidden p g rx B G C Crx H W Hi Hh Hg Hr HH HW)
      as (y & E & _).
    now exists y.
  - intros y E. apply (I y E).
Qed.

Lemma TNet_needs_matching_rx_witness :
  1 <= 25 /\ 1 <= 32
  /\ shape (zeros (R := Qc) [2; 3; 17; 4; 4]) = [2; 3; 17; 4; 4]
  /\ 1 <= 3
  /\ shape (zeros (R := Qc) [2; 8; 4; 4]) = [2; 8; 4; 4]
  /\ exists y,
       TNet.forward 25 32 (TNet_const Qc_one) (zeros [2; 3; 17; 4; 4]) (zeros [2; 8; 4; 4])
       = Some y
       /\ shape y = [2; 16; 4; 4].
Proof.
  split; [lia|]. split; [lia|].
  split; [reflexivity|]. split; [lia|]. split; [reflexivity|].
  destruct (@TNet_needs_matching_rx Qc Scalar_Qc 25 32 (TNet_const Qc_one)
              (zeros [2; 3; 17; 4; 4]) (zeros [2; 8; 4; 4]) 2 3 17 4 4 2 8 4 4)
    as ((_ & D) & Hy); [lia | lia | reflexivity | lia | reflexivity |].
  destruct D as (y & E); [repeat split; lia|].
  exists y. split; [exact E | exact (Hy y E)].
Defined.

Lemma CNet_shape_inv (n_oi : nat) (sx : list nat) (Bg G Cg Hg Wg : nat)
    (r : list nat * list nat * list nat) :
  CNet.forward_shape n_oi sx [Bg; G; Cg; Hg; Wg] = Some r ->
  sx = [Bg; 21; Hg; Wg] /\ 16 <= Hg /\ 16 <= Wg /\ (G = 0 \/ Cg = 17).
Proof.
  unfold CNet.forward_shape. intros E.
  destruct (CNet.heads_shape n_oi sx [Bg; G; Cg; Hg; Wg]) as [hs|] eqn:Eh;
    [|discriminate].
  clear E. unfold CNet.heads_shape in Eh.
  unfold slice_channels_shape in Eh.
  destruct sx as [|B [|C [|H [|W [|? ?]]]]]; try discriminate.
  cbn [bind moveaxis_1_3_shape] in Eh. unfold linear_shape in Eh.
  destruct (Nat.min 7 C - 4 =? 3) eqn:E3; [cbn [bind moveaxis_3_1_shape] in Eh|discriminate].
  rewrite cat1_shape_ok in Eh. cbn [bind] in Eh.
  destruct (UNet.forward_shape 37 8 true [B; C + 16; H; W]) as [rx|] eqn:Eu;
    [cbn [bind] in Eh|discriminate].
  apply UNet_shape_inv in Eu as (B' & H' & W' & Q & _ & _ & HH & HW & ->).
  injection Q as <- HC <- <-.
  assert (C = 21) by lia. subst C.
  destruct (TNet.forward_shape (8 + 17) TNet.default_hidden [Bg; G; Cg; Hg; Wg]
              [B; 8; H; W]) as [tx|] eqn:Et; [cbn [bind] in Eh|discriminate].
  destruct (cat1_shape [B; 8; H; W] tx) as [rtx|] eqn:Ec; [|discriminate].
  clear Eh.
  destruct G as [|G'].
  - unfold TNet.forward_shape in Et. cbn [nth_error rev app bind seq fold_left] in Et.
    apply TNetBackBone_shape_inv1 in Et as (B1 & H1 & W1 & Q & _ & _ & _ & _ & ->).
    injection Q as <- <- <-.
    unfold cat1_shape in Ec.
    destruct ((B =? Bg) && (H =? Hg) && (W =? Wg)) eqn:Eq; [|discriminate].
    apply andb_prop in Eq as [Eq EW]. apply andb_prop in Eq as [EB EH].
    apply Nat.eqb_eq in EB, EH, EW. subst. auto.
  - apply TNet_shape_inv in Et as (crx & Q & Hc & _); [|lia].
    injection Q as -> <- -> ->. split; [reflexivity|].
    repeat split; try assumption. right. lia.
Qed.

(** X8.  For n_oi >= 1, a glass tensor (B, G, Cg, H, W) and a batched map
    [x] of shape (Bx, Cx, Hx, Wx), [CNet.forward] returns a triple exactly
    when [x] has the batch and spatial sizes of [g], Cx = 21 (the 37 channels
    of its UNet less the 16 of the positional embedding), H and W are at
    least 16, and Cg = 17 unless G = 0; otherwise it raises. *)
Theorem CNet_accepts_exactly
    (R : Type) (SR : Scalar R) (n_oi : nat) (p : CNet.params R)
    (x g : tensor R) (B G Cg H W Bx Cx Hx Wx : nat) :
  1 <= n_oi ->
  shape g = [B; G; Cg; H; W] -> shape x = [Bx; Cx; Hx; Wx] ->
  (exists r, CNet.forward n_oi p x g = Some r)
  <-> (Bx = B /\ Cx = 21 /\ Hx = H /\ Wx = W
       /\ 16 <= H /\ 16 <= W /\ (G = 0 \/ Cg = 17)).
Proof.
  intros Hn Hg Hsx. split.
  - intros (r & E).
    pose proof (sim_some_inv shape3 (CNet_sim n_oi p x g) E) as Es.
    rewrite Hg in Es. apply CNet_shape_inv in Es as (Q & HH & HW & HG).
    rewrite Hsx in Q. injection Q as -> -> -> ->. auto 10.
  - intros (-> & -> & -> & -> & HH & HW & HG).
    destruct (@CNet_defined R SR n_oi p x g B G Cg H W Hn Hsx Hg HG HH HW)
      as (n & o & u & E & _).
    now exists (n, o, u).
Qed.

Lemma CNet_accepts_exactly_witness :
  1 <= 4
  /\ shape (zeros (R := Qc) [1; 2; 17; 16; 16]) = [1; 2; 17; 16; 16]
  /\ shape (zeros (R := Qc) [1; 20; 16; 16]) = [1; 20; 16; 16]
  /\ shape (zeros (R := Qc) [1; 21; 16; 16]) = [1; 21; 16; 16]
  /\ ((exists r, CNet.forward 4 (CNet_const Qc_one) (zeros [1; 20; 16; 16])
                   (zeros [1; 2; 17; 16; 16]) = Some r) -> False)
  /\ exists r, CNet.forward 4 (CNet_const Qc_one) (zeros [1; 21; 16; 16])
                 (zeros [1; 2; 17; 16; 16]) = Some r.
Proof.
  split; [lia|].
  split; [reflexivity|]. split; [reflexivity|]. split; [reflexivity|]. split.
  - intros D.
    destruct (@CNet_accepts_exactly Qc Scalar_Qc 4 (CNet_const Qc_one)
                (zeros [1; 20; 16; 16]) (zeros [1; 2; 17; 16; 16]) 1 2 17 16 16 1 20 16 16)
      as [T _]; [lia | reflexivity | reflexivity |].
    destruct (T D) as (_ & Q & _). discriminate Q.
  - destruct (@CNet_accepts_exactly Qc Scalar_Qc 4 (CNet_const Qc_one)
                (zeros [1; 21; 16; 16]) (zeros [1; 2; 17; 16; 16]) 1 2 17 16 16 1 21 16 16)
      as [_ T]; [lia | reflexivity | reflexivity |].
    apply T. repeat split; lia.
Defined.

(** ** The positional embedding *)

Ltac in_bounds := repeat (apply Forall2_cons; [lia|]); apply Forall2_nil.

Section EmbeddingFacts.
Context {R : Type} {SR : Scalar R}.

Lemma CNet_forward_embed (n_oi : nat) (p : CNet.params R) (x g : tensor R) :
  CNet.forward n_oi p x g = (x' <- CNet_embed p x ;; CNet_after_embed n_oi p x' g).
Proof.
  unfold CNet.forward, CNet_embed, CNet_after_embed.
  repeat match goal with
  | |- bind ?m _ = bind (bind ?m _) _ => destruct m; cbn [bind]; [|reflexivity]
  end.
  reflexivity.
Qed.

Lemma CNet_embed_sim (p : CNet.params R) (x : tensor R) :
  option_map (@shape R) (CNet_embed p x)
  = (position <- slice_channels_shape 4 7 (shape x) ;;
     position <- moveaxis_1_3_shape position ;;
     pe <- linear_shape 3 16 position ;;
     pe <- moveaxis_3_1_shape pe ;;
     cat1_shape (shape x) pe).
Proof.
  unfold CNet_embed.
  apply bind_sim with (pa := @shape R); [apply slice_channels_sim|]. intros t1 _.
  apply bind_sim with (pa := @shape R); [apply moveaxis_1_3_sim|]. intros t2 _.
  apply bind_sim with (pa := @shape R); [apply fc_layer_sim|]. intros t3 _.
  apply bind_sim with (pa := @shape R); [apply moveaxis_3_1_sim|]. intros t4 _.
  apply cat1_sim.
Qed.

Lemma get_tmap_build (f : R -> R) (s ix : list nat) (h : list nat -> R) :
  Forall2 lt ix s -> get (tmap f (build s h)) ix = f (h ix).
Proof.
  intros F. unfold tmap, build. cbn [shape data]. rewrite tab_map.
  exact (get_build (fun ix => f (h ix)) F).
Qed.
Lemma get4_build (B C H W : nat) (h : list nat -> R) (b c y x : nat) :
  b < B -> c < C -> y < H -> x < W ->
  get4 (build [B; C; H; W] h) b c y x = h [b; c; y; x].
Proof. intros. unfold get4. apply get_build. in_bounds. Qed.
End EmbeddingFacts.
Section EmbeddingFacts2.
Context {R : Type} {SR : Scalar R}.

Lemma CNet_embed_value (p : CNet.params R) (x : tensor R) (B C H W : nat) :
  shape x = [B; C; H; W] -> 7 <= C ->
  CNet_embed p x
  = Some (build [B; C + 16; H; W] (fun ix =>
      match ix with
      | [b; c; y; x0] =>
          if c <? C then get4 x b c y x0
          else leaky_relu
                 (add (sum_over 3 (fun k =>
                         mul (get4 x b (4 + k) y x0)
                             (fc_layer.weight (CNet.inner_pos p) (c - C) k)))
                      (fc_layer.bias (CNet.inner_pos p) (c - C)))
      | _ => zero
      end)).
Proof.
  intros Hs HC.
  unfold CNet_embed, slice_channels. rewrite Hs. cbn [slice_channels_shape bind].
  replace (Nat.min 7 C - 4) with 3 by lia.
  unfold moveaxis_1_3. cbn [shape build moveaxis_1_3_shape bind].
  unfold fc_layer.forward, linear. cbn [shape build linear_shape Nat.eqb bind].
  unfold moveaxis_3_1. cbn [shape build tmap moveaxis_3_1_shape bind].
  unfold cat1. rewrite Hs. cbn [shape build cat1_shape bind].
  rewrite !Nat.eqb_refl. cbn [andb bind]. f_equal. apply build_ext.
  intros ix F.
  inversion F as [|b B' ix1 s1 Hb F1]; subst.
  inversion F1 as [|c C' ix2 s2 Hc F2]; subst.
  inversion F2 as [|y H' ix3 s3 Hy F3]; subst.
  inversion F3 as [|x0 W' ix4 s4 Hx F4]; subst.
  inversion F4; subst.
  destruct (c <? C) eqn:Ec; [reflexivity|]. apply Nat.ltb_ge in Ec.
  unfold get4 at 1. rewrite get_build by in_bounds.
  unfold get4 at 1. rewrite get_tmap_build by in_bounds.
  f_equal. f_equal. unfold sum_over. cbn [seq fold_left].
  repeat (rewrite get4_build by lia; cbv beta iota).
  reflexivity.
Qed.
End EmbeddingFacts2.

(** X9.  Lines 250-255 of [CNet.forward] give the first UNet the input [x]
    followed by 16 channels; channel C + o at a pixel is the leaky ReLU of
    bias[o] + sum over k < 3 of x[b, 4 + k, y, x0] * weight[o, k], read at
    that same pixel of that same batch element.  The slice 4:7 is clamped,
    so an [x] of fewer than 7 channels makes the Linear layer raise. *)
Theorem CNet_embedding_is_per_pixel
    (R : Type) (SR : Scalar R) (n_oi : nat) (p : CNet.params R)
    (x g : tensor R) (B C H W : nat) :
  shape x = [B; C; H; W] ->
  CNet.forward n_oi p x g = (x' <- CNet_embed p x ;; CNet_after_embed n_oi p x' g)
  /\ (C < 7 -> CNet_embed p x = None /\ CNet.forward n_oi p x g = None)
  /\ (7 <= C ->
      exists x',
        CNet_embed p x = Some x'
        /\ shape x' = [B; C + 16; H; W]
        /\ (forall b c y x0, b < B -> c < C -> y < H -> x0 < W ->
              get4 x' b c y x0 = get4 x b c y x0)
        /\ (forall b o y x0, b < B -> o < 16 -> y < H -> x0 < W ->
              get4 x' b (C + o) y x0
              = leaky_relu
                  (add (sum_over 3 (fun k =>
                          mul (get4 x b (4 + k) y x0)
                              (fc_layer.weight (CNet.inner_pos p) o k)))
                       (fc_layer.bias (CNet.inner_pos p) o)))).
Proof.
  intros Hs. split; [apply CNet_forward_embed|]. split.
  - intros HC.
    assert (E : CNet_embed p x = None).
    { apply (sim_none (@shape R) (CNet_embed p x)).
      rewrite CNet_embed_sim, Hs.
      cbn [slice_channels_shape moveaxis_1_3_shape bind]. unfold linear_shape.
      replace (Nat.min 7 C - 4 =? 3) with false; [reflexivity|].
      symmetry. apply Nat.eqb_neq. lia. }
    split; [exact E|]. rewrite CNet_forward_embed, E. reflexivity.
  - intros HC. rewrite (CNet_embed_value p x Hs HC).
    eexists. split; [reflexivity|]. split; [reflexivity|]. split.
    + intros b c y x0 Hb Hc Hy Hx. rewrite get4_build by lia.
      apply Nat.ltb_lt in Hc. now rewrite Hc.
    + intros b o y x0 Hb Ho Hy Hx. rewrite get4_build by lia.
      replace (C + o <? C) with false by (symmetry; apply Nat.ltb_ge; lia).
      replace (C + o - C) with o by lia. reflexivity.
Qed.

Lemma CNet_embedding_is_per_pixel_witness :
  shape (zeros (R := Qc) [1; 7; 2; 2]) = [1; 7; 2; 2]
  /\ exists x',
       CNet_embed (CNet_const Qc_one) (zeros [1; 7; 2; 2]) = Some x'
       /\ shape x' = [1; 23; 2; 2].
Proof.
  split; [reflexivity|].
  destruct (@CNet_embedding_is_per_pixel Qc Scalar_Qc 4 (CNet_const Qc_one)
              (zeros [1; 7; 2; 2]) (zeros [1; 0; 17; 2; 2]) 1 7 2 2 eq_refl)
    as (_ & _ & D).
  destruct D as (x' & E & S' & _); [lia|].
  exists x'. split; assumption.
Defined.

(** ** The blocks that end in a ReLU *)

Section BlockRange.
Context {R : Type} {SR : Scalar R}.
Variable P : R -> Prop.
Hypothesis relu_P : forall x : R, P (relu x).

Lemma DoubleConv_range i o m p (x y : tensor R) :
  DoubleConv.forward i o m p x = Some y -> Forall P (data y).
Proof.
  unfold DoubleConv.forward. intros E.
  destruct (conv2d i _ 3 1 _ _ x) as [x1|]; [cbn [bind] in E|discriminate].
  destruct (conv2d _ o 3 1 _ _ _) as [x2|]; [cbn [bind] in E|discriminate].
  injection E as <-. now apply tmap_relu_range.
Qed.

Lemma Down_range i o p (x y : tensor R) :
  Down.forward i o p x = Some y -> Forall P (data y).
Proof.
  unfold Down.forward. intros E.
  destruct (max_pool2d x) as [x1|]; [cbn [bind] in E|discriminate].
  now apply DoubleConv_range in E.
Qed.

Lemma Up_range i o bil p (x1 x2 y : tensor R) :
  Up.forward i o bil p x1 x2 = Some y -> Forall P (data y).
Proof.
  unfold Up.forward. intros E.
  destruct (Up.up i bil p x1) as [u|]; [cbn [bind] in E|discriminate].
  destruct (Up.pad_to u x2) as [v|]; [cbn [bind] in E|discriminate].
  destruct (cat1 x2 v) as [c|]; [cbn [bind] in E|discriminate].
  now apply DoubleConv_range in E.
Qed.
End BlockRange.

(** X10.  [DoubleConv.forward], built with positive channel counts, returns
    a map of the spatial size of its input, with [out_channels] channels, on
    every non-empty map with [in_channels] channels, whatever [mid_channels]
    is; the last step of DoubleConv, Down and Up being a ReLU,
    [x <= 0 ? 0 : x], every value of their output is >= 0 or is a NaN, which
    the ReLU returns unchanged; for scalars without NaN every value is
    >= 0. *)
Theorem DoubleConv_Down_Up_nonnegative
    (R : Type) (SR : Scalar R)
    (leb_zero_refl : leb (zero (R := R)) zero = true)
    (leb_zero_cases :
       forall x : R, leb x zero = false -> leb zero x = true \/ leb x x = false) :
  (forall i o m p (x : tensor R) B H W,
     1 <= i -> 1 <= o -> shape x = [B; i; H; W] -> 1 <= H -> 1 <= W ->
     exists y, DoubleConv.forward i o m p x = Some y
               /\ shape y = [B; o; H; W]
               /\ Forall (fun v => nonneg v \/ leb v v = false) (data y))
  /\ (forall i o m p (x y : tensor R),
        DoubleConv.forward i o m p x = Some y ->
        Forall (fun v => nonneg v \/ leb v v = false) (data y))
  /\ (forall i o p (x y : tensor R),
        Down.forward i o p x = Some y ->
        Forall (fun v => nonneg v \/ leb v v = false) (data y))
  /\ (forall i o bilinear p (x1 x2 y : tensor R),
        Up.forward i o bilinear p x1 x2 = Some y ->
        Forall (fun v => nonneg v \/ leb v v = false) (data y))
  /\ ((forall v : R, leb v v = true) ->
      (forall i o m p (x y : tensor R),
         DoubleConv.forward i o m p x = Some y -> Forall nonneg (data y))
      /\ (forall i o p (x y : tensor R),
            Down.forward i o p x = Some y -> Forall nonneg (data y))
      /\ (forall i o bilinear p (x1 x2 y : tensor R),
            Up.forward i o bilinear p x1 x2 = Some y -> Forall nonneg (data y))).
Proof.
  pose proof (relu_nonneg_or_nan leb_zero_refl leb_zero_cases) as N.
  split; [|split; [|split; [|split]]].
  - intros i o m p x B H W Hi Ho Hs HH HW.
    pose proof (DoubleConv_sim i o m p x) as E.
    rewrite Hs, DoubleConv_shape_ok in E by assumption.
    apply sim_some in E as (y & E & Hy). exists y. split; [exact E|]. split; [exact Hy|].
    exact (DoubleConv_range _ N _ _ _ _ _ E).
  - intros i o m p x y. apply DoubleConv_range. exact N.
  - intros i o p x y. apply Down_range. exact N.
  - intros i o bil p x1 x2 y. apply Up_range. exact N.
  - intros NoNaN.
    assert (N' : forall x : R, nonneg (relu x)).
    { intros x. destruct (N x) as [P | P]; [exact P|]. rewrite NoNaN in P. discriminate P. }
    split; [|split].
    + intros i o m p x y. apply DoubleConv_range. exact N'.
    + intros i o p x y. apply Down_range. exact N'.
    + intros i o bil p x1 x2 y. apply Up_range. exact N'.
Qed.

Lemma DoubleConv_Down_Up_nonnegative_witness :
  leb (zero (R := f32)) zero = true
  /\ (forall x : f32, leb x zero = false -> leb zero x = true \/ leb x x = false)
  /\ exists y,
       DoubleConv.forward 3 8 (Some 0) (DoubleConv_const zero) (zeros (R := f32) [1; 3; 1; 1])
       = Some y
       /\ shape y = [1; 8; 1; 1]
       /\ Forall (fun v => nonneg v \/ leb v v = false) (data y).
Proof.
  split; [exact f32_leb_zero_refl|]. split; [exact f32_leb_zero_cases|].
  destruct (@DoubleConv_Down_Up_nonnegative f32 Scalar_f32 f32_leb_zero_refl
              f32_leb_zero_cases) as (D & _).
  apply (D 3 8 (Some 0) (DoubleConv_const zero) (zeros [1; 3; 1; 1]) 1 1 1);
    [lia | lia | reflexivity | lia | lia].
Defined.

(** ** An input of zeros *)

Section ZeroInput.
Context {R : Type} {SR : Scalar R}.
Hypothesis scalar_semiring : semi_ring_theory zero (ratio 1 1) add mul eq.
Add Ring scalar_ring_zi : scalar_semiring.

Lemma get_all_zero (t : tensor R) (ix : list nat) : all_zero t -> get t ix = zero.
Proof.
  unfold all_zero. intros Z. unfold get. generalize (offset (shape t) ix). intros n.
  revert n. induction Z as [|v l Hv Z IH]; intros [|n]; cbn [nth]; auto.
Qed.

Lemma getz_all_zero (t : tensor R) H W b c y x : all_zero t -> getz t H W b c y x = zero.
Proof.
  intros Z. unfold getz, get4. destruct (_ && _)%bool; [now apply get_all_zero | reflexivity].
Qed.

Lemma build_all_zero (s : list nat) (f : list nat -> R) :
  (forall ix, Forall2 lt ix s -> f ix = zero) -> all_zero (build s f).
Proof. intros Hf. unfold all_zero. cbn [build data]. now apply tab_Forall. Qed.

Lemma tmap_relu_all_zero (t : tensor R) : all_zero t -> all_zero (tmap relu t).
Proof.
  unfold all_zero. intros Z. cbn [tmap data]. induction Z as [|v l Hv Z IH]; cbn [map]; constructor; auto.
  subst v. unfold relu. now destruct (leb zero zero).
Qed.

(** a convolution without bias *)
Lemma conv2d_all_zero i o k p w (x y : tensor R) :
  conv2d i o k p w None x = Some y -> all_zero x -> all_zero y.
Proof.
  intros E Z. unfold conv2d in E.
  destruct (conv2d_shape i o k p (shape x)) as [s|] eqn:Es; [cbn [bind] in E|discriminate].
  apply conv2d_shape_inv in Es as (B & H & W & Ex & _ & _ & ->).
  rewrite Ex in E. injection E as <-. apply build_all_zero. intros ix F.
  inversion F as [|b0 B' ix1 s1 _ F1]; subst.
  inversion F1 as [|o0 o' ix2 s2 _ F2]; subst.
  inversion F2 as [|y0 H' ix3 s3 _ F3]; subst.
  inversion F3 as [|x0 W' ix4 s4 _ F4]; subst.
  inversion F4; subst.
  apply (sum_over_zero scalar_semiring). intros c.
  apply (sum_over_zero scalar_semiring). intros ky.
  apply (sum_over_zero scalar_semiring). intros kx.
  rewrite getz_all_zero by exact Z. ring.
Qed.

Lemma DoubleConv_all_zero i o m p (x y : tensor R) :
  DoubleConv.forward i o m p x = Some y -> all_zero x -> all_zero y.
Proof.
  unfold DoubleConv.forward. intros E Z.
  destruct (conv2d i _ 3 1 _ _ x) as [x1|] eqn:E1; [cbn [bind] in E|discriminate].
  destruct (conv2d _ o 3 1 _ _ _) as [x2|] eqn:E2; [cbn [bind] in E|discriminate].
  injection E as <-. apply tmap_relu_all_zero.
  eapply conv2d_all_zero; [exact E2|]. apply tmap_relu_all_zero.
  eapply conv2d_all_zero; [exact E1 | exact Z].
Qed.

Lemma max_pool2d_all_zero (x y : tensor R) :
  max_pool2d x = Some y -> all_zero x -> all_zero y.
Proof.
  unfold max_pool2d. intros E Z.
  destruct (max_pool2d_shape (shape x)) as [s|]; [cbn [bind] in E|discriminate].
  injection E as <-. apply build_all_zero. intros ix _.
  destruct ix as [|b [|c [|y [|x0 [|? ?]]]]]; try reflexivity.
  assert (S0 : smax (zero (R := R)) zero = zero) by (unfold smax; now destruct (_ || _)).
  unfold get4. rewrite !get_all_zero by exact Z. now rewrite !S0.
Qed.

Lemma Down_all_zero i o p (x y : tensor R) :
  Down.forward i o p x = Some y -> all_zero x -> all_zero y.
Proof.
  unfold Down.forward. intros E Z.
  destruct (max_pool2d x) as [x1|] eqn:E1; [cbn [bind] in E|discriminate].
  eapply DoubleConv_all_zero; [exact E|]. eapply max_pool2d_all_zero; [exact E1 | exact Z].
Qed.

Lemma upsample_all_zero (x y : tensor R) :
  upsample_bilinear x = Some y -> all_zero x -> all_zero y.
Proof.
  unfold upsample_bilinear. intros E Z.
  destruct (upsample_shape (shape x)) as [s|]; [cbn [bind] in E|discriminate].
  destruct (shape x) as [|B [|C [|H [|W [|? ?]]]]]; try discriminate.
  injection E as <-. apply build_all_zero. intros ix _.
  destruct ix as [|b [|c [|y [|x0 [|? ?]]]]]; try reflexivity.
  cbv zeta. unfold get4. rewrite !get_all_zero by exact Z. ring.
Qed.

Lemma pad_to_all_zero (x1 x2 y : tensor R) :
  Up.pad_to x1 x2 = Some y -> all_zero x1 -> all_zero y.
Proof.
  unfold Up.pad_to. intros E Z.
  destruct (dim x2 2); [cbn [bind] in E|discriminate].
  destruct (dim x1 2); [cbn [bind] in E|discriminate].
  destruct (dim x2 3); [cbn [bind] in E|discriminate].
  destruct (dim x1 3); [cbn [bind] in E|discriminate].
  unfold pad in E.
  destruct (pad_shape _ _ _ _ _) as [s|]; [cbn [bind] in E|discriminate].
  destruct (shape x1) as [|B [|C [|H [|W [|? ?]]]]]; try discriminate.
  injection E as <-. apply build_all_zero. intros ix _.
  destruct ix as [|b [|c [|y [|x0 [|? ?]]]]]; try reflexivity.
  now apply getz_all_zero.
Qed.

Lemma cat1_all_zero (a b y : tensor R) :
  cat1 a b = Some y -> all_zero a -> all_zero b -> all_zero y.
Proof.
  unfold cat1. intros E Za Zb.
  destruct (cat1_shape (shape a) (shape b)) as [s|]; [cbn [bind] in E|discriminate].
  destruct (shape a) as [|B [|C [|H [|W [|? ?]]]]]; try discriminate.
  injection E as <-. apply build_all_zero. intros ix _.
  destruct ix as [|n [|c [|y [|x0 [|? ?]]]]]; try reflexivity.
  unfold get4. destruct (c <? C); now apply get_all_zero.
Qed.

(** the bilinear [Up] has no bias either *)
Lemma Up_all_zero i o p (x1 x2 y : tensor R) :
  Up.forward i o true p x1 x2 = Some y -> all_zero x1 -> all_zero x2 -> all_zero y.
Proof.
  unfold Up.forward, Up.up. intros E Z1 Z2.
  destruct (upsample_bilinear x1) as [u|] eqn:E1; [cbn [bind] in E|discriminate].
  destruct (Up.pad_to u x2) as [v|] eqn:E2; [cbn [bind] in E|discriminate].
  destruct (cat1 x2 v) as [c|] eqn:E3; [cbn [bind] in E|discriminate].
  eapply DoubleConv_all_zero; [exact E|].
  eapply cat1_all_zero; [exact E3 | exact Z2 |].
  eapply pad_to_all_zero; [exact E2|]. eapply upsample_all_zero; [exact E1 | exact Z1].
Qed.

Lemma OutConv_all_zero i o p (x y : tensor R) B H W :
  OutConv.forward i o p x = Some y -> shape y = [B; o; H; W] -> all_zero x ->
  forall b c y0 x0, b < B -> c < o -> y0 < H -> x0 < W ->
    get4 y b c y0 x0 = OutConv.bias p c.
Proof.
  unfold OutConv.forward, conv2d. intros E Hy Z b c y0 x0 Hb Hc Hy0 Hx0.
  destruct (conv2d_shape i o 1 0 (shape x)) as [s|] eqn:Es; [cbn [bind] in E|discriminate].
  destruct (shape x) as [|B1 [|C1 [|H1 [|W1 [|? ?]]]]]; try discriminate.
  injection E as <-. cbn [build shape] in Hy. subst s.
  rewrite get4_build by assumption.
  rewrite (sum_over_zero scalar_semiring); [ring|]. intros c0.
  apply (sum_over_zero scalar_semiring). intros ky.
  apply (sum_over_zero scalar_semiring). intros kx.
  rewrite getz_all_zero by exact Z. ring.
Qed.

Lemma UNet_all_zero nc ncl p (x y : tensor R) B H W :
  UNet.forward nc ncl true p x = Some y -> shape y = [B; ncl; H; W] -> all_zero x ->
  forall b c y0 x0, b < B -> c < ncl -> y0 < H -> x0 < W ->
    get4 y b c y0 x0 = OutConv.bias (UNet.outc p) c.
Proof.
  unfold UNet.forward. intros E Hy Z.
  destruct (DoubleConv.forward nc 32 None _ x) as [x1|] eqn:E1; [cbn [bind] in E|discriminate].
  destruct (Down.forward 32 64 _ x1) as [x2|] eqn:E2; [cbn [bind] in E|discriminate].
  destruct (Down.forward 64 128 _ x2) as [x3|] eqn:E3; [cbn [bind] in E|discriminate].
  destruct (Down.forward 128 256 _ x3) as [x4|] eqn:E4; [cbn [bind] in E|discriminate].
  destruct (Down.forward 256 _ _ x4) as [x5|] eqn:E5; [cbn [bind] in E|discriminate].
  destruct (Up.forward 512 _ true _ x5 x4) as [u1|] eqn:E6; [cbn [bind] in E|discriminate].
  destruct (Up.forward 256 _ true _ u1 x3) as [u2|] eqn:E7; [cbn [bind] in E|discriminate].
  destruct (Up.forward 128 _ true _ u2 x2) as [u3|] eqn:E8; [cbn [bind] in E|discriminate].
  destruct (Up.forward 64 32 true _ u3 x1) as [u4|] eqn:E9; [cbn [bind] in E|discriminate].
  assert (Z1 : all_zero x1) by (eapply DoubleConv_all_zero; eassumption).
  assert (Z2 : all_zero x2) by (eapply Down_all_zero; eassumption).
  assert (Z3 : all_zero x3) by (eapply Down_all_zero; eassumption).
  assert (Z4 : all_zero x4) by (eapply Down_all_zero; eassumption).
  assert (Z5 : all_zero x5) by (eapply Down_all_zero; eassumption).
  assert (Z6 : all_zero u1) by (eapply Up_all_zero; eassumption).
  assert (Z7 : all_zero u2) by (eapply Up_all_zero; eassumption).
  assert (Z8 : all_zero u3) by (eapply Up_all_zero; eassumption).
  assert (Z9 : all_zero u4) by (eapply Up_all_zero; eassumption).
  eapply OutConv_all_zero; eassumption.
Qed.
End ZeroInput.

(** X11.  No convolution of a bilinear UNet has a bias except the last one
    (DoubleConv passes bias=False, and pooling, upsampling, padding and ReLU
    map zeros to zeros): over a commutative semiring a UNet built with
    positive channel counts maps an input of zeros, of any accepted size, to
    its [outc] bias in every pixel. *)
Theorem UNet_of_zeros_is_outc_bias
    (R : Type) (SR : Scalar R)
    (scalar_semiring : semi_ring_theory (zero (R := R)) (ratio 1 1) add mul eq)
    (n_channels n_classes : nat) (p : UNet.params R) (x : tensor R) (B H W : nat) :
  1 <= n_channels -> 1 <= n_classes ->
  shape x = [B; n_channels; H; W] -> 16 <= H -> 16 <= W -> all_zero x ->
  exists y,
    UNet.forward n_channels n_classes true p x = Some y
    /\ shape y = [B; n_classes; H; W]
    /\ forall b c y0 x0, b < B -> c < n_classes -> y0 < H -> x0 < W ->
         get4 y b c y0 x0 = OutConv.bias (UNet.outc p) c.
Proof.
  intros Hnc Hncl Hs HH HW Z.
  destruct (@UNet_defined R SR n_channels n_classes p x B H W Hnc Hncl Hs HH HW)
    as (y & E & Hy).
  exists y. split; [exact E|]. split; [exact Hy|].
  eapply UNet_all_zero; eassumption.
Qed.

Lemma UNet_of_zeros_is_outc_bias_witness :
  semi_ring_theory (zero (R := Qc)) (ratio 1 1) add mul eq
  /\ 1 <= 2 /\ 1 <= 3
  /\ shape (zeros (R := Qc) [1; 2; 16; 16]) = [1; 2; 16; 16]
  /\ all_zero (zeros (R := Qc) [1; 2; 16; 16])
  /\ exists y,
       UNet.forward 2 3 true (UNet_const Qc_one) (zeros [1; 2; 16; 16]) = Some y
       /\ shape y = [1; 3; 16; 16]
       /\ get4 y 0 0 0 0 = Qc_one.
Proof.
  split; [exact Qc_semiring|]. split; [lia|]. split; [lia|]. split; [reflexivity|].
  split; [apply zeros_all_zero|].
  destruct (@UNet_of_zeros_is_outc_bias Qc Scalar_Qc Qc_semiring 2 3 (UNet_const Qc_one)
              (zeros [1; 2; 16; 16]) 1 16 16)
    as (y & E & Hy & V); [lia | lia | reflexivity | lia | lia | apply zeros_all_zero |].
  exists y. split; [exact E|]. split; [exact Hy|].
  rewrite V by lia. reflexivity.
Defined.

(** ** What the pooling of Down reads *)

Section PoolingReads.
Context {R : Type} {SR : Scalar R}.

Lemma max_pool2d_reads (x x' : tensor R) B C H W :
  shape x = [B; C; H; W] -> shape x' = [B; C; H; W] ->
  (forall b c y x0, b < B -> c < C -> y < 2 * (H / 2) -> x0 < 2 * (W / 2) ->
     get4 x b c y x0 = get4 x' b c y x0) ->
  max_pool2d x = max_pool2d x'.
Proof.
  intros Hs Hs' A. unfold max_pool2d. rewrite Hs, Hs'. unfold max_pool2d_shape.
  destruct ((1 <=? C) && (1 <=? H / 2) && (1 <=? W / 2)); [cbn [bind]|reflexivity].
  f_equal. apply build_ext. intros ix F.
  inversion F as [|b B' ix1 s1 Hb F1]; subst.
  inversion F1 as [|c C' ix2 s2 Hc F2]; subst.
  inversion F2 as [|y H' ix3 s3 Hy F3]; subst.
  inversion F3 as [|x0 W' ix4 s4 Hx F4]; subst.
  inversion F4; subst.
  change (y < H / 2) in Hy. change (x0 < W / 2) in Hx.
  rewrite !A by lia. reflexivity.
Qed.
End PoolingReads.

(** X12.  MaxPool2d(2) rounds the output size down, so [Down.forward] never
    reads the last row of a map of odd height, nor the last column of a map
    of odd width: two inputs that agree on the first 2 * (H // 2) rows and
    2 * (W // 2) columns give the same result. *)
Theorem Down_ignores_odd_border
    (R : Type) (SR : Scalar R) (in_channels out_channels : nat) (p : Down.params R)
    (x x' : tensor R) (B C H W : nat) :
  shape x = [B; C; H; W] -> shape x' = [B; C; H; W] ->
  (forall b c y x0, b < B -> c < C -> y < 2 * (H / 2) -> x0 < 2 * (W / 2) ->
     get4 x b c y x0 = get4 x' b c y x0) ->
  Down.forward in_channels out_channels p x = Down.forward in_channels out_channels p x'.
Proof.
  intros Hs Hs' A. unfold Down.forward.
  now rewrite (max_pool2d_reads x x' Hs Hs' A).
Qed.

Lemma Down_ignores_odd_border_witness :
  shape (zeros (R := Qc) [1; 1; 3; 3]) = [1; 1; 3; 3]
  /\ shape border_map = [1; 1; 3; 3]
  /\ get4 (zeros [1; 1; 3; 3]) 0 0 2 2 <> get4 border_map 0 0 2 2
  /\ Down.forward 1 4 (Down_const Qc_one) (zeros [1; 1; 3; 3])
     = Down.forward 1 4 (Down_const Qc_one) border_map
  /\ exists y,
       Down.forward 1 4 (Down_const Qc_one) border_map = Some y
       /\ shape y = [1; 4; 1; 1].
Proof.
  split; [reflexivity|]. split; [reflexivity|]. split; [discriminate|]. split.
  - apply (@Down_ignores_odd_border Qc Scalar_Qc 1 4 (Down_const Qc_one)
             (zeros [1; 1; 3; 3]) border_map 1 1 3 3 eq_refl eq_refl).
    intros b c y x0 Hb Hc Hy Hx.
    assert (b = 0) as -> by lia. assert (c = 0) as -> by lia.
    change (2 * (3 / 2)) with 2 in Hy, Hx.
    destruct y as [|[|y]]; [| |lia]; (destruct x0 as [|[|x0]]; [| |lia]); reflexivity.
  - apply (@Down_defined Qc Scalar_Qc 1 4 (Down_const Qc_one) border_map 1 3 3);
      [lia | lia | reflexivity | lia | lia].
Defined.

(** ** The elements of a batch do not interact *)

Section RowFacts.
Context {R : Type} {SR : Scalar R}.

Lemma both_bind (A B : Type) (P : A -> A -> Prop) (Q : B -> B -> Prop)
    (m m' : option A) (k k' : A -> option B) :
  both P m m' -> (forall a a', P a a' -> both Q (k a) (k' a')) ->
  both Q (bind m k) (bind m' k').
Proof. destruct m, m'; cbn; intros H K; try contradiction; auto. Qed.

Lemma row_build (b : nat) (s : list nat) (f f' : list nat -> R) :
  (forall ix, Forall2 lt (b :: ix) s -> f (b :: ix) = f' (b :: ix)) ->
  same_row b (build s f) (build s f').
Proof.
  intros E. split; [apply wf_build|]. split; [apply wf_build|]. split; [reflexivity|].
  cbn [build shape]. intros ix F. rewrite !get_build by exact F. now apply E.
Qed.

Lemma row_get4 (b : nat) (t t' : tensor R) B C H W c y x :
  same_row b t t' -> shape t = [B; C; H; W] -> b < B -> c < C -> y < H -> x < W ->
  get4 t b c y x = get4 t' b c y x.
Proof.
  intros (_ & _ & _ & A) Hs Hb Hc Hy Hx. unfold get4. apply A. rewrite Hs. in_bounds.
Qed.

Lemma row_getz (b : nat) (t t' : tensor R) B C H W c y x :
  same_row b t t' -> shape t = [B; C; H; W] -> b < B -> c < C ->
  getz t H W b c y x = getz t' H W b c y x.
Proof.
  intros S Hs Hb Hc. unfold getz.
  destruct ((0 <=? y) && (y <? Z.of_nat H) && (0 <=? x) && (x <? Z.of_nat W))%Z eqn:G;
    [|reflexivity].
  rewrite !andb_true_iff, !Z.leb_le, !Z.ltb_lt in G.
  apply (row_get4 S Hs); lia.
Qed.

Lemma get_tmap (f : R -> R) (t : tensor R) (ix : list nat) :
  wf t -> Forall2 lt ix (shape t) -> get (tmap f t) ix = f (get t ix).
Proof.
  intros Wt F. unfold get, tmap. cbn [shape data].
  pose proof (offset_lt F) as Ho. unfold wf in Wt.
  rewrite (nth_indep _ zero (f zero)) by (rewrite length_map; lia).
  apply map_nth.
Qed.

Lemma row_tmap (b : nat) (f : R -> R) (t t' : tensor R) :
  same_row b t t' -> same_row b (tmap f t) (tmap f t').
Proof.
  intros (Wt & Wt' & Es & A).
  split; [unfold wf; cbn [tmap shape data]; now rewrite length_map|].
  split; [unfold wf; cbn [tmap shape data]; now rewrite length_map|].
  split; [exact Es|]. cbn [tmap shape]. intros ix F.
  change (mkT (shape t) (map f (data t))) with (tmap f t).
  change (mkT (shape t') (map f (data t'))) with (tmap f t').
  rewrite !get_tmap by (try rewrite <- Es; assumption). f_equal. now apply A.
Qed.

Lemma row_tensor_add (b : nat) (a a' c c' : tensor R) :
  same_row b a a' -> same_row b c c' ->
  both (same_row b) (tensor_add a c) (tensor_add a' c').
Proof.
  intros (Wa & Wa' & Ea & Aa) (Wc & Wc' & Ec & Ac). unfold tensor_add.
  rewrite <- Ea, <- Ec.
  destruct (shape_eqb (shape a) (shape c)) eqn:Q; [|exact I].
  apply shape_eqb_eq in Q. cbn [both]. unfold wf in *.
  assert (L : forall (l1 l2 : list R), length l1 = length l2 ->
            length (map2 add l1 l2) = length l1).
  { intros l1 l2 L. unfold map2. rewrite length_map, length_combine. lia. }
  split; [unfold wf; cbn [shape data]; rewrite L; congruence|].
  split; [unfold wf; cbn [shape data]; rewrite L; congruence|].
  split; [reflexivity|]. cbn [shape]. intros ix F.
  pose proof (offset_lt F) as Ho. pose proof (Aa ix F) as Ga.
  assert (Fc : Forall2 lt (b :: ix) (shape c)) by (rewrite <- Q; exact F).
  pose proof (Ac ix Fc) as Gc. unfold get in Ga, Gc.
  rewrite <- Ea in Ga. rewrite <- Ec, <- Q in Gc.
  unfold get. cbn [shape data]. unfold map2.
  rewrite !nth_map2 by congruence. now rewrite Ga, Gc.
Qed.

Lemma sum_over_ext (n : nat) (f f' : nat -> R) :
  (forall i, i < n -> f i = f' i) -> sum_over n f = sum_over n f'.
Proof.
  intros E. unfold sum_over.
  assert (G : forall l a, (forall i, In i l -> i < n) ->
            fold_left (fun acc i => add acc (f i)) l a
            = fold_left (fun acc i => add acc (f' i)) l a).
  { induction l as [|i l IH]; intros a Hl; [reflexivity|]. cbn [fold_left].
    rewrite E by (apply Hl; now left). apply IH. intros j Hj. apply Hl. now right. }
  apply G. intros i Hi. apply in_seq in Hi. lia.
Qed.
End RowFacts.

Section RowOps.
Context {R : Type} {SR : Scalar R}.
Variable b : nat.

Lemma Forall2_lt4 (ix : list nat) (B C H W : nat) :
  Forall2 lt (b :: ix) [B; C; H; W] ->
  exists c y x, ix = [c; y; x] /\ b < B /\ c < C /\ y < H /\ x < W.
Proof.
  intros F.
  inversion F as [|b0 B' ix1 s1 Hb F1]; subst.
  inversion F1 as [|c C' ix2 s2 Hc F2]; subst.
  inversion F2 as [|y H' ix3 s3 Hy F3]; subst.
  inversion F3 as [|x0 W' ix4 s4 Hx F4]; subst.
  inversion F4; subst.
  exists c, y, x0. auto.
Qed.

Lemma row_zeros (s : list nat) : same_row b (zeros (R := R) s) (zeros s).
Proof. apply row_build. reflexivity. Qed.

Lemma row_conv2d i o k p w bias (x x' : tensor R) :
  same_row b x x' ->
  both (same_row b) (conv2d i o k p w bias x) (conv2d i o k p w bias x').
Proof.
  intros S. pose proof S as (_ & _ & Es & _). unfold conv2d. rewrite <- Es.
  destruct (conv2d_shape i o k p (shape x)) as [s|] eqn:Q; [cbn [bind]|exact I].
  apply conv2d_shape_inv in Q as (B & H & W & Hs & _ & _ & ->).
  rewrite Hs. cbn [both]. apply row_build. intros ix F.
  apply Forall2_lt4 in F as (c & y & x0 & -> & Hb & Hc & Hy & Hx).
  cbv zeta.
  assert (G : forall c0, c0 < i -> forall ky kx,
            mul (w c c0 ky kx)
              (getz x H W b c0 (Z.of_nat (y + ky) - Z.of_nat p) (Z.of_nat (x0 + kx) - Z.of_nat p))
            = mul (w c c0 ky kx)
                (getz x' H W b c0 (Z.of_nat (y + ky) - Z.of_nat p)
                   (Z.of_nat (x0 + kx) - Z.of_nat p))).
  { intros c0 Hc0 ky kx. f_equal. now apply (row_getz _ _ S Hs). }
  assert (G' : sum_over i (fun c0 => sum_over k (fun ky => sum_over k (fun kx =>
                 mul (w c c0 ky kx)
                   (getz x H W b c0 (Z.of_nat (y + ky) - Z.of_nat p)
                      (Z.of_nat (x0 + kx) - Z.of_nat p)))))
               = sum_over i (fun c0 => sum_over k (fun ky => sum_over k (fun kx =>
                 mul (w c c0 ky kx)
                   (getz x' H W b c0 (Z.of_nat (y + ky) - Z.of_nat p)
                      (Z.of_nat (x0 + kx) - Z.of_nat p)))))).
  { apply sum_over_ext. intros c0 Hc0. apply sum_over_ext. intros ky _.
    apply sum_over_ext. intros kx _. now apply G. }
  destruct bias; now rewrite G'.
Qed.

Lemma row_conv_transpose2d i o w bias (x x' : tensor R) :
  same_row b x x' ->
  both (same_row b) (conv_transpose2d i o w bias x) (conv_transpose2d i o w bias x').
Proof.
  intros S. pose proof S as (_ & _ & Es & _). unfold conv_transpose2d. rewrite <- Es.
  unfold conv_transpose2d_shape.
  destruct (shape x) as [|B [|C [|H [|W [|? ?]]]]] eqn:Hs; try exact I.
  destruct ((1 <=? i) && (1 <=? o) && (C =? i) && (1 <=? H) && (1 <=? W)) eqn:Q;
    [cbn [bind both]|exact I].
  apply andb_prop in Q as [Q _]. apply andb_prop in Q as [Q _].
  apply andb_prop in Q as [_ EC]. apply Nat.eqb_eq in EC. subst C.
  apply row_build. intros ix F.
  apply Forall2_lt4 in F as (c & y & x0 & -> & Hb & Hc & Hy & Hx).
  f_equal. apply sum_over_ext. intros c0 Hc0. f_equal.
  apply (row_get4 S Hs); try assumption; apply Nat.Div0.div_lt_upper_bound; lia.
Qed.

Lemma row_max_pool2d (x x' : tensor R) :
  same_row b x x' -> both (same_row b) (max_pool2d x) (max_pool2d x').
Proof.
  intros S. pose proof S as (_ & _ & Es & _). unfold max_pool2d. rewrite <- Es.
  unfold max_pool2d_shape.
  destruct (shape x) as [|B [|C [|H [|W [|? ?]]]]] eqn:Hs; try exact I.
  destruct ((1 <=? C) && (1 <=? H / 2) && (1 <=? W / 2)); [cbn [bind both]|exact I].
  apply row_build. intros ix F.
  apply Forall2_lt4 in F as (c & y & x0 & -> & Hb & Hc & Hy & Hx).
  pose proof (half_bounds H). pose proof (half_bounds W).
  rewrite !(row_get4 S Hs) by lia. reflexivity.
Qed.

Lemma row_upsample_bilinear (x x' : tensor R) :
  same_row b x x' -> both (same_row b) (upsample_bilinear x) (upsample_bilinear x').
Proof.
  intros S. pose proof S as (_ & _ & Es & _). unfold upsample_bilinear. rewrite <- Es.
  unfold upsample_shape.
  destruct (shape x) as [|B [|C [|H [|W [|? ?]]]]] eqn:Hs; try exact I.
  destruct ((1 <=? C) && (1 <=? H) && (1 <=? W)) eqn:Q; [cbn [bind both]|exact I].
  apply andb_prop in Q as [Q QW]. apply andb_prop in Q as [_ QH].
  apply Nat.leb_le in QH, QW.
  apply row_build. intros ix F.
  apply Forall2_lt4 in F as (c & y & x0 & -> & Hb & Hc & Hy & Hx).
  cbv zeta.
  assert (Bh : y * (H - 1) / (2 * H - 1) < H)
    by (apply Nat.Div0.div_lt_upper_bound; nia).
  assert (Bw : x0 * (W - 1) / (2 * W - 1) < W)
    by (apply Nat.Div0.div_lt_upper_bound; nia).
  set (h1 := y * (H - 1) / (2 * H - 1)) in *.
  set (w1 := x0 * (W - 1) / (2 * W - 1)) in *.
  assert (Bh' : h1 + (if h1 <? H - 1 then 1 else 0) < H).
  { destruct (h1 <? H - 1) eqn:T; [apply Nat.ltb_lt in T|]; lia. }
  assert (Bw' : w1 + (if w1 <? W - 1 then 1 else 0) < W).
  { destruct (w1 <? W - 1) eqn:T; [apply Nat.ltb_lt in T|]; lia. }
  rewrite !(row_get4 S Hs) by assumption. reflexivity.
Qed.

Lemma row_pad_to (x1 x1' x2 x2' : tensor R) :
  same_row b x1 x1' -> same_row b x2 x2' ->
  both (same_row b) (Up.pad_to x1 x2) (Up.pad_to x1' x2').
Proof.
  intros S1 S2. pose proof S1 as (_ & _ & E1 & _). pose proof S2 as (_ & _ & E2 & _).
  unfold Up.pad_to, dim. rewrite <- E1, <- E2.
  destruct (nth_error (shape x2) 2) as [h2|]; [cbn [bind]|exact I].
  destruct (nth_error (shape x1) 2) as [h1|]; [cbn [bind]|exact I].
  destruct (nth_error (shape x2) 3) as [w2|]; [cbn [bind]|exact I].
  destruct (nth_error (shape x1) 3) as [w1|]; [cbn [bind]|exact I].
  unfold pad. rewrite <- E1. unfold pad_shape.
  destruct (shape x1) as [|B [|C [|H [|W [|? ?]]]]] eqn:Hs; try exact I.
  destruct (_ && _)%bool; [cbn [bind both]|exact I].
  apply row_build. intros ix F.
  apply Forall2_lt4 in F as (c & y & x0 & -> & Hb & Hc & Hy & Hx).
  now apply (row_getz _ _ S1 Hs).
Qed.

Lemma row_cat1 (a a' c c' : tensor R) :
  same_row b a a' -> same_row b c c' ->
  both (same_row b) (cat1 a c) (cat1 a' c').
Proof.
  intros Sa Sc. pose proof Sa as (_ & _ & Ea & _). pose proof Sc as (_ & _ & Ec & _).
  unfold cat1. rewrite <- Ea, <- Ec. unfold cat1_shape.
  destruct (shape a) as [|B1 [|C1 [|H1 [|W1 [|? ?]]]]] eqn:Ha; try exact I.
  destruct (shape c) as [|B2 [|C2 [|H2 [|W2 [|? ?]]]]] eqn:Hc; try exact I.
  destruct ((B1 =? B2) && (H1 =? H2) && (W1 =? W2)) eqn:Q; [cbn [bind both]|exact I].
  apply andb_prop in Q as [Q QW]. apply andb_prop in Q as [QB QH].
  apply Nat.eqb_eq in QB, QH, QW. subst B2 H2 W2.
  apply row_build. intros ix F.
  apply Forall2_lt4 in F as (k & y & x0 & -> & Hb & Hk & Hy & Hx).
  destruct (k <? C1) eqn:T.
  - apply Nat.ltb_lt in T. now apply (row_get4 Sa Ha).
  - apply Nat.ltb_ge in T. apply (row_get4 Sc Hc); lia.
Qed.

Lemma row_slice_channels lo hi (x x' : tensor R) :
  same_row b x x' ->
  both (same_row b) (slice_channels lo hi x) (slice_channels lo hi x').
Proof.
  intros S. pose proof S as (_ & _ & Es & _). unfold slice_channels. rewrite <- Es.
  unfold slice_channels_shape.
  destruct (shape x) as [|B [|C [|H [|W [|? ?]]]]] eqn:Hs; try exact I.
  cbn [bind both]. apply row_build. intros ix F.
  apply Forall2_lt4 in F as (c & y & x0 & -> & Hb & Hc & Hy & Hx).
  apply (row_get4 S Hs); lia.
Qed.

Lemma row_select1 (g g' : tensor R) (i : nat) :
  same_row b g g' -> both (same_row b) (select1 g i) (select1 g' i).
Proof.
  intros S. pose proof S as (_ & _ & Es & A). unfold select1. rewrite <- Es.
  unfold select1_shape.
  destruct (shape g) as [|B [|G [|C [|H [|W [|? ?]]]]]] eqn:Hs; try exact I.
  destruct (i <? G) eqn:T; [cbn [bind both]|exact I]. apply Nat.ltb_lt in T.
  apply row_build. intros ix F.
  apply Forall2_lt4 in F as (c & y & x0 & -> & Hb & Hc & Hy & Hx).
  apply A. in_bounds.
Qed.

Lemma row_moveaxis_1_3 (x x' : tensor R) :
  same_row b x x' -> both (same_row b) (moveaxis_1_3 x) (moveaxis_1_3 x').
Proof.
  intros S. pose proof S as (_ & _ & Es & _). unfold moveaxis_1_3. rewrite <- Es.
  unfold moveaxis_1_3_shape.
  destruct (shape x) as [|B [|C [|H [|W [|? ?]]]]] eqn:Hs; try exact I.
  cbn [bind both]. apply row_build. intros ix F.
  apply Forall2_lt4 in F as (y & x0 & c & -> & Hb & Hy & Hx & Hc).
  now apply (row_get4 S Hs).
Qed.

Lemma row_moveaxis_3_1 (x x' : tensor R) :
  same_row b x x' -> both (same_row b) (moveaxis_3_1 x) (moveaxis_3_1 x').
Proof.
  intros S. pose proof S as (_ & _ & Es & _). unfold moveaxis_3_1. rewrite <- Es.
  unfold moveaxis_3_1_shape.
  destruct (shape x) as [|B [|H [|W [|C [|? ?]]]]] eqn:Hs; try exact I.
  cbn [bind both]. apply row_build. intros ix F.
  apply Forall2_lt4 in F as (c & y & x0 & -> & Hb & Hc & Hy & Hx).
  now apply (row_get4 S Hs).
Qed.

Lemma row_linear i o w bias (x x' : tensor R) :
  same_row b x x' -> both (same_row b) (linear i o w bias x) (linear i o w bias x').
Proof.
  intros S. pose proof S as (_ & _ & Es & _). unfold linear. rewrite <- Es.
  unfold linear_shape.
  destruct (shape x) as [|B [|H [|W [|C [|? ?]]]]] eqn:Hs; try exact I.
  destruct (C =? i) eqn:EC; [cbn [bind both]|exact I]. apply Nat.eqb_eq in EC. subst C.
  apply row_build. intros ix F.
  apply Forall2_lt4 in F as (y & x0 & c & -> & Hb & Hy & Hx & Hc).
  f_equal. apply sum_over_ext. intros c0 Hc0. f_equal. now apply (row_get4 S Hs).
Qed.
End RowOps.

Section RowModules.
Context {R : Type} {SR : Scalar R}.
Variable b : nat.

Lemma row_DoubleConv i o m p (x x' : tensor R) :
  same_row b x x' ->
  both (same_row b) (DoubleConv.forward i o m p x) (DoubleConv.forward i o m p x').
Proof.
  intros S. unfold DoubleConv.forward. cbv zeta.
  apply both_bind with (P := same_row b); [now apply row_conv2d|]. intros x1 x1' S1.
  apply both_bind with (P := same_row b); [apply row_conv2d; now apply row_tmap|].
  intros x2 x2' S2. cbn [both]. now apply row_tmap.
Qed.

Lemma row_Down i o p (x x' : tensor R) :
  same_row b x x' -> both (same_row b) (Down.forward i o p x) (Down.forward i o p x').
Proof.
  intros S. unfold Down.forward.
  apply both_bind with (P := same_row b); [now apply row_max_pool2d|]. intros x1 x1' S1.
  now apply row_DoubleConv.
Qed.

Lemma row_Up i o bilinear p (x1 x1' x2 x2' : tensor R) :
  same_row b x1 x1' -> same_row b x2 x2' ->
  both (same_row b) (Up.forward i o bilinear p x1 x2) (Up.forward i o bilinear p x1' x2').
Proof.
  intros S1 S2. unfold Up.forward.
  apply both_bind with (P := same_row b).
  { unfold Up.up. destruct bilinear;
      [now apply row_upsample_bilinear | now apply row_conv_transpose2d]. }
  intros u u' Su.
  apply both_bind with (P := same_row b); [now apply row_pad_to|]. intros v v' Sv.
  apply both_bind with (P := same_row b); [now apply row_cat1|]. intros c c' Sc.
  now apply row_DoubleConv.
Qed.

Lemma row_OutConv i o p (x x' : tensor R) :
  same_row b x x' -> both (same_row b) (OutConv.forward i o p x) (OutConv.forward i o p x').
Proof. intros S. unfold OutConv.forward. now apply row_conv2d. Qed.

Lemma row_UNet nc ncl bilinear p (x x' : tensor R) :
  same_row b x x' ->
  both (same_row b) (UNet.forward nc ncl bilinear p x) (UNet.forward nc ncl bilinear p x').
Proof.
  intros S. unfold UNet.forward.
  apply both_bind with (P := same_row b); [now apply row_DoubleConv|]. intros x1 x1' S1.
  apply both_bind with (P := same_row b); [now apply row_Down|]. intros x2 x2' S2.
  apply both_bind with (P := same_row b); [now apply row_Down|]. intros x3 x3' S3.
  apply both_bind with (P := same_row b); [now apply row_Down|]. intros x4 x4' S4.
  apply both_bind with (P := same_row b); [now apply row_Down|]. intros x5 x5' S5.
  apply both_bind with (P := same_row b); [now apply row_Up|]. intros u1 u1' U1.
  apply both_bind with (P := same_row b); [now apply row_Up|]. intros u2 u2' U2.
  apply both_bind with (P := same_row b); [now apply row_Up|]. intros u3 u3' U3.
  apply both_bind with (P := same_row b); [now apply row_Up|]. intros u4 u4' U4.
  now apply row_OutConv.
Qed.

Lemma row_ThreeWayUNet nc ncl bilinear p (x x' : tensor R) :
  same_row b x x' ->
  both (same_row3 b) (ThreeWayUNet.forward nc ncl bilinear p x)
    (ThreeWayUNet.forward nc ncl bilinear p x').
Proof.
  intros S. unfold ThreeWayUNet.forward.
  apply both_bind with (P := same_row b); [now apply row_DoubleConv|]. intros x1 x1' S1.
  apply both_bind with (P := same_row b); [now apply row_Down|]. intros x2 x2' S2.
  apply both_bind with (P := same_row b); [now apply row_Down|]. intros x3 x3' S3.
  apply both_bind with (P := same_row b); [now apply row_Down|]. intros x4 x4' S4.
  apply both_bind with (P := same_row b); [now apply row_Down|]. intros x5 x5' S5.
  apply both_bind with (P := same_row b); [now apply row_Up|]. intros a1 a1' A1.
  apply both_bind with (P := same_row b); [now apply row_Up|]. intros a2 a2' A2.
  apply both_bind with (P := same_row b); [now apply row_Up|]. intros a3 a3' A3.
  apply both_bind with (P := same_row b); [now apply row_Up|]. intros a4 a4' A4.
  apply both_bind with (P := same_row b); [now apply row_OutConv|]. intros o1 o1' O1.
  apply both_bind with (P := same_row b); [now apply row_Up|]. intros c1 c1' C1.
  apply both_bind with (P := same_row b); [now apply row_Up|]. intros c2 c2' C2.
  apply both_bind with (P := same_row b); [now apply row_Up|]. intros c3 c3' C3.
  apply both_bind with (P := same_row b); [now apply row_Up|]. intros c4 c4' C4.
  apply both_bind with (P := same_row b); [now apply row_OutConv|]. intros o2 o2' O2.
  apply both_bind with (P := same_row b); [now apply row_Up|]. intros d1 d1' D1.
  apply both_bind with (P := same_row b); [now apply row_Up|]. intros d2 d2' D2.
  apply both_bind with (P := same_row b); [now apply row_Up|]. intros d3 d3' D3.
  apply both_bind with (P := same_row b); [now apply row_Up|]. intros d4 d4' D4.
  apply both_bind with (P := same_row b); [now apply row_OutConv|]. intros o3 o3' O3.
  cbn [both]. unfold same_row3, out1, out2, out3. cbn [fst snd]. auto.
Qed.

Lemma row_RNet i o p (x x' : tensor R) :
  same_row b x x' -> both (same_row b) (RNet.forward i o p x) (RNet.forward i o p x').
Proof.
  intros S. unfold RNet.forward. cbv zeta.
  apply both_bind with (P := same_row b); [now apply row_conv2d|]. intros x1 x1' S1.
  apply both_bind with (P := same_row b); [apply row_conv2d; now apply row_tmap|].
  intros x2 x2' S2.
  apply both_bind with (P := same_row b); [apply row_conv2d; now apply row_tmap|].
  intros x3 x3' S3.
  apply both_bind with (P := same_row b); [apply row_conv2d; now apply row_tmap|].
  intros x4 x4' S4. exact S4.
Qed.

Lemma row_TNetBackBone i o p (x x' : tensor R) :
  same_row b x x' ->
  both (same_row b) (TNetBackBone.forward i o p x) (TNetBackBone.forward i o p x').
Proof.
  intros S. unfold TNetBackBone.forward. cbv zeta.
  apply both_bind with (P := same_row b); [now apply row_conv2d|]. intros x1 x1' S1.
  apply both_bind with (P := same_row b); [apply row_conv2d; now apply row_tmap|].
  intros x2 x2' S2.
  apply both_bind with (P := same_row b); [apply row_conv2d; now apply row_tmap|].
  intros x3 x3' S3.
  apply both_bind with (P := same_row b); [apply row_conv2d; now apply row_tmap|].
  intros x4 x4' S4. cbn [both]. now apply row_tmap.
Qed.

Lemma row_TNet_step i h p (g g' rx rx' : tensor R) (r r' : option (tensor R)) (k : nat) :
  same_row b g g' -> same_row b rx rx' -> both (same_row b) r r' ->
  both (same_row b) (TNet.step i h p g rx r k) (TNet.step i h p g' rx' r' k).
Proof.
  intros Sg Sr S. unfold TNet.step.
  apply both_bind with (P := same_row b); [exact S|]. intros a a' Sa.
  apply both_bind with (P := same_row b).
  { unfold TNet.term.
    apply both_bind with (P := same_row b); [now apply row_select1|]. intros gi gi' Sgi.
    apply both_bind with (P := same_row b); [now apply row_cat1|]. intros c c' Sc.
    now apply row_TNetBackBone. }
  intros t t' St. now apply row_tensor_add.
Qed.

Lemma row_TNet_loop i h p (g g' rx rx' : tensor R) (l : list nat)
    (r r' : option (tensor R)) :
  same_row b g g' -> same_row b rx rx' -> both (same_row b) r r' ->
  both (same_row b) (fold_left (TNet.step i h p g rx) l r)
    (fold_left (TNet.step i h p g' rx') l r').
Proof.
  intros Sg Sr. revert r r'. induction l as [|k l IH]; intros r r' S; [exact S|].
  cbn [fold_left]. apply IH. now apply row_TNet_step.
Qed.

Lemma row_TNet i h p (g g' rx rx' : tensor R) :
  same_row b g g' -> same_row b rx rx' ->
  both (same_row b) (TNet.forward i h p g rx) (TNet.forward i h p g' rx').
Proof.
  intros Sg Sr. pose proof Sg as (_ & _ & Eg & _).
  unfold TNet.forward, dim, dim_neg. rewrite <- Eg.
  destruct (nth_error (shape g) 1) as [G|]; [cbn [bind]|exact I].
  destruct (nth_error (shape g) 0) as [B|]; [cbn [bind]|exact I].
  destruct (nth_error (rev (shape g)) (2 - 1)) as [H|]; [cbn [bind]|exact I].
  destruct (nth_error (rev (shape g)) (1 - 1)) as [W|]; [cbn [bind]|exact I].
  apply both_bind with (P := same_row b).
  { apply row_TNet_loop; try assumption. cbn [both]. apply row_zeros. }
  intros r r' S. now apply row_TNetBackBone.
Qed.

Lemma row_fc_layer i o p (x x' : tensor R) :
  same_row b x x' ->
  both (same_row b) (fc_layer.forward i o p x) (fc_layer.forward i o p x').
Proof.
  intros S. unfold fc_layer.forward.
  apply both_bind with (P := same_row b); [now apply row_linear|]. intros t t' St.
  cbn [both]. now apply row_tmap.
Qed.

Lemma row_CNet n_oi p (x x' g g' : tensor R) :
  same_row b x x' -> same_row b g g' ->
  both (same_row3 b) (CNet.forward n_oi p x g) (CNet.forward n_oi p x' g').
Proof.
  intros Sx Sg. unfold CNet.forward.
  apply both_bind with (P := same_row b); [now apply row_slice_channels|]. intros s s' Ss.
  apply both_bind with (P := same_row b); [now apply row_moveaxis_1_3|]. intros m m' Sm.
  apply both_bind with (P := same_row b); [now apply row_fc_layer|]. intros e e' Se.
  apply both_bind with (P := same_row b); [now apply row_moveaxis_3_1|]. intros pe pe' Sp.
  apply both_bind with (P := same_row b); [now apply row_cat1|]. intros xe xe' Sxe.
  apply both_bind with (P := same_row b); [now apply row_UNet|]. intros rx rx' Srx.
  apply both_bind with (P := same_row b); [now apply row_TNet|]. intros tx tx' Stx.
  apply both_bind with (P := same_row b); [now apply row_cat1|]. intros rtx rtx' Srtx.
  apply both_bind with (P := same_row3 b); [now apply row_ThreeWayUNet|].
  intros [[n o] u] [[n' o'] u'] (Sn & So & Su). cbn [out1 out2 out3 fst snd] in Sn, So, Su.
  apply both_bind with (P := same_row b); [now apply row_RNet|]. intros uv uv' Suv.
  apply both_bind with (P := same_row b); [now apply row_RNet|]. intros nn nn' Snn.
  cbn [both]. unfold same_row3, out1, out2, out3. cbn [fst snd]. auto.
Qed.
End RowModules.

(** X13.  The elements of a batch do not interact: no layer of the model
    normalises or pools over the batch axis (the docstring of DoubleConv
    mentions [BN], the code has none).  Let [x] and [x'] be batched maps
    (B, C, H, W) of one shape, stored in full, with the same element [b],
    and likewise [g] and [g'].  Then [CrystalNet.forward] and [CNet.forward]
    raise on both pairs or on none, and the element [b] of each of the three
    outputs is the same; so it is for UNet and ThreeWayUNet, in both modes,
    for RNet and for TNet. *)
Theorem CrystalNet_batch_elements_independent
    (R : Type) (SR : Scalar R) (b : nat) (x x' g g' : tensor R) (B C H W : nat) :
  shape x = [B; C; H; W] -> same_row b x x' -> same_row b g g' ->
  (forall n_oi p,
     both (same_row3 b) (CrystalNet.forward n_oi p x g) (CrystalNet.forward n_oi p x' g'))
  /\ (forall n_oi p,
        both (same_row3 b) (CNet.forward n_oi p x g) (CNet.forward n_oi p x' g'))
  /\ (forall n_channels n_classes bilinear p,
        both (same_row b) (UNet.forward n_channels n_classes bilinear p x)
          (UNet.forward n_channels n_classes bilinear p x'))
  /\ (forall n_channels n_classes bilinear p,
        both (same_row3 b) (ThreeWayUNet.forward n_channels n_classes bilinear p x)
          (ThreeWayUNet.forward n_channels n_classes bilinear p x'))
  /\ (forall in_channel out_channel p,
        both (same_row b) (RNet.forward in_channel out_channel p x)
          (RNet.forward in_channel out_channel p x'))
  /\ (forall in_channel hidden p,
        both (same_row b) (TNet.forward in_channel hidden p g x)
          (TNet.forward in_channel hidden p g' x')).
Proof.
  intros _ Sx Sg. repeat split; intros.
  - rewrite !CrystalNet_unfold. now apply row_CNet.
  - now apply row_CNet.
  - now apply row_UNet.
  - now apply row_ThreeWayUNet.
  - now apply row_RNet.
  - now apply row_TNet.
Qed.

Lemma CrystalNet_batch_elements_independent_witness :
  shape batch_x = [2; 21; 16; 16]
  /\ same_row 0 batch_x batch_x'
  /\ same_row 0 batch_g batch_g
  /\ get4 batch_x 1 0 0 0 <> get4 batch_x' 1 0 0 0
  /\ exists r r',
       CrystalNet.forward 4 (CrystalNet_const Qc_one) batch_x batch_g = Some r
       /\ CrystalNet.forward 4 (CrystalNet_const Qc_one) batch_x' batch_g = Some r'
       /\ same_row3 0 r r'.
Proof.
  assert (Sx : same_row 0 batch_x batch_x').
  { apply row_build. intros ix _. reflexivity. }
  assert (Sg : same_row 0 batch_g batch_g).
  { apply row_build. reflexivity. }
  split; [reflexivity|]. split; [exact Sx|]. split; [exact Sg|]. split.
  { unfold batch_x, batch_x', zeros. rewrite !get4_build by lia.
    intros E. apply (f_equal this) in E. discriminate E. }
  destruct (@CrystalNet_batch_elements_independent Qc Scalar_Qc 0
              batch_x batch_x' batch_g batch_g 2 21 16 16 eq_refl Sx Sg) as (T & _).
  specialize (T 4 (CrystalNet_const Qc_one)).
  destruct (@CNet_defined Qc Scalar_Qc 4 (CNet_const Qc_one) batch_x batch_g
              2 1 17 16 16)
    as (n & o & u & E & _); [lia | reflexivity | reflexivity | right; reflexivity | lia | lia |].
  destruct (@CNet_defined Qc Scalar_Qc 4 (CNet_const Qc_one) batch_x' batch_g
              2 1 17 16 16)
    as (n' & o' & u' & E' & _); [lia | reflexivity | reflexivity | right; reflexivity | lia | lia |].
  rewrite !CrystalNet_unfold in T |- *. cbn [CrystalNet_const CrystalNet.cnet] in T |- *.
  rewrite E, E' in T |- *. cbn [both] in T.
  exists (n, o, u), (n', o', u'). auto.
Defined.

(** ** Which pairs of maps Up accepts *)

Lemma Up_shape_inv (i o : nat) (bilinear : bool) (B1 C1 H1 W1 B2 C2 H2 W2 : nat)
    (s' : list nat) :
  Up.forward_shape i o bilinear [B1; C1; H1; W1] [B2; C2; H2; W2] = Some s' ->
  B1 = B2 /\ 1 <= o /\ 1 <= H1 /\ 1 <= W1 /\ 1 <= H2 /\ 1 <= W2
  /\ (if bilinear then 1 <= C1 /\ C2 + C1 = i
      else 2 <= i /\ C1 = i /\ C2 + i / 2 = i)
  /\ s' = [B2; o; H2; W2].
Proof.
  unfold Up.forward_shape, Up.up_shape. intros E.
  assert (G : forall c h w,
            (s1 <- Up.pad_to_shape [B1; c; h; w] [B2; C2; H2; W2] ;;
             s <- cat1_shape [B2; C2; H2; W2] s1 ;;
             DoubleConv.forward_shape i o (Up.mid i bilinear) s) = Some s' ->
            B1 = B2 /\ 1 <= o /\ 1 <= H2 /\ 1 <= W2 /\ C2 + c = i
            /\ s' = [B2; o; H2; W2]).
  { intros c h w Q. rewrite pad_to_shape_any in Q. cbn [bind] in Q.
    unfold cat1_shape in Q.
    destruct ((B2 =? B1) && (H2 =? H2) && (W2 =? W2)) eqn:T; [cbn [bind] in Q|discriminate].
    apply andb_prop in T as [T _]. apply andb_prop in T as [T _]. apply Nat.eqb_eq in T.
    apply DoubleConv_shape_inv in Q as (B & H & W & Q1 & _ & Ho & HH & HW & ->).
    injection Q1 as <- <- <- <-. auto 10. }
  destruct bilinear.
  - unfold upsample_shape in E.
    destruct ((1 <=? C1) && (1 <=? H1) && (1 <=? W1)) eqn:T;
      [cbn [bind] in E|discriminate].
    apply andb_prop in T as [T TW]. apply andb_prop in T as [TC TH].
    apply Nat.leb_le in TC, TH, TW.
    apply G in E as (-> & Ho & HH & HW & HC & ->). auto 10.
  - unfold conv_transpose2d_shape in E.
    destruct ((1 <=? i) && (1 <=? i / 2) && (C1 =? i) && (1 <=? H1) && (1 <=? W1)) eqn:T;
      [cbn [bind] in E|discriminate].
    apply andb_prop in T as [T TW]. apply andb_prop in T as [T TH].
    apply andb_prop in T as [T TC]. apply andb_prop in T as [_ Ti].
    apply Nat.leb_le in Ti, TH, TW. apply Nat.eqb_eq in TC.
    pose proof (half_bounds i).
    apply G in E as (-> & Ho & HH & HW & HC & ->).
    repeat split; try assumption; lia.
Qed.

Lemma Up_shape_ok_any (i o : nat) (bilinear : bool) (B C1 H1 W1 C2 H2 W2 : nat) :
  1 <= o -> 1 <= H1 -> 1 <= W1 -> 1 <= H2 -> 1 <= W2 ->
  (if bilinear then 1 <= C1 /\ C2 + C1 = i else 2 <= i /\ C1 = i /\ C2 + i / 2 = i) ->
  Up.forward_shape i o bilinear [B; C1; H1; W1] [B; C2; H2; W2] = Some [B; o; H2; W2].
Proof.
  intros Ho HH1 HW1 HH HW HC. unfold Up.forward_shape, Up.up_shape.
  destruct bilinear.
  - destruct HC as (HC1 & HC). unfold upsample_shape.
    rewrite !leb_true by assumption. cbn [andb bind].
    rewrite pad_to_shape_any. cbn [bind]. rewrite cat1_shape_ok. cbn [bind].
    rewrite HC. apply DoubleConv_shape_ok; lia.
  - destruct HC as (Hi & -> & HC). now apply Up_shape_ok_transposed.
Qed.

(** X14.  [Up.forward] never raises over the spatial size of a non-empty
    [x1]: after the padding or cropping of lines 60-64 the two maps always
    fit.  Built with [out_channels] >= 1, the bilinear Up returns a result
    exactly when the batch sizes agree, [x1] has a channel and both maps are
    non-empty, and the channels add up to [in_channels]; the transposed Up,
    built with [in_channels] >= 2 so that its convolution has an output
    channel, returns a result on a non-empty [x1] exactly when the batch
    sizes agree, [x2] is non-empty, [x1] has [in_channels] channels and
    [x2] the rest.  The result has the spatial size of [x2] and
    [out_channels] channels. *)
Theorem Up_accepts_any_spatial_size
    (R : Type) (SR : Scalar R) (in_channels out_channels : nat) (bilinear : bool)
    (p : Up.params R) (x1 x2 : tensor R) (B1 C1 H1 W1 B2 C2 H2 W2 : nat) :
  1 <= out_channels ->
  bilinear = true \/ (2 <= in_channels /\ 1 <= H1 /\ 1 <= W1) ->
  shape x1 = [B1; C1; H1; W1] -> shape x2 = [B2; C2; H2; W2] ->
  ((exists y, Up.forward in_channels out_channels bilinear p x1 x2 = Some y)
   <-> (B1 = B2 /\ 1 <= H2 /\ 1 <= W2
        /\ if bilinear then 1 <= C1 /\ 1 <= H1 /\ 1 <= W1 /\ C2 + C1 = in_channels
           else C1 = in_channels /\ C2 + in_channels / 2 = in_channels))
  /\ (forall y, Up.forward in_channels out_channels bilinear p x1 x2 = Some y ->
        shape y = [B2; out_channels; H2; W2]).
Proof.
  intros Ho Hi Hs1 Hs2.
  pose proof (Up_sim in_channels out_channels bilinear p x1 x2) as E.
  rewrite Hs1, Hs2 in E.
  split; [split|].
  - intros (y & Ey). rewrite Ey in E. cbn [option_map] in E. symmetry in E.
    apply Up_shape_inv in E as (HB & _ & HH1 & HW1 & HH & HW & HC & _).
    repeat split; try assumption.
    destruct bilinear; tauto.
  - intros (-> & HH & HW & HC).
    rewrite Up_shape_ok_any in E; try assumption.
    + apply sim_some in E as (y & Ey & _). now exists y.
    + destruct bilinear; [tauto|].
      destruct Hi as [Hi | Hi]; [discriminate Hi | tauto].
    + destruct bilinear; [tauto|].
      destruct Hi as [Hi | Hi]; [discriminate Hi | tauto].
    + destruct bilinear; [tauto|].
      destruct Hi as [Hi | Hi]; [discriminate Hi | tauto].
  - intros y Ey. rewrite Ey in E. cbn [option_map] in E. symmetry in E.
    apply Up_shape_inv in E as (_ & _ & _ & _ & _ & _ & _ & Q). exact Q.
Qed.

Lemma Up_accepts_any_spatial_size_witness :
  1 <= 4 /\ (true = true \/ (2 <= 5 /\ 1 <= 7 /\ 1 <= 1))
  /\ shape (zeros (R := Qc) [1; 2; 7; 1]) = [1; 2; 7; 1]
  /\ shape (zeros (R := Qc) [1; 3; 2; 5]) = [1; 3; 2; 5]
  /\ exists y,
       Up.forward 5 4 true (Up_const Qc_one) (zeros [1; 2; 7; 1]) (zeros [1; 3; 2; 5])
       = Some y
       /\ shape y = [1; 4; 2; 5].
Proof.
  split; [lia|]. split; [left; reflexivity|]. split; [reflexivity|].
  split; [reflexivity|].
  destruct (@Up_accepts_any_spatial_size Qc Scalar_Qc 5 4 true (Up_const Qc_one)
              (zeros [1; 2; 7; 1]) (zeros [1; 3; 2; 5]) 1 2 7 1 1 3 2 5)
    as ((_ & D) & Hy);
    [lia | left; reflexivity | reflexivity | reflexivity |].
  destruct D as (y & E); [repeat split; lia|].
  exists y. split; [exact E | exact (Hy y E)].
Defined.

(** ** One glass slice *)

Section StoredResults.
Context {R : Type} {SR : Scalar R}.

Lemma conv2d_wf i o k p w bias (x y : tensor R) :
  conv2d i o k p w bias x = Some y -> wf y.
Proof.
  unfold conv2d. intros E.
  destruct (conv2d_shape i o k p (shape x)) as [s|]; [cbn [bind] in E|discriminate].
  destruct (shape x) as [|B [|C [|H [|W [|? ?]]]]]; try discriminate.
  injection E as <-. apply wf_build.
Qed.

Lemma TNetBackBone_wf i o p (x y : tensor R) :
  TNetBackBone.forward i o p x = Some y -> wf y.
Proof.
  unfold TNetBackBone.forward. intros E.
  destruct (conv2d i 64 3 1 _ _ x) as [x1|]; [cbn [bind] in E|discriminate].
  destruct (conv2d 64 128 3 1 _ _ _) as [x2|]; [cbn [bind] in E|discriminate].
  destruct (conv2d 128 64 3 1 _ _ _) as [x3|]; [cbn [bind] in E|discriminate].
  destruct (conv2d 64 o 1 0 _ _ _) as [x4|] eqn:E4; [cbn [bind] in E|discriminate].
  injection E as <-. apply conv2d_wf in E4. unfold wf in *. cbn [tmap shape data].
  now rewrite length_map.
Qed.
End StoredResults.

Section OneGlass.
Context {R : Type} {SR : Scalar R}.
Hypothesis scalar_semiring : semi_ring_theory zero (ratio 1 1) add mul eq.
Add Ring scalar_ring_og : scalar_semiring.

Lemma map2_add_zero (z l : list R) :
  length z = length l -> Forall (fun v => v = zero) z -> map2 add z l = l.
Proof.
  unfold map2. revert l. induction z as [|a z IH]; intros [|v l] L Z;
    try discriminate L; [reflexivity|].
  cbn [combine map fst snd]. inversion Z as [|? ? Ha Z']; subst.
  rewrite IH by (try (injection L as L); assumption). f_equal. ring.
Qed.

Lemma tensor_add_zeros (t : tensor R) :
  wf t -> tensor_add (zeros (shape t)) t = Some t.
Proof.
  intros Wt. unfold tensor_add. rewrite shape_zeros, shape_eqb_refl.
  destruct t as [s d]. cbn [shape data] in *. f_equal. f_equal.
  apply map2_add_zero; [|apply zeros_all_zero].
  unfold wf in Wt. cbn [shape data] in Wt. rewrite Wt.
  unfold zeros, build. cbn [data]. apply tab_length.
Qed.

End OneGlass.

(** X15.  With exactly one glass slice the loop of [TNet.forward] adds one
    term to a map of zeros: over a commutative semiring the result is
    tnet_b(tnet_f(cat([rx, g[:, 0]], 1))), and the call raises exactly when
    this composition does. *)
Theorem TNet_one_glass_is_composition
    (R : Type) (SR : Scalar R)
    (scalar_semiring : semi_ring_theory (zero (R := R)) (ratio 1 1) add mul eq)
    (in_channel hidden : nat) (p : TNet.params R) (g rx : tensor R) (B C H W : nat) :
  shape g = [B; 1; C; H; W] ->
  TNet.forward in_channel hidden p g rx
  = (gi <- select1 g 0 ;;
     c <- cat1 rx gi ;;
     t <- TNetBackBone.forward in_channel hidden (TNet.tnet_f p) c ;;
     TNetBackBone.forward hidden 16 (TNet.tnet_b p) t).
Proof.
  intros Hg. unfold TNet.forward, dim, dim_neg. rewrite Hg.
  cbn [nth_error rev app Nat.sub bind seq fold_left]. unfold TNet.step, TNet.term.
  cbn [bind].
  destruct (select1 g 0) as [gi|] eqn:E1; [cbn [bind]|reflexivity].
  destruct (cat1 rx gi) as [c|] eqn:E2; [cbn [bind]|reflexivity].
  destruct (TNetBackBone.forward in_channel hidden (TNet.tnet_f p) c) as [t|] eqn:E3;
    [cbn [bind]|reflexivity].
  pose proof (sim_some_inv (@shape R) (select1_sim g 0) E1) as S1.
  rewrite Hg in S1. cbn [select1_shape Nat.ltb Nat.leb] in S1. injection S1 as S1.
  pose proof (sim_some_inv (@shape R) (cat1_sim rx gi) E2) as S2.
  rewrite <- S1 in S2. unfold cat1_shape in S2.
  destruct (shape rx) as [|B1 [|C1 [|H1 [|W1 [|? ?]]]]]; try discriminate S2.
  destruct ((B1 =? B) && (H1 =? H) && (W1 =? W)) eqn:Q; [|discriminate S2].
  apply andb_prop in Q as [Q QW]. apply andb_prop in Q as [QB QH].
  apply Nat.eqb_eq in QB, QH, QW. subst B1 H1 W1. injection S2 as S2.
  pose proof (sim_some_inv (@shape R)
                (TNetBackBone_sim in_channel hidden (TNet.tnet_f p) c) E3) as S3.
  rewrite <- S2 in S3. apply TNetBackBone_shape_inv in S3 as (B' & H' & W' & Q & S3).
  injection Q as <- _ <- <-.
  rewrite <- S3, (tensor_add_zeros scalar_semiring) by (eapply TNetBackBone_wf; exact E3).
  reflexivity.
Qed.

Lemma TNet_one_glass_is_composition_witness :
  semi_ring_theory (zero (R := Qc)) (ratio 1 1) add mul eq
  /\ shape (zeros (R := Qc) [1; 1; 17; 2; 2]) = [1; 1; 17; 2; 2]
  /\ TNet.forward 25 32 (TNet_const Qc_one) (zeros [1; 1; 17; 2; 2]) (zeros [1; 8; 2; 2])
     = (gi <- select1 (zeros [1; 1; 17; 2; 2]) 0 ;;
        c <- cat1 (zeros [1; 8; 2; 2]) gi ;;
        t <- TNetBackBone.forward 25 32 (TNet.tnet_f (TNet_const Qc_one)) c ;;
        TNetBackBone.forward 32 16 (TNet.tnet_b (TNet_const Qc_one)) t)
  /\ exists y,
       TNet.forward 25 32 (TNet_const Qc_one) (zeros [1; 1; 17; 2; 2]) (zeros [1; 8; 2; 2])
       = Some y.
Proof.
  split; [exact Qc_semiring|]. split; [reflexivity|]. split.
  - apply (@TNet_one_glass_is_composition Qc Scalar_Qc Qc_semiring 25 32
             (TNet_const Qc_one) (zeros [1; 1; 17; 2; 2]) (zeros [1; 8; 2; 2]) 1 17 2 2
             eq_refl).
  - destruct (@TNet_defined Qc Scalar_Qc 32 (TNet_const Qc_one)
                (zeros [1; 1; 17; 2; 2]) (zeros [1; 8; 2; 2]) 1 1 17 8 2 2)
      as (y & E & _); [lia | lia | reflexivity | reflexivity | lia | lia |].
    now exists y.
Defined.

(** ** Two glass slices *)

Section TwoSlices.
Context {R : Type} {SR : Scalar R}.

(** the first two terms of a sum that starts at zero can be exchanged *)
Hypothesis add_zero_swap : forall a b : R, add (add zero a) b = add (add zero b) a.

Lemma map2_add_swap_zero (z x y : list R) :
  Forall (fun v => v = zero) z ->
  map2 add (map2 add z x) y = map2 add (map2 add z y) x.
Proof.
  intros Z. revert x y. induction Z as [|a0 a Ha Z IH]; intros x y; [reflexivity|].
  destruct x as [|x0 x], y as [|y0 y]; try reflexivity.
  change (add (add a0 x0) y0 :: map2 add (map2 add a x) y
          = add (add a0 y0) x0 :: map2 add (map2 add a y) x).
  rewrite IH. f_equal. subst a0. apply add_zero_swap.
Qed.

Lemma tensor_add_swap_zeros (s : list nat) (x y : tensor R) :
  (r <- tensor_add (zeros s) x ;; tensor_add r y)
  = (r <- tensor_add (zeros s) y ;; tensor_add r x).
Proof.
  unfold tensor_add.
  destruct (shape_eqb (shape (zeros s)) (shape x)) eqn:Ex,
           (shape_eqb (shape (zeros s)) (shape y)) eqn:Ey;
    cbn [bind shape data]; rewrite ?Ex, ?Ey; try reflexivity.
  rewrite map2_add_swap_zero; [reflexivity | apply zeros_all_zero].
Qed.

Lemma TNet_step_swap_zeros i h w (g rx : tensor R) (s : list nat) j k :
  TNet.step i h w g rx (TNet.step i h w g rx (Some (zeros s)) j) k
  = TNet.step i h w g rx (TNet.step i h w g rx (Some (zeros s)) k) j.
Proof.
  unfold TNet.step. cbn [bind].
  destruct (TNet.term i h w g rx j) as [tj|],
           (TNet.term i h w g rx k) as [tk|]; cbn [bind].
  - apply tensor_add_swap_zeros.
  - now destruct (tensor_add (zeros s) tj).
  - now destruct (tensor_add (zeros s) tk).
  - reflexivity.
Qed.

Lemma TNet_forward_two_permuted i h w (g rx : tensor R) p g' B G C H W :
  shape g = [B; G; C; H; W] -> G <= 2 ->
  Permutation p (seq 0 G) ->
  index_select1 g p = Some g' ->
  TNet.forward i h w g' rx = TNet.forward i h w g rx.
Proof.
  intros Hs HG P Hsel.
  pose proof (@shape_index_select R SR g p g' B G C H W Hs Hsel) as Hs'.
  assert (Hlen : length p = G) by (rewrite (Permutation_length P); apply length_seq).
  unfold TNet.forward, dim, dim_neg. rewrite Hs, Hs', Hlen.
  cbn [nth_error rev app bind Nat.sub].
  f_equal.
  rewrite (@TNet_loop_index_select R SR i h w g rx p g' B G C H W (seq 0 G) _ Hs Hsel)
    by (rewrite Hlen; apply seq_below).
  rewrite <- Hlen at 1. rewrite map_nth_seq.
  destruct G as [|[|[|G]]]; [| | |lia]; cbn [seq] in P |- *.
  - apply Permutation_sym, Permutation_nil in P. now subst p.
  - apply Permutation_sym, Permutation_length_1_inv in P. now subst p.
  - apply Permutation_sym, Permutation_length_2_inv in P as [-> | ->];
      [reflexivity|]. cbn [fold_left]. apply TNet_step_swap_zeros.
Qed.
End TwoSlices.

(** in binary32 addition is commutative, and adding to +0 changes nothing
    but the sign of -0 *)
Lemma f32_add_zero_swap (a b : f32) : add (add zero a) b = add (add zero b) a.
Proof.
  cbn [add zero Scalar_f32].
  destruct a as [sa|sa| |sa ma ea], b as [sb|sb| |sb mb eb];
    try reflexivity;
    try (destruct sa; reflexivity); try (destruct sb; reflexivity);
    try (destruct sa, sb; reflexivity).
  unfold SFadd. rewrite (Z.min_comm ea eb). rewrite Z.add_comm. reflexivity.
Qed.

(** X16.  Up to two glass slices [TNet.forward] does not depend on their
    order in binary32 either: the sum starts at zero, and
    (0 + a) + b = (0 + b) + a holds for floating-point addition, which is
    commutative though not associative.  For a glass tensor of shape
    (B, G, C, H, W) with G <= 2 and a permutation [p] of [0, G), the permuted
    tensor gives exactly the result of [g], errors included. *)
Theorem TNet_two_glass_slices_commute
    (R : Type) (SR : Scalar R)
    (add_zero_swap : forall a b : R, add (add zero a) b = add (add zero b) a)
    (in_channel hidden : nat) (w : TNet.params R) (g rx : tensor R)
    (p : list nat) (B G C H W : nat) :
  shape g = [B; G; C; H; W] -> G <= 2 ->
  Permutation p (seq 0 G) ->
  exists g',
    index_select1 g p = Some g'
    /\ TNet.forward in_channel hidden w g' rx = TNet.forward in_channel hidden w g rx.
Proof.
  intros Hs HG P.
  assert (Hall : forallb (fun j => j <? G) p = true).
  { apply forallb_forall. intros j Hj. apply Nat.ltb_lt.
    apply (Permutation_in _ P), in_seq in Hj. lia. }
  assert (Hsel : exists g', index_select1 g p = Some g').
  { unfold index_select1. rewrite Hs, Hall. eauto. }
  destruct Hsel as (g' & Hsel). exists g'. split; [exact Hsel|].
  exact (@TNet_forward_two_permuted R SR add_zero_swap in_channel hidden w g rx p g'
           B G C H W Hs HG P Hsel).
Qed.

Lemma TNet_two_glass_slices_commute_witness :
  (forall a b : f32, add (add zero a) b = add (add zero b) a)
  /\ shape glass2_f32 = [1; 2; 17; 1; 1]
  /\ 2 <= 2
  /\ Permutation [1; 0] (seq 0 2)
  /\ exists g',
       index_select1 glass2_f32 [1; 0] = Some g'
       /\ get g' [0; 0; 0; 0; 0] <> get glass2_f32 [0; 0; 0; 0; 0]
       /\ TNet.forward 25 32 tnet_f32 g' rx_f32
          = TNet.forward 25 32 tnet_f32 glass2_f32 rx_f32.
Proof.
  split; [exact f32_add_zero_swap|]. split; [reflexivity|]. split; [lia|].
  split; [apply perm_swap|].
  destruct (@TNet_two_glass_slices_commute f32 Scalar_f32 f32_add_zero_swap
              25 32 tnet_f32 glass2_f32 rx_f32 [1; 0] 1 2 17 1 1 eq_refl)
    as (g' & Hsel & E); [lia | apply perm_swap |].
  exists g'. split; [exact Hsel|]. split; [|exact E].
  assert (V : option_map (fun t => get t [0; 0; 0; 0; 0])
                (index_select1 glass2_f32 [1; 0]) = Some (f32_of_Z 1))
    by (vm_compute; reflexivity).
  rewrite Hsel in V. cbn [option_map] in V. injection V as V.
  rewrite V. vm_compute. discriminate.
Defined.
